(** * Boolean-condition algebra of the decompiler: custom_logic.py

    A shallow embedding of [decompiler/structures/logic/custom_logic.py]
    ([CustomLogicCondition] and [PseudoCustomLogicCondition]) together with a
    model of the term graph ([simplifier.world.World]) it is written against. *)

From Stdlib Require Import List String Ascii Bool NArith ZArith Lia DecimalString.
Import ListNotations.
Local Open Scope N_scope.

Set Implicit Arguments.
Set Warnings "-register-all".

(** ** Python results *)

Inductive Error : Type :=
| IndexError
| KeyError
| AssertionError
| MismatchedGraph.

Inductive Result (A : Type) : Type :=
| Ok (a : A)
| Raise (e : Error).

Arguments Ok {A} a.
Arguments Raise {A} e.

Definition bind {A B : Type} (r : Result A) (f : A -> Result B) : Result B :=
  match r with
  | Ok a => f a
  | Raise e => Raise e
  end.

Notation "x <- r ;; k" := (bind r (fun x => k))
  (at level 61, r at next level, right associativity).

(** ** Nodes of the term graph *)

(** Modelled from the spec: the names of the variables of a term graph; a
    variable is either named by the caller ([World.variable]) or generated by
    the graph ([World.new_variable(size, tmp)]), as a [TmpVariable] when
    [tmp] is set. *)
Inductive VarName : Type :=
| Named (s : string)
| Generated (n : N) (tmp : bool).

(** Modelled from the spec: the operation kinds of the term graph, AND, OR,
    NOT and the ten numeric comparisons of the operator vocabulary. *)
Inductive OperationKind : Type :=
| BitwiseAnd | BitwiseOr | BitwiseNegate
| BoolEqual | BoolUnequal
| SignedLe | UnsignedLe | SignedGt | UnsignedGt
| SignedLt | UnsignedLt | SignedGe | UnsignedGe.

(** Modelled from the spec: the nodes of the term graph (symbol, constant,
    operation).  A node is represented by the term it is the root of. *)
Inductive WorldObject : Type :=
| Var (name : VarName) (size : N)
| Constant (unsigned : N) (size : N)
| Operation (kind : OperationKind) (operands : list WorldObject).

Definition VarName_eqb (a b : VarName) : bool :=
  match a, b with
  | Named s, Named s' => String.eqb s s'
  | Generated n t, Generated n' t' => N.eqb n n' && Bool.eqb t t'
  | _, _ => false
  end.

Definition OperationKind_eqb (a b : OperationKind) : bool :=
  match a, b with
  | BitwiseAnd, BitwiseAnd | BitwiseOr, BitwiseOr | BitwiseNegate, BitwiseNegate
  | BoolEqual, BoolEqual | BoolUnequal, BoolUnequal
  | SignedLe, SignedLe | UnsignedLe, UnsignedLe
  | SignedGt, SignedGt | UnsignedGt, UnsignedGt
  | SignedLt, SignedLt | UnsignedLt, UnsignedLt
  | SignedGe, SignedGe | UnsignedGe, UnsignedGe => true
  | _, _ => false
  end.

(** Node identity: two nodes are the same node when they are the same term. *)
Fixpoint WorldObject_eqb (a b : WorldObject) {struct a} : bool :=
  match a, b with
  | Var n s, Var n' s' => VarName_eqb n n' && N.eqb s s'
  | Constant u s, Constant u' s' => N.eqb u u' && N.eqb s s'
  | Operation k xs, Operation k' ys =>
      OperationKind_eqb k k' &&
      (fix all2 (xs ys : list WorldObject) {struct xs} : bool :=
         match xs, ys with
         | [], [] => true
         | x :: xs', y :: ys' => WorldObject_eqb x y && all2 xs' ys'
         | _, _ => false
         end) xs ys
  | _, _ => false
  end.

(** Removes the first element of [ys] accepted by [p]. *)
Fixpoint extract_first (p : WorldObject -> bool) (ys : list WorldObject)
  : option (list WorldObject) :=
  match ys with
  | [] => None
  | y :: ys' =>
      if p y then Some ys'
      else match extract_first p ys' with
           | Some r => Some (y :: r)
           | None => None
           end
  end.

Definition commutative (k : OperationKind) : bool :=
  match k with
  | BitwiseAnd | BitwiseOr => true
  | _ => false
  end.

(** Modelled from the spec: [World.compare], the structural comparison of two
    nodes; [is_equal_to]'s docstring: the same form except the ordering. *)
Fixpoint compare (a b : WorldObject) {struct a} : bool :=
  match a, b with
  | Var n s, Var n' s' => VarName_eqb n n' && N.eqb s s'
  | Constant u s, Constant u' s' => N.eqb u u' && N.eqb s s'
  | Operation k xs, Operation k' ys =>
      OperationKind_eqb k k' &&
      if commutative k then
        (fix bag (xs ys : list WorldObject) {struct xs} : bool :=
           match xs with
           | [] => match ys with [] => true | _ => false end
           | x :: xs' =>
               match extract_first (compare x) ys with
               | Some ys' => bag xs' ys'
               | None => false
               end
           end) xs ys
      else
        (fix all2 (xs ys : list WorldObject) {struct xs} : bool :=
           match xs, ys with
           | [], [] => true
           | x :: xs', y :: ys' => compare x y && all2 xs' ys'
           | _, _ => false
           end) xs ys
  | _, _ => false
  end.

(** [isinstance(c, BaseVariable)] *)
Definition is_BaseVariable (c : WorldObject) : bool :=
  match c with Var _ _ => true | _ => false end.

(** [isinstance(c, Variable)]: a variable that is not a [TmpVariable]. *)
Definition is_Variable (c : WorldObject) : bool :=
  match c with
  | Var (Generated _ true) _ => false
  | Var _ _ => true
  | _ => false
  end.

Definition is_Constant (c : WorldObject) : bool :=
  match c with Constant _ _ => true | _ => false end.

Definition is_Operation (c : WorldObject) : bool :=
  match c with Operation _ _ => true | _ => false end.

Definition is_kind (k : OperationKind) (c : WorldObject) : bool :=
  match c with Operation k' _ => OperationKind_eqb k k' | _ => false end.

Definition operands_of (c : WorldObject) : list WorldObject :=
  match c with Operation _ ops => ops | _ => [] end.

Definition is_comparison (k : OperationKind) : bool :=
  match k with
  | BitwiseAnd | BitwiseOr | BitwiseNegate => false
  | _ => true
  end.

(** Modelled from the spec: the bit width of a node; a comparison is one bit
    wide, a bitwise operation as wide as its widest operand. *)
Fixpoint size_of (c : WorldObject) : N :=
  match c with
  | Var _ s => s
  | Constant _ s => s
  | Operation k ops =>
      if is_comparison k then 1
      else fold_right (fun o acc => N.max (size_of o) acc) 0 ops
  end.

(** ** The term graph *)

(** Modelled from the spec: the state of a term graph ([World]): the
    definitions binding a variable to an expression, and the counter of the
    names handed out by [new_variable].  Operation nodes are represented by
    their terms, so a node referenced from several places is the same term in
    each of them. *)
Record World : Type := mkWorld {
  ident : nat;
  definitions : list (WorldObject * WorldObject);
  counter : N
}.

Fixpoint lookup (v : WorldObject) (ds : list (WorldObject * WorldObject))
  : option WorldObject :=
  match ds with
  | [] => None
  | (k, t) :: ds' => if WorldObject_eqb v k then Some t else lookup v ds'
  end.

Fixpoint unbind (v : WorldObject) (ds : list (WorldObject * WorldObject))
  : list (WorldObject * WorldObject) :=
  match ds with
  | [] => []
  | (k, t) :: ds' =>
      if WorldObject_eqb v k then unbind v ds' else (k, t) :: unbind v ds'
  end.

(** [World.get_definition] *)
Definition get_definition (w : World) (v : WorldObject) : option WorldObject :=
  lookup v (definitions w).

(** [World.define] *)
Definition define (w : World) (v t : WorldObject) : World :=
  mkWorld (ident w) ((v, t) :: unbind v (definitions w)) (counter w).

(** [World.new_variable(size, tmp)] *)
Definition new_variable (w : World) (size : N) (tmp : bool)
  : World * WorldObject :=
  (mkWorld (ident w) (definitions w) (counter w + 1),
   Var (Generated (counter w) tmp) size).

(** [World.variable(name, size)] *)
Definition variable (name : string) (size : N) : WorldObject :=
  Var (Named name) size.

(** [World.constant(value, size)] *)
Definition constant (value : Z) (size : N) : WorldObject :=
  Constant (Z.to_N (value mod 2 ^ Z.of_N size)) size.

Definition bitwise_and (ops : list WorldObject) : WorldObject :=
  Operation BitwiseAnd ops.

Definition bitwise_or (ops : list WorldObject) : WorldObject :=
  Operation BitwiseOr ops.

Definition bitwise_negate (c : WorldObject) : WorldObject :=
  Operation BitwiseNegate [c].

(** Replaces every occurrence of the node [old] in [t] by [new]. *)
Fixpoint subst (old new t : WorldObject) {struct t} : WorldObject :=
  if WorldObject_eqb t old then new
  else match t with
       | Operation k ops => Operation k (map (subst old new) ops)
       | _ => t
       end.

(** [World.replace]: replaces one node by another everywhere it is
    referenced. *)
Definition replace (w : World) (old new : WorldObject) : World :=
  mkWorld (ident w)
          (map (fun d => (fst d, subst old new (snd d))) (definitions w))
          (counter w).

(** Does the node [c] occur in [t]? *)
Fixpoint occurs (c t : WorldObject) {struct t} : bool :=
  WorldObject_eqb t c ||
  match t with
  | Operation _ ops => existsb (occurs c) ops
  | _ => false
  end.

(** Has the node [c] a parent in the graph? *)
Definition has_parent (w : World) (c : WorldObject) : bool :=
  existsb (fun d => negb (WorldObject_eqb (snd d) c) && occurs c (snd d))
          (definitions w).

(** [World.cleanup(nodes)]: nodes that nothing references any more are
    reclaimed.  A variable is reclaimed, with its definition, only when it is
    among the given [nodes]; without them the definitions stay. *)
Definition cleanup (w : World) (nodes : list WorldObject) : World :=
  fold_left
    (fun w' v =>
       if is_BaseVariable v && negb (has_parent w' v)
       then mkWorld (ident w') (unbind v (definitions w')) (counter w')
       else w')
    nodes w.

(** [World.free_world_condition]: gives the variable a private copy of the
    nodes of its definition; the definition is the same term afterwards. *)
Definition free_world_condition (w : World) (v : WorldObject) : World := w.

(** Keeps the first occurrence of every node. *)
Fixpoint dedup (l : list WorldObject) : list WorldObject :=
  match l with
  | [] => []
  | x :: l' => x :: filter (fun y => negb (WorldObject_eqb y x)) (dedup l')
  end.

Fixpoint postorder (w : World) (fuel : nat) : WorldObject -> list WorldObject :=
  fix go (c : WorldObject) : list WorldObject :=
    match c with
    | Operation _ ops => flat_map go ops ++ [c]
    | Var _ _ =>
        match fuel, get_definition w c with
        | S fuel', Some t => postorder w fuel' t ++ [c]
        | _, _ => [c]
        end
    | Constant _ _ => [c]
    end.

(** [World.iter_postorder]: the nodes reachable from [c], operands before
    their operation and a definition before its variable, each node once. *)
Definition iter_postorder (w : World) (c : WorldObject) : list WorldObject :=
  dedup (postorder w (List.length (definitions w)) c).

(** ** Formula handles: [CustomLogicCondition] *)

(** A handle holds its variable; [context] is the graph of that variable
    ([self._variable.world]). *)
Record CustomLogicCondition : Type := mkCondition {
  _variable : WorldObject;
  context : nat
}.

(** [CustomLogicCondition.__init__] *)
Definition init (w : World) (condition : WorldObject) (tmp : bool)
  : World * CustomLogicCondition :=
  if is_Variable condition then (w, mkCondition condition (ident w))
  else
    let (w1, v) := new_variable w (size_of condition) tmp in
    (define w1 v condition, mkCondition v (ident w)).

(** [CustomLogicCondition._condition] *)
Definition _condition (w : World) (self : CustomLogicCondition) : WorldObject :=
  match get_definition w (_variable self) with
  | Some term => term
  | None => _variable self
  end.

(** [CustomLogicCondition.copy] *)
Definition copy (w : World) (self : CustomLogicCondition)
  : World * CustomLogicCondition :=
  init w (_condition w self) false.

Definition initialize_symbol (w : World) (name : string)
  : World * CustomLogicCondition :=
  init w (variable name 1) false.

Definition initialize_true (w : World) : World * CustomLogicCondition :=
  init w (constant 1 1) false.

Definition initialize_false (w : World) : World * CustomLogicCondition :=
  init w (constant 0 1) false.

(** [CustomLogicCondition._custom_negate] *)
Definition _custom_negate (condition : WorldObject) : WorldObject :=
  match condition with
  | Operation BitwiseNegate (operand :: _) => operand
  | _ => bitwise_negate condition
  end.

(** [CustomLogicCondition.__invert__] *)
Definition __invert__ (w : World) (self : CustomLogicCondition)
  : World * CustomLogicCondition :=
  init w (_custom_negate (_condition w self)) false.

(** [CustomLogicCondition.__and__] *)
Definition __and__ (w : World) (self other : CustomLogicCondition)
  : World * CustomLogicCondition :=
  init w (bitwise_and [_condition w self; _condition w other]) false.

(** [CustomLogicCondition.__or__] *)
Definition __or__ (w : World) (self other : CustomLogicCondition)
  : World * CustomLogicCondition :=
  init w (bitwise_or [_condition w self; _condition w other]) false.

(** [CustomLogicCondition.is_true] *)
Definition is_true (w : World) (self : CustomLogicCondition) : bool :=
  match _condition w self with
  | Constant unsigned _ => negb (N.eqb unsigned 0)
  | _ => false
  end.

(** [CustomLogicCondition.is_false] *)
Definition is_false (w : World) (self : CustomLogicCondition) : bool :=
  match _condition w self with
  | Constant unsigned _ => N.eqb unsigned 0
  | _ => false
  end.

Definition is_disjunction (w : World) (self : CustomLogicCondition) : bool :=
  is_kind BitwiseOr (_condition w self).

Definition is_conjunction (w : World) (self : CustomLogicCondition) : bool :=
  is_kind BitwiseAnd (_condition w self).

Definition is_negation (w : World) (self : CustomLogicCondition) : bool :=
  is_kind BitwiseNegate (_condition w self).

(** [CustomLogicCondition._is_symbol] *)
Definition _is_symbol (w : World) (condition : WorldObject) : bool :=
  is_Variable condition && N.eqb (size_of condition) 1 &&
  match get_definition w condition with None => true | Some _ => false end.

(** [CustomLogicCondition._is_literal] *)
Definition _is_literal (w : World) (condition : WorldObject) : bool :=
  _is_symbol w condition ||
  match condition with
  | Operation BitwiseNegate (operand :: _) => _is_symbol w operand
  | _ => false
  end.

(** [CustomLogicCondition._is_disjunction_of_literals] *)
Definition _is_disjunction_of_literals (w : World) (condition : WorldObject)
  : bool :=
  if _is_literal w condition then true
  else match condition with
       | Operation BitwiseOr ops => forallb (_is_literal w) ops
       | _ => false
       end.

Definition is_symbol (w : World) (self : CustomLogicCondition) : bool :=
  _is_symbol w (_condition w self).

Definition is_literal (w : World) (self : CustomLogicCondition) : bool :=
  _is_literal w (_condition w self).

Definition is_disjunction_of_literals (w : World) (self : CustomLogicCondition)
  : bool :=
  _is_disjunction_of_literals w (_condition w self).

(** [CustomLogicCondition.is_cnf_form] *)
Definition is_cnf_form (w : World) (self : CustomLogicCondition) : bool :=
  if is_true w self || is_false w self || is_disjunction_of_literals w self
  then true
  else is_conjunction w self &&
       forallb (_is_disjunction_of_literals w) (operands_of (_condition w self)).

(** [CustomLogicCondition.is_equal_to] *)
Definition is_equal_to (w : World) (self other : CustomLogicCondition) : bool :=
  compare (_condition w self) (_condition w other).

(** ** Graph edits *)

(** The edges from [parent] to [child] ([World.get_relation]), as the
    indices of the operands of [parent] that are [child]. *)
Fixpoint relation_indices (child : WorldObject) (ops : list WorldObject)
         (i : nat) : list nat :=
  match ops with
  | [] => []
  | o :: ops' =>
      if WorldObject_eqb o child then i :: relation_indices child ops' (S i)
      else relation_indices child ops' (S i)
  end.

Definition get_relation (parent child : WorldObject) : list nat :=
  relation_indices child (operands_of parent) 0.

(** [World.remove_operand(operation, operand)]: the operation loses its
    edges to the operand, wherever the operation is referenced. *)
Definition remove_operand (w : World) (operation operand : WorldObject)
  : World :=
  match operation with
  | Operation k ops =>
      replace w operation
        (Operation k (filter (fun o => negb (WorldObject_eqb o operand)) ops))
  | _ => w
  end.

Fixpoint insert_at (i : nat) (x : WorldObject) (l : list WorldObject)
  : list WorldObject :=
  match i, l with
  | O, _ => x :: l
  | S i', y :: l' => y :: insert_at i' x l'
  | S _, [] => [x]
  end.

(** [World.add_operand(operation, operand, index)] *)
Definition add_operand (w : World) (operation operand : WorldObject)
           (index : nat) : World :=
  match operation with
  | Operation k ops => replace w operation (Operation k (insert_at index operand ops))
  | _ => w
  end.

(** Rewrites the definition of [v] in place. *)
Definition redefine (w : World) (v : WorldObject)
           (f : WorldObject -> WorldObject) : World :=
  mkWorld (ident w)
          (map (fun d => if WorldObject_eqb v (fst d) then (fst d, f (snd d)) else d)
               (definitions w))
          (counter w).

(** Modelled from the spec: [World.substitute(old, new)], which puts the
    variable [new] in the place of the variable [old], definition
    included. *)
Definition substitute (w : World) (old new : WorldObject) : World :=
  mkWorld (ident w)
          (map (fun d => (if WorldObject_eqb (fst d) old then new else fst d,
                          subst old new (snd d)))
               (definitions w))
          (counter w).

Section Engine.

(** The rewrite passes of the term-graph engine, as functions on the term
    a variable is defined as: the generic simplifier
    ([Variable.simplify]) and the passes to conjunctive and disjunctive
    normal form ([ToCnfVisitor], [ToDnfVisitor]). *)
Variable simplify_term : WorldObject -> WorldObject.
Variable to_cnf_term : WorldObject -> WorldObject.
Variable to_dnf_term : WorldObject -> WorldObject.

Definition simplify_variable (w : World) (v : WorldObject) : World :=
  redefine w v simplify_term.

Definition ToCnfVisitor (w : World) (v : WorldObject) : World :=
  redefine w v to_cnf_term.

Definition ToDnfVisitor (w : World) (v : WorldObject) : World :=
  redefine w v to_dnf_term.

(** [CustomLogicCondition.does_imply] *)
Definition does_imply (w : World) (self other : CustomLogicCondition)
  : World * bool :=
  let (w1, tmp_condition) :=
    init w (bitwise_or [_custom_negate (_condition w self); _condition w other])
         false in
  let w2 := free_world_condition w1 (_variable tmp_condition) in
  let w3 := simplify_variable w2 (_variable tmp_condition) in
  let does_imply_value := is_true w3 tmp_condition in
  (cleanup w3 [_variable tmp_condition], does_imply_value).

(** Modelled from the spec: [ConditionInterface.is_equivalent_to], of
    logic_interface.py: mutual implication both ways. *)
Definition is_equivalent_to (w : World) (self other : CustomLogicCondition)
  : World * bool :=
  let (w1, b1) := does_imply w self other in
  if b1 then does_imply w1 other self else (w1, false).

(** [CustomLogicCondition.to_cnf] *)
Definition to_cnf (w : World) (self : CustomLogicCondition)
  : World * CustomLogicCondition :=
  if is_cnf_form w self then (w, self)
  else
    let w1 := free_world_condition w (_variable self) in
    (ToCnfVisitor w1 (_variable self), self).

(** [CustomLogicCondition.to_dnf] *)
Definition to_dnf (w : World) (self : CustomLogicCondition)
  : World * CustomLogicCondition :=
  let (w1, dnf_form) := copy w self in
  let w2 := free_world_condition w1 (_variable dnf_form) in
  (ToDnfVisitor w2 (_variable dnf_form), dnf_form).

(** [CustomLogicCondition.simplify] *)
Definition simplify (w : World) (self : CustomLogicCondition)
  : World * CustomLogicCondition :=
  if is_Variable (_variable self) then
    let w1 := free_world_condition w (_variable self) in
    (simplify_variable w1 (_variable self), self)
  else
    let new_var := variable "Simplify" 1 in
    let w1 := define w new_var (_condition w self) in
    let w2 := free_world_condition w1 new_var in
    let w3 := simplify_variable w2 new_var in
    let (w4, v) := new_variable w3 1 true in
    (substitute w4 new_var v, mkCondition v (context self)).

(** [CustomLogicCondition._get_operands]; a node is a bit vector (variable
    or constant) or an operation, so the assertion of the source holds. *)
Definition _get_operands (w : World) (self : CustomLogicCondition) (tmp : bool)
  : World * list CustomLogicCondition :=
  match _condition w self with
  | Var _ _ | Constant _ _ => (w, [])
  | Operation _ ops =>
      fold_left
        (fun acc operand =>
           let (w', h) := init (fst acc) operand tmp in (w', snd acc ++ [h]))
        ops (w, [])
  end.

Definition operands (w : World) (self : CustomLogicCondition)
  : World * list CustomLogicCondition :=
  _get_operands w self false.

(** [CustomLogicCondition._replace_condition_by_true] *)
Definition _replace_condition_by_true (w : World) (self : CustomLogicCondition)
  : World * CustomLogicCondition :=
  if is_symbol w self then
    let (w1, v) := new_variable w (size_of (_condition w self)) false in
    let w2 := define w1 v (constant 1 1) in
    (cleanup w2 [], mkCondition v (context self))
  else
    let w1 := replace w (_condition w self) (constant 1 1) in
    (cleanup w1 [], self).

(** The body of the loop of [_replace_subexpressions_by_true]. *)
Definition replace_step (self : CustomLogicCondition) (w : World)
           (pair : CustomLogicCondition * CustomLogicCondition) : World :=
  let (sub_expr_1, sub_expr_2) := pair in
  let (w1, equivalent) := is_equivalent_to w sub_expr_1 sub_expr_2 in
  if equivalent then
    let sink := _condition w1 sub_expr_2 in
    let relations := get_relation (_condition w1 self) sink in
    fold_left (fun w' _ => remove_operand w' (_condition w' self) sink)
              relations w1
  else w1.

(** [CustomLogicCondition._replace_subexpressions_by_true] *)
Definition _replace_subexpressions_by_true (w : World)
           (self : CustomLogicCondition)
           (subexpressions : list CustomLogicCondition) : World :=
  let (w1, ops) := operands w self in
  fold_left (replace_step self) (list_prod subexpressions ops) w1.

(** [CustomLogicCondition.substitute_by_true]; the handle is returned
    with the world since [_replace_condition_by_true] may rebind it. *)
Definition substitute_by_true (w : World) (self condition : CustomLogicCondition)
  : Result (World * CustomLogicCondition) :=
  if negb (Nat.eqb (context self) (context condition)) then Raise AssertionError
  else
    let (w1, proven) :=
      if is_true w self then (w, false)
      else if is_equal_to w self condition then (w, true)
      else does_imply w condition self in
    if proven then Ok (_replace_condition_by_true w1 self)
    else
      let (w2, self) := to_cnf w1 self in
      if is_true w2 self || is_false w2 self || is_negation w2 self
         || is_symbol w2 self
      then Ok (w2, self)
      else
        let (w3, condition_operands) := _get_operands w2 condition false in
        let (w4, operands) := _get_operands w3 self false in
        let numb_of_arg_expr :=
          if is_conjunction w4 self then List.length operands else 1%nat in
        let numb_of_arg_cond :=
          if is_conjunction w4 condition then List.length condition_operands
          else 1%nat in
        if Nat.leb numb_of_arg_expr numb_of_arg_cond
        then Ok (cleanup w4 [], self)
        else
          let subexpressions :=
            if Nat.eqb numb_of_arg_cond 1 then [condition]
            else condition_operands in
          let w5 := _replace_subexpressions_by_true w4 self subexpressions in
          let to_remove :=
            map _variable
                (filter (fun cond =>
                           negb (WorldObject_eqb (_variable cond)
                                                 (_condition w5 cond)))
                        (condition_operands ++ operands)) in
          Ok (cleanup w5 to_remove, self).

End Engine.

(** ** Pseudo-code expressions and the condition registry *)

(** [pseudo.OperationType], the comparisons. *)
Inductive OperationType : Type :=
| equal | not_equal
| less | less_or_equal | greater | greater_or_equal
| less_us | less_or_equal_us | greater_us | greater_or_equal_us.

(** Modelled from the spec: the pseudo-expression model, a variable with its
    SSA-qualified name, a constant with its signed value and bit width, and
    any other expression with the variables it requires; [repr] is the
    expression's string form. *)
Inductive Expression : Type :=
| PVariable (repr : string) (ssa_name : string) (size : N)
| PConstant (value : Z) (size : N)
| PExpression (repr : string) (requirements : list string) (size : N).

(** [pseudo.Condition]: an operation over a left and a right operand. *)
Record Condition : Type := mkRealCondition {
  operation : OperationType;
  left : Expression;
  right : Expression
}.

Definition type_size (e : Expression) : N :=
  match e with
  | PVariable _ _ s => s
  | PConstant _ s => s
  | PExpression _ _ s => s
  end.

Definition is_pseudo_Constant (e : Expression) : bool :=
  match e with PConstant _ _ => true | _ => false end.

(** The string of a Python list of strings, as [str] prints it. *)
Definition str_list (l : list string) : string :=
  ("[" ++ String.concat ", " (map (fun x => "'" ++ x ++ "'") l) ++ "]")%string.

Definition str_Z (z : Z) : string :=
  match z with
  | Z0 => "0"
  | Zpos p => NilZero.string_of_uint (Pos.to_uint p)
  | Zneg p => ("-" ++ NilZero.string_of_uint (Pos.to_uint p))%string
  end.

Definition str_Expression (e : Expression) : string :=
  match e with
  | PVariable r _ _ => r
  | PConstant v _ => str_Z v
  | PExpression r _ _ => r
  end.

(** [CustomLogicCondition._variable_name_for] *)
Definition _variable_name_for (expression : Expression) : string :=
  match expression with
  | PVariable r ssa _ => (r ++ "," ++ ssa)%string
  | PConstant _ _ => (str_Expression expression ++ "," ++ str_list [])%string
  | PExpression r reqs _ => (r ++ "," ++ str_list reqs)%string
  end.

(** [CustomLogicCondition.OPERAND_MAPPING], keyed by the operation whose
    [SYMBOL] is the key of the source. *)
Definition OPERAND_MAPPING (k : OperationKind) : option OperationType :=
  match k with
  | BoolEqual => Some equal
  | BoolUnequal => Some not_equal
  | SignedLe => Some less_or_equal
  | UnsignedLe => Some less_or_equal_us
  | SignedGt => Some greater
  | UnsignedGt => Some greater_us
  | SignedLt => Some less
  | UnsignedLt => Some less_us
  | SignedGe => Some greater_or_equal
  | UnsignedGe => Some greater_or_equal_us
  | BitwiseAnd | BitwiseOr | BitwiseNegate => None
  end.

(** [PseudoCustomLogicCondition.SHORTHAND] *)
Definition SHORTHAND (o : OperationType) (a b : WorldObject) : WorldObject :=
  match o with
  | equal => Operation BoolEqual [a; b]
  | not_equal => Operation BoolUnequal [a; b]
  | less => Operation SignedLt [a; b]
  | less_or_equal => Operation SignedLe [a; b]
  | greater => Operation SignedGt [a; b]
  | greater_or_equal => Operation SignedGe [a; b]
  | greater_us => Operation UnsignedGt [a; b]
  | less_us => Operation UnsignedLt [a; b]
  | greater_or_equal_us => Operation UnsignedGe [a; b]
  | less_or_equal_us => Operation UnsignedLe [a; b]
  end.

(** [PseudoCustomLogicCondition._convert_expression] *)
Definition _convert_expression (expression : Expression) (bit_vec_size : N)
  : WorldObject :=
  match expression with
  | PConstant value _ => constant value bit_vec_size
  | _ => variable (_variable_name_for expression) bit_vec_size
  end.

(** [PseudoCustomLogicCondition._get_custom_condition_of]; the second
    component tells whether the warning about different sizes is logged. *)
Definition _get_custom_condition_of (condition : Condition)
  : WorldObject * bool :=
  let warning :=
    negb (N.eqb (type_size (left condition)) (type_size (right condition))) in
  let bit_vec_size :=
    N.max (N.max (type_size (left condition)) (type_size (right condition))) 1 in
  let operand_1 := _convert_expression (left condition) bit_vec_size in
  let operand_2 := _convert_expression (right condition) bit_vec_size in
  (SHORTHAND (operation condition) operand_1 operand_2, warning).

(** [PseudoCustomLogicCondition.initialize_from_condition] *)
Definition initialize_from_condition (w : World) (condition : Condition)
  : World * CustomLogicCondition :=
  init w (fst (_get_custom_condition_of condition)) false.

(** [PseudoCustomLogicCondition.initialize_from_conditions_or] *)
Definition initialize_from_conditions_or (w : World) (conditions : list Condition)
  : World * CustomLogicCondition :=
  init w (bitwise_or (map (fun c => fst (_get_custom_condition_of c)) conditions))
       false.

(** Modelled from the spec: the condition registry ([ConditionHandler], of
    condition_symbol.py): the symbols it knows, in the order of their
    registration, and the real condition of a symbol ([conditionOf]), by the
    variable of the symbol. *)
Record ConditionHandler : Type := mkConditionHandler {
  symbols : list CustomLogicCondition;
  conditionOf : WorldObject -> Condition
}.

(** Modelled from the spec: [conditionOf(symbol)]. *)
Definition get_condition_of (handler : ConditionHandler)
           (s : CustomLogicCondition) : Condition :=
  conditionOf handler (_variable s).

(** Modelled from the spec: [encodingOf(symbol)], the comparison of the
    symbol lowered to the graph, dereferenced. *)
Definition get_z3_condition_of (handler : ConditionHandler)
           (s : CustomLogicCondition) : WorldObject :=
  fst (_get_custom_condition_of (conditionOf handler (_variable s))).

(** Modelled from the spec: [allEncodings()]. *)
Definition get_z3_condition_map (handler : ConditionHandler)
  : list (CustomLogicCondition * WorldObject) :=
  map (fun s => (s, get_z3_condition_of handler s)) (symbols handler).

(** Modelled from the spec: [addCondition(RealCondition)], which registers
    the condition and returns a fresh symbol. *)
Definition add_condition (w : World) (handler : ConditionHandler)
           (c : Condition) : World * ConditionHandler * CustomLogicCondition :=
  let (w1, v) := new_variable w 1 false in
  let s := mkCondition v (ident w) in
  (w1,
   mkConditionHandler
     (symbols handler ++ [s])
     (fun x => if WorldObject_eqb x v then c else conditionOf handler x),
   s).

(** ** Redundancy removal *)

(** Modelled from the spec: the negation of a comparison node
    ([Operation.negate]) is the complementary comparison. *)
Definition negate (c : WorldObject) : WorldObject :=
  match c with
  | Operation BoolEqual ops => Operation BoolUnequal ops
  | Operation BoolUnequal ops => Operation BoolEqual ops
  | Operation SignedLe ops => Operation SignedGt ops
  | Operation SignedGt ops => Operation SignedLe ops
  | Operation SignedLt ops => Operation SignedGe ops
  | Operation SignedGe ops => Operation SignedLt ops
  | Operation UnsignedLe ops => Operation UnsignedGt ops
  | Operation UnsignedGt ops => Operation UnsignedLe ops
  | Operation UnsignedLt ops => Operation UnsignedGe ops
  | Operation UnsignedGe ops => Operation UnsignedLt ops
  | _ => _custom_negate c
  end.

(** [Constant.signed] *)
Definition signed (unsigned size : N) : Z :=
  if (size =? 0) || (unsigned <? 2 ^ (size - 1)) then Z.of_N unsigned
  else (Z.of_N unsigned - 2 ^ Z.of_N size)%Z.

(** All the nodes of a term, the term first. *)
Fixpoint subterms (t : WorldObject) : list WorldObject :=
  t :: match t with
       | Operation _ ops => flat_map subterms ops
       | _ => []
       end.

(** [World.parent_operation]: the operations that have [c] as an operand. *)
Definition parent_operation (w : World) (c : WorldObject) : list WorldObject :=
  dedup (filter (fun n => existsb (WorldObject_eqb c) (operands_of n))
                (flat_map (fun d => subterms (snd d)) (definitions w))).

Definition mem (c : WorldObject) (l : list WorldObject) : bool :=
  existsb (WorldObject_eqb c) l.

(** [CustomLogicCondition._get_symbols] *)
Definition _get_symbols (w : World) (c : WorldObject) : list WorldObject :=
  filter (_is_symbol w) (iter_postorder w c).

(** [CustomLogicCondition.get_symbols] *)
Definition get_symbols (w : World) (self : CustomLogicCondition)
  : list CustomLogicCondition :=
  map (fun s => mkCondition s (context self)) (_get_symbols w (_condition w self)).

(** The dictionary [compared_expressions], keyed by the name of the
    variable; the newest assignment of a key comes first. *)
Definition ComparedExpressions : Type := list (string * Expression).

Definition compared (ce : ComparedExpressions) (op : WorldObject)
  : option Expression :=
  match op with
  | Var (Named n) _ =>
      match find (fun e => String.eqb n (fst e)) ce with
      | Some e => Some (snd e)
      | None => None
      end
  | _ => None
  end.

(** An edit of a node of an un-shared condition.  [free_world_condition]
    made the nodes [nodes] of the condition private to it, so the edit shows
    in the definitions of the variables among [nodes] and in no other. *)
Definition replace_within (nodes : list WorldObject) (w : World)
           (old new : WorldObject) : World :=
  mkWorld (ident w)
          (map (fun d => if mem (fst d) nodes
                         then (fst d, subst old new (snd d)) else d)
               (definitions w))
          (counter w).

(** [World.remove_operand] on a node of an un-shared condition. *)
Definition remove_operand_within (nodes : list WorldObject) (w : World)
           (operation operand : WorldObject) : World :=
  match operation with
  | Operation k ops =>
      replace_within nodes w operation
        (Operation k (filter (fun o => negb (WorldObject_eqb o operand)) ops))
  | _ => w
  end.

(** [World.add_operand] on a node of an un-shared condition. *)
Definition add_operand_within (nodes : list WorldObject) (w : World)
           (operation operand : WorldObject) (index : nat) : World :=
  match operation with
  | Operation k ops =>
      replace_within nodes w operation (Operation k (insert_at index operand ops))
  | _ => w
  end.

(** One pass of the inner loop of [_replace_symbol]: the edge of [parent] to
    the symbol at [index] is removed and an edge to the real condition is put
    in its place; the state holds the node [parent] has become. *)
Definition replace_edge (nodes : list WorldObject)
           (world_symbol world_condition : WorldObject)
           (st : World * WorldObject) (index : nat) : World * WorldObject :=
  let (w, parent) := st in
  match parent with
  | Operation k ops =>
      let removed :=
        Operation k (filter (fun o => negb (WorldObject_eqb o world_symbol)) ops) in
      let w1 := remove_operand_within nodes w parent world_symbol in
      let w2 := add_operand_within nodes w1 removed world_condition index in
      (w2, Operation k (insert_at index world_condition (operands_of removed)))
  | _ => st
  end.

(** [CustomLogicCondition._replace_symbol]; the parents are nodes of the
    un-shared copy ([condition_nodes]), and [track] maps a node of the list
    of parents to the node the edits so far have made of it. *)
Definition _replace_symbol (w : World) (world_symbol world_condition : WorldObject)
           (condition_nodes : list WorldObject)
  : World * (WorldObject -> WorldObject) :=
  let parents :=
    filter (fun p => mem p condition_nodes) (parent_operation w world_symbol) in
  fold_left
    (fun (st : World * (WorldObject -> WorldObject)) parent0 =>
       let (w', track) := st in
       let parent := track parent0 in
       let (w'', parent') :=
         fold_left (replace_edge condition_nodes world_symbol world_condition)
                   (get_relation parent world_symbol) (w', parent) in
       (w'', fun t => subst parent parent' (track t)))
    parents (w, fun t => t).

(** The entries a real condition adds to [compared_expressions]. *)
Definition compare_operands (pseudo_condition : Condition)
           (ce : ComparedExpressions) : ComparedExpressions :=
  fold_left
    (fun ce operand =>
       if is_pseudo_Constant operand then ce
       else (_variable_name_for operand, operand) :: ce)
    [left pseudo_condition; right pseudo_condition] ce.

(** The body of the loop of [_replace_symbols_by_real_conditions]. *)
Definition replace_symbol_step (handler : ConditionHandler)
           (st : World * ComparedExpressions * list WorldObject)
           (s : CustomLogicCondition)
  : World * ComparedExpressions * list WorldObject :=
  let '(w', ce, nodes) := st in
  let pseudo_condition := get_condition_of handler s in
  let compared_expressions := compare_operands pseudo_condition ce in
  let world_condition := get_z3_condition_of handler s in
  let (w'', track) :=
    _replace_symbol w' (_condition w' s) world_condition nodes in
  (w'', compared_expressions, map track nodes).

(** [CustomLogicCondition._replace_symbols_by_real_conditions]; the symbols
    of [get_symbols] are those of the formula before the loop, and the nodes
    of [condition_nodes] are followed through the edits. *)
Definition _replace_symbols_by_real_conditions (w : World)
           (self : CustomLogicCondition) (handler : ConditionHandler)
  : World * CustomLogicCondition * ComparedExpressions :=
  let (w1, copied_condition) := init w (_condition w self) false in
  let w2 := free_world_condition w1 (_variable copied_condition) in
  let condition_nodes := iter_postorder w2 (_variable copied_condition) in
  let st :=
    fold_left (replace_symbol_step handler) (get_symbols w2 self)
              (w2, [], condition_nodes) in
  (fst (fst st), copied_condition, snd (fst st)).

(** The dictionary [replacement_dict]: assigning an existing key keeps its
    place and changes its value. *)
Fixpoint dict_set (k v : WorldObject) (d : list (WorldObject * WorldObject))
  : list (WorldObject * WorldObject) :=
  match d with
  | [] => [(k, v)]
  | (k', v') :: d' =>
      if WorldObject_eqb k k' then (k', v) :: d' else (k', v') :: dict_set k v d'
  end.

(** The pseudo operands of a comparison that matches no registered
    condition. *)
Fixpoint new_operands_of (ce : ComparedExpressions) (ops : list WorldObject)
  : Result (list Expression) :=
  match ops with
  | [] => Ok []
  | op :: ops' =>
      e <- match compared ce op with
           | Some e => Ok e
           | None =>
               match op with
               | Constant u sz => Ok (PConstant (signed u sz) sz)
               | _ => Raise AssertionError
               end
           end ;;
      rest <- new_operands_of ce ops' ;;
      Ok (e :: rest)
  end.

(** The [for ... else] over [replacement_dict]: the replacement of the first
    registered condition that matches the operand or its negation. *)
Fixpoint find_replacement (d : list (WorldObject * WorldObject))
         (operand negated_operand : WorldObject) : option WorldObject :=
  match d with
  | [] => None
  | (c, sym) :: d' =>
      if compare c operand then Some sym
      else if compare c negated_operand then Some (bitwise_negate sym)
      else find_replacement d' operand negated_operand
  end.

Record ReplaceState : Type := mkReplaceState {
  rs_world : World;
  rs_handler : ConditionHandler;
  rs_track : WorldObject -> WorldObject
}.

(** The body of the loop of [_replace_real_conditions_by_symbols].  The
    operand is a node of the real condition, which [remove_redundancy] has
    un-shared before it is simplified, so [World.replace] of the operand
    shows in the definitions of the nodes of the real condition ([nodes]) and
    in no other; a comparison has two operands. *)
Definition replace_real_condition (nodes : list WorldObject)
           (ce : ComparedExpressions)
           (replacement_dict : list (WorldObject * WorldObject))
           (acc : Result ReplaceState) (operand0 : WorldObject)
  : Result ReplaceState :=
  st <- acc ;;
  let operand := rs_track st operand0 in
  let negated_operand := negate operand in
  match find_replacement replacement_dict operand negated_operand with
  | Some r =>
      Ok (mkReplaceState (replace_within nodes (rs_world st) operand r)
                         (rs_handler st)
                         (fun t => subst operand r (rs_track st t)))
  | None =>
      new_operands <- new_operands_of ce (operands_of operand) ;;
      match OPERAND_MAPPING (match operand with
                             | Operation k _ => k
                             | _ => BitwiseAnd
                             end), new_operands with
      | Some o, [l; r] =>
          let '(w1, handler1, condition_symbol) :=
            add_condition (rs_world st) (rs_handler st) (mkRealCondition o l r) in
          let r := _condition w1 condition_symbol in
          Ok (mkReplaceState (replace_within nodes w1 operand r) handler1
                             (fun t => subst operand r (rs_track st t)))
      | None, _ => Raise KeyError
      | _, _ => Raise IndexError
      end
  end.

(** The dictionary [replacement_dict] of
    [_replace_real_conditions_by_symbols]. *)
Definition replacement_dict_of (w : World)
           (compared_expressions : ComparedExpressions)
           (handler : ConditionHandler) : list (WorldObject * WorldObject) :=
  fold_left
    (fun d (e : CustomLogicCondition * WorldObject) =>
       if existsb (fun operand =>
                     match compared compared_expressions operand with
                     | Some _ => true
                     | None => false
                     end)
                  (operands_of (snd e))
       then dict_set (snd e) (_condition w (fst e)) d
       else d)
    (get_z3_condition_map handler) [].

(** [CustomLogicCondition._replace_real_conditions_by_symbols] *)
Definition _replace_real_conditions_by_symbols (w : World)
           (real_condition : CustomLogicCondition)
           (compared_expressions : ComparedExpressions)
           (handler : ConditionHandler) : Result (World * ConditionHandler) :=
  let nodes := iter_postorder w (_variable real_condition) in
  let non_logic_operands :=
    filter (fun node =>
              match node with
              | Operation k _ => is_comparison k
              | _ => false
              end)
           nodes in
  let replacement_dict := replacement_dict_of w compared_expressions handler in
  st <- fold_left
          (replace_real_condition nodes compared_expressions replacement_dict)
          non_logic_operands
          (Ok (mkReplaceState w handler (fun t => t))) ;;
  Ok (rs_world st, rs_handler st).

Section Redundancy.

Variable simplify_term : WorldObject -> WorldObject.

(** [CustomLogicCondition.remove_redundancy] *)
Definition remove_redundancy (w : World) (self : CustomLogicCondition)
           (condition_handler : ConditionHandler)
  : Result (World * ConditionHandler * CustomLogicCondition) :=
  if is_literal w self || is_true w self || is_false w self
  then Ok (w, condition_handler, self)
  else if negb (is_Operation (_condition w self)) then Raise AssertionError
  else
    let '(w1, real_condition, compared_expressions) :=
      _replace_symbols_by_real_conditions w self condition_handler in
    let w2 := free_world_condition w1 (_variable real_condition) in
    let (w3, real_condition) := simplify simplify_term w2 real_condition in
    r' <- _replace_real_conditions_by_symbols w3 real_condition
                                              compared_expressions
                                              condition_handler ;;
    let (w4, handler') := r' in
    let w5 := replace w4 (_condition w4 self) (_condition w4 real_condition) in
    Ok (cleanup w5 [], handler', self).

End Redundancy.

(** ** The n-ary constructors *)

(** The term graphs of a run, by their identity. *)
Definition Worlds : Type := nat -> World.

(** Modelled from the spec: building an operation in the graph [world] over
    operands that belong to another term graph fails with
    [MismatchedGraph]. *)
Definition world_operation (world : nat) (k : OperationKind)
           (ops : list (nat * WorldObject)) : Result WorldObject :=
  if forallb (fun o => Nat.eqb (fst o) world) ops
  then Ok (Operation k (map snd ops))
  else Raise MismatchedGraph.

Definition clause_conditions (worlds : Worlds) (clauses : list CustomLogicCondition)
  : list (nat * WorldObject) :=
  map (fun clause => (context clause, _condition (worlds (context clause)) clause))
      clauses.

(** [CustomLogicCondition.disjunction_of] *)
Definition disjunction_of (worlds : Worlds) (clauses : list CustomLogicCondition)
  : Result (World * CustomLogicCondition) :=
  match clauses with
  | [] => Raise IndexError
  | first :: _ =>
      let world := context first in
      node <- world_operation world BitwiseOr (clause_conditions worlds clauses) ;;
      Ok (init (worlds world) node false)
  end.

(** [CustomLogicCondition.conjunction_of] *)
Definition conjunction_of (worlds : Worlds) (clauses : list CustomLogicCondition)
  : Result (World * CustomLogicCondition) :=
  match clauses with
  | [] => Raise IndexError
  | first :: _ =>
      let world := context first in
      node <- world_operation world BitwiseAnd (clause_conditions worlds clauses) ;;
      Ok (init (worlds world) node false)
  end.

(** [CustomLogicCondition.__len__] *)
Definition __len__ (w : World) (self : CustomLogicCondition) : nat :=
  if is_Variable (_condition w self) then 1%nat
  else
    fold_left
      (fun count node =>
         match node with
         | Operation _ ops => (count + List.length (filter is_Variable ops))%nat
         | _ => count
         end)
      (iter_postorder w (_condition w self)) 0%nat.

(** ** Well-formed graphs *)

(** The names [new_variable] will hand out are not in use: no generated
    variable numbered from the counter on is defined or occurs in a
    definition. *)
Fixpoint below (n : N) (t : WorldObject) : bool :=
  match t with
  | Var (Generated m _) _ => m <? n
  | Var (Named _) _ => true
  | Constant _ _ => true
  | Operation _ ops => forallb (below n) ops
  end.

Definition world_ok (w : World) : bool :=
  forallb (fun d => below (counter w) (fst d) && below (counter w) (snd d))
          (definitions w).

(** The graph after [new_variable], and the variable it hands out. *)
Definition advance (w : World) : World :=
  mkWorld (ident w) (definitions w) (counter w + 1).

Definition fresh (w : World) (tmp : bool) (size : N) : WorldObject :=
  Var (Generated (counter w) tmp) size.

(** A handle of the graph [w]: its variable is not one [new_variable] is
    still to hand out. *)
Definition handle_ok (w : World) (h : CustomLogicCondition) : bool :=
  below (counter w) (_variable h).

(** The test of [is_true] on a node. *)
Definition true_constant (c : WorldObject) : bool :=
  match c with
  | Constant unsigned _ => negb (N.eqb unsigned 0)
  | _ => false
  end.

(** The temporary of [does_imply]: [NOT(a) OR b]. *)
Definition implication (a b : WorldObject) : WorldObject :=
  bitwise_or [_custom_negate a; b].

(** ** A small engine, to run the algorithms on examples *)

(** Rewrites [NOT(a) OR a] to true, [x < 10 AND x == 5] over 32 bits to
    [x == 5], and nothing else. *)
Definition sample_simplify (t : WorldObject) : WorldObject :=
  match t with
  | Operation BitwiseOr [Operation BitwiseNegate [a]; b] =>
      if WorldObject_eqb a b then Constant 1 1 else t
  | Operation BitwiseAnd
      [Operation SignedLt [x; c]; Operation BoolEqual [y; d]] =>
      if WorldObject_eqb x y && WorldObject_eqb c (Constant 10 32)
         && WorldObject_eqb d (Constant 5 32)
      then Operation BoolEqual [y; d] else t
  | _ => t
  end.

(** Distributes the top-level operation of [AND(OR(a, b), c)] and of
    [OR(AND(a, b), c)], and nothing else. *)
Definition sample_to_dnf (t : WorldObject) : WorldObject :=
  match t with
  | Operation BitwiseAnd [Operation BitwiseOr [a; b]; c] =>
      Operation BitwiseOr [Operation BitwiseAnd [a; c]; Operation BitwiseAnd [b; c]]
  | _ => t
  end.

Definition sample_to_cnf (t : WorldObject) : WorldObject :=
  match t with
  | Operation BitwiseOr [Operation BitwiseAnd [a; b]; c] =>
      Operation BitwiseAnd [Operation BitwiseOr [a; c]; Operation BitwiseOr [b; c]]
  | _ => t
  end.

(** The formula of the handle is not a variable that has a definition of
    its own. *)
Definition dereferenced (w : World) (h : CustomLogicCondition) : bool :=
  negb (is_BaseVariable (_condition w h)) ||
  match get_definition w (_condition w h) with None => true | Some _ => false end.

(** A formula handle: a bare symbol, or a variable defined as an
    expression. *)
Definition is_formula (w : World) (h : CustomLogicCondition) : bool :=
  _is_symbol w (_variable h) ||
  match get_definition w (_variable h) with Some _ => true | None => false end.

(** The test of [is_false] on a node. *)
Definition false_constant (c : WorldObject) : bool :=
  match c with
  | Constant unsigned _ => N.eqb unsigned 0
  | _ => false
  end.

(** The test of [is_cnf_form] on a node. *)
Definition cnf_term (w : World) (c : WorldObject) : bool :=
  if true_constant c || false_constant c || _is_disjunction_of_literals w c
  then true
  else is_kind BitwiseAnd c &&
       forallb (_is_disjunction_of_literals w) (operands_of c).

(** A formula over symbols: symbols and constants under AND, OR and NOT. *)
Fixpoint symbolic (w : World) (t : WorldObject) : bool :=
  match t with
  | Var _ _ => _is_symbol w t
  | Constant _ _ => true
  | Operation k ops => negb (is_comparison k) && forallb (symbolic w) ops
  end.

(** ** A pass to conjunctive normal form *)

Definition literal (positive : bool) (atom : WorldObject) : WorldObject :=
  if positive then atom else bitwise_negate atom.

(** The clauses of the disjunction of two conjunctions of clauses. *)
Definition distribute (a b : list (list WorldObject)) : list (list WorldObject) :=
  flat_map (fun x => map (fun y => x ++ y) b) a.

(** The clauses of the conjunctive normal form of [t], or of its negation. *)
Fixpoint clauses (positive : bool) (t : WorldObject) : list (list WorldObject) :=
  match t with
  | Var _ _ => [[literal positive t]]
  | Constant unsigned _ =>
      if Bool.eqb positive (negb (N.eqb unsigned 0)) then [] else [[]]
  | Operation BitwiseNegate ops =>
      match ops with
      | operand :: _ => clauses (negb positive) operand
      | [] => []
      end
  | Operation BitwiseAnd ops =>
      if positive then flat_map (clauses true) ops
      else fold_right (fun o acc => distribute (clauses false o) acc) [[]] ops
  | Operation BitwiseOr ops =>
      if positive
      then fold_right (fun o acc => distribute (clauses true o) acc) [[]] ops
      else flat_map (clauses false) ops
  | Operation _ _ => [[literal positive t]]
  end.

Definition clause_term (c : list WorldObject) : WorldObject :=
  match c with
  | [l] => l
  | _ => bitwise_or c
  end.

Definition is_nil (c : list WorldObject) : bool :=
  match c with [] => true | _ => false end.

(** A rewrite of a formula to conjunctive normal form: negations are pushed
    to the atoms and disjunctions distributed over conjunctions. *)
Definition cnf_pass (t : WorldObject) : WorldObject :=
  let cs := clauses true t in
  if existsb is_nil cs then Constant 0 1
  else match cs with
       | [] => Constant 1 1
       | [c] => clause_term c
       | _ => bitwise_and (map clause_term cs)
       end.

(** A node that, when it is a variable, has no definition. *)
Definition operand_ok (w : World) (o : WorldObject) : bool :=
  negb (is_BaseVariable o) ||
  match get_definition w o with None => true | Some _ => false end.

(** No conjunction occurs in the node. *)
Fixpoint conjunction_free (t : WorldObject) : bool :=
  match t with
  | Operation k ops =>
      negb (OperationKind_eqb k BitwiseAnd) && forallb conjunction_free ops
  | _ => true
  end.

(** A clause of a formula: it holds no conjunction, and when it is a
    variable the variable has no definition. *)
Definition clause_ok (w : World) (o : WorldObject) : bool :=
  conjunction_free o && operand_ok w o.

Section Equivalence.

Variable simplify_term : WorldObject -> WorldObject.

(** The answers of [does_imply] and [is_equivalent_to] on two nodes. *)
Definition implies (a b : WorldObject) : bool :=
  true_constant (simplify_term (implication a b)).

Definition equivalent (a b : WorldObject) : bool :=
  implies a b && implies b a.

End Equivalence.

(** The number of top-level conjuncts of a formula. *)
Definition clause_count (c : WorldObject) : nat :=
  if is_kind BitwiseAnd c then List.length (operands_of c) else 1%nat.

(** The step of the loop of [_get_operands]. *)
Definition wrap_step (tmp : bool) (acc : World * list CustomLogicCondition)
           (operand : WorldObject) : World * list CustomLogicCondition :=
  let (w', h) := init (fst acc) operand tmp in (w', snd acc ++ [h]).

(** The operands without the node [o]. *)
Definition without (o : WorldObject) (ops : list WorldObject) : list WorldObject :=
  filter (fun x => negb (WorldObject_eqb x o)) ops.

Section Surviving.

Variable simplify_term : WorldObject -> WorldObject.

(** The clauses the loop of [_replace_subexpressions_by_true] leaves,
    for the formulas [tm] of the handles. *)
Definition surviving (tm : CustomLogicCondition -> WorldObject)
           (pairs : list (CustomLogicCondition * CustomLogicCondition))
           (ops : list WorldObject) : list WorldObject :=
  fold_left
    (fun ops ps =>
       if equivalent simplify_term (tm (fst ps)) (tm (snd ps))
       then without (tm (snd ps)) ops else ops)
    pairs ops.

(** The clauses of [ops] that are equivalent to none of [proven]. *)
Definition unproven (proven ops : list WorldObject) : list WorldObject :=
  filter (fun clause =>
            negb (existsb (fun p => equivalent simplify_term p clause) proven))
         ops.

End Surviving.

(** ** The numeric step of the simplifier *)

(** The value of a comparison of two constants of a width. *)
Definition compare_values (k : OperationKind) (a b size : N) : bool :=
  match k with
  | BoolEqual => N.eqb a b
  | BoolUnequal => negb (N.eqb a b)
  | SignedLt => Z.ltb (signed a size) (signed b size)
  | SignedLe => Z.leb (signed a size) (signed b size)
  | SignedGt => Z.ltb (signed b size) (signed a size)
  | SignedGe => Z.leb (signed b size) (signed a size)
  | UnsignedLt => N.ltb a b
  | UnsignedLe => N.leb a b
  | UnsignedGt => N.ltb b a
  | UnsignedGe => N.leb b a
  | BitwiseAnd | BitwiseOr | BitwiseNegate => false
  end.

(** The variable and the value of an equality [x == value]. *)
Definition equality_of (o : WorldObject) : option (WorldObject * N) :=
  match o with
  | Operation BoolEqual [Var n s; Constant u _] => Some (Var n s, u)
  | _ => None
  end.

Fixpoint find_equality (ops : list WorldObject) : option (WorldObject * N) :=
  match ops with
  | [] => None
  | o :: ops' =>
      match equality_of o with
      | Some e => Some e
      | None => find_equality ops'
      end
  end.

(** The value, when [x] is [u], of a comparison of [x] with a constant. *)
Definition decided (x : WorldObject) (u : N) (o : WorldObject) : option bool :=
  match o with
  | Operation k [v; Constant u' size] =>
      if WorldObject_eqb v x && is_comparison k
      then Some (compare_values k u u' size) else None
  | _ => None
  end.

(** Modelled from the spec: the numeric step of the generic simplifier
    ([x < 10 AND x == 5] becomes [x == 5]).  In a conjunction that holds an
    equality [x == u], a comparison of [x] with a constant that is true at
    [u] is dropped, one that is false at [u] makes the conjunction false, and
    a conjunction of one operand is that operand; any other formula is left
    as it is. *)
Definition numeric_simplify (t : WorldObject) : WorldObject :=
  match t with
  | Operation BitwiseAnd ops =>
      match find_equality ops with
      | Some (x, u) =>
          if existsb (fun o => match decided x u o with
                               | Some false => true
                               | _ => false
                               end) ops
          then Constant 0 1
          else
            match filter (fun o => match decided x u o, equality_of o with
                                   | Some true, None => false
                                   | _, _ => true
                                   end) ops with
            | [o] => o
            | ops' => Operation BitwiseAnd ops'
            end
      | None => t
      end
  | _ => t
  end.

(** ** The example of the switch case: [x < 10] and [x == 5] *)

Definition empty_world : World := mkWorld 0 [] 0.

Definition switch_x : Expression := PVariable "x" "x#0" 32.

Definition switch_less : Condition :=
  mkRealCondition less switch_x (PConstant 10 32).

Definition switch_equal : Condition :=
  mkRealCondition equal switch_x (PConstant 5 32).

Definition switch_x1 : CustomLogicCondition :=
  snd (initialize_symbol empty_world "x1").

Definition switch_x2 : CustomLogicCondition :=
  snd (initialize_symbol empty_world "x2").

(** The graph and the handle of [x1 & x2]. *)
Definition switch_world : World := fst (__and__ empty_world switch_x1 switch_x2).

Definition switch_formula : CustomLogicCondition :=
  snd (__and__ empty_world switch_x1 switch_x2).

Definition switch_registry : ConditionHandler :=
  mkConditionHandler
    [switch_x1; switch_x2]
    (fun v => if WorldObject_eqb v (_variable switch_x1)
              then switch_less else switch_equal).

(** ** Sample formulas over the symbols [a], [b] and [c] *)

Definition sample_a : WorldObject := variable "a" 1.
Definition sample_b : WorldObject := variable "b" 1.
Definition sample_c : WorldObject := variable "c" 1.

(** [a & b & c] *)
Definition conjunction_world : World :=
  fst (init empty_world (bitwise_and [sample_a; sample_b; sample_c]) false).

Definition conjunction_formula : CustomLogicCondition :=
  snd (init empty_world (bitwise_and [sample_a; sample_b; sample_c]) false).

(** [(a | b) & c] *)
Definition distributed_world : World :=
  fst (init empty_world (bitwise_and [bitwise_or [sample_a; sample_b]; sample_c])
            false).

Definition distributed_formula : CustomLogicCondition :=
  snd (init empty_world (bitwise_and [bitwise_or [sample_a; sample_b]; sample_c])
            false).

(** [(a & b) | c] *)
Definition disjunction_world : World :=
  fst (init empty_world (bitwise_or [bitwise_and [sample_a; sample_b]; sample_c])
            false).

Definition disjunction_formula : CustomLogicCondition :=
  snd (init empty_world (bitwise_or [bitwise_and [sample_a; sample_b]; sample_c])
            false).

(** ** Literals of a formula *)

(** The literals of the children of a node, in their order. *)
Definition collect (f : WorldObject -> Result (list WorldObject))
  : list WorldObject -> Result (list WorldObject) :=
  fix children (l : list WorldObject) : Result (list WorldObject) :=
    match l with
    | [] => Ok []
    | child :: l' =>
        first <- f child ;;
        rest <- children l' ;;
        Ok (first ++ rest)
    end.

(** [CustomLogicCondition._get_literals]; the assertion of the source fails
    on a node that is neither a literal, nor AND, OR or NOT, nor a one-bit
    constant. *)
Fixpoint _get_literals (w : World) (condition : WorldObject)
  : Result (list WorldObject) :=
  if _is_literal w condition then Ok [condition]
  else
    match condition with
    | Operation k ops =>
        if is_comparison k then Raise AssertionError
        else collect (_get_literals w) ops
    | Constant _ size => if N.eqb size 1 then Ok [] else Raise AssertionError
    | Var _ _ => Raise AssertionError
    end.

(** [CustomLogicCondition.get_literals] *)
Definition get_literals (w : World) (self : CustomLogicCondition)
  : Result (World * list CustomLogicCondition) :=
  literals <- _get_literals w (_condition w self) ;;
  Ok (fold_left (wrap_step false) literals (w, [])).

(** A formula [_get_literals] accepts: literals and one-bit constants under
    AND, OR and NOT. *)
Fixpoint literal_formula (w : World) (t : WorldObject) : bool :=
  _is_literal w t ||
  match t with
  | Operation k ops => negb (is_comparison k) && forallb (literal_formula w) ops
  | Constant _ size => N.eqb size 1
  | Var _ _ => false
  end.

(** The definitions of the graph bind variables. *)
Definition keys_ok (w : World) : bool :=
  forallb (fun d : WorldObject * WorldObject => is_BaseVariable (fst d))
          (definitions w).

(** The graph [w] with the new variable [v] defined as [t]. *)
Definition copy_world (w : World) (v t : WorldObject) : World :=
  mkWorld (ident w) ((v, t) :: definitions w) (counter w + 1).

(** ** The conditions of the switch case over any expression *)

(** The comparison of a real condition lowered to the graph. *)
Definition encoding (c : Condition) : WorldObject :=
  fst (_get_custom_condition_of c).

(** The real conditions [x < 10] and [x == 5], the constants of the type of
    [x]. *)
Definition less_than_ten (x : Expression) : Condition :=
  mkRealCondition less x (PConstant 10 (type_size x)).

Definition equal_to_five (x : Expression) : Condition :=
  mkRealCondition equal x (PConstant 5 (type_size x)).

(** ** A formula that holds a comparison: [x < 10] *)

Definition comparison_world : World :=
  fst (initialize_from_condition empty_world switch_less).

Definition comparison_formula : CustomLogicCondition :=
  snd (initialize_from_condition empty_world switch_less).

(** * Properties *)

Unset Implicit Arguments.

(** ** Induction on nodes *)

Section WorldObject_induction.

Variable P : WorldObject -> Prop.
Hypothesis P_Var : forall n s, P (Var n s).
Hypothesis P_Constant : forall u s, P (Constant u s).
Hypothesis P_Operation : forall k ops, Forall P ops -> P (Operation k ops).

Fixpoint WorldObject_rect' (c : WorldObject) : P c :=
  match c with
  | Var n s => P_Var n s
  | Constant u s => P_Constant u s
  | Operation k ops =>
      P_Operation k ops
        ((fix all (l : list WorldObject) : Forall P l :=
            match l with
            | [] => Forall_nil P
            | x :: l' => Forall_cons x (WorldObject_rect' x) (all l')
            end) ops)
  end.

End WorldObject_induction.

(** ** Node identity and structural comparison *)

Lemma VarName_eqb_eq (a b : VarName) : VarName_eqb a b = true <-> a = b.
Proof.
  destruct a as [s|n t], b as [s'|n' t']; simpl; try (split; discriminate).
  - rewrite String.eqb_eq. split; congruence.
  - rewrite andb_true_iff, N.eqb_eq, Bool.eqb_true_iff. split.
    + intros [-> ->]; reflexivity.
    + intros H; inversion H; auto.
Qed.

Lemma OperationKind_eqb_eq (a b : OperationKind) :
  OperationKind_eqb a b = true <-> a = b.
Proof. destruct a, b; simpl; split; congruence. Qed.

Lemma WorldObject_eqb_eq (a b : WorldObject) : WorldObject_eqb a b = true <-> a = b.
Proof.
  revert b. induction a as [n s|u s|k ops IH] using WorldObject_rect'; intros b.
  - destruct b; simpl; try (split; discriminate).
    rewrite andb_true_iff, VarName_eqb_eq, N.eqb_eq.
    split; [intros [-> ->]; reflexivity | intros H; inversion H; auto].
  - destruct b; simpl; try (split; discriminate).
    rewrite andb_true_iff, !N.eqb_eq.
    split; [intros [-> ->]; reflexivity | intros H; inversion H; auto].
  - destruct b as [| |k' ops']; simpl; try (split; discriminate).
    rewrite andb_true_iff, OperationKind_eqb_eq.
    assert (Hops : (fix all2 (xs ys : list WorldObject) {struct xs} : bool :=
                      match xs, ys with
                      | [], [] => true
                      | x :: xs', y :: ys' => WorldObject_eqb x y && all2 xs' ys'
                      | _, _ => false
                      end) ops ops' = true <-> ops = ops').
    { clear k k'. revert ops'. induction IH as [|x xs Hx _ IHxs]; intros [|y ys];
        try (split; (discriminate || reflexivity)).
      rewrite andb_true_iff, Hx, IHxs.
      split; [intros [-> ->]; reflexivity | intros H; inversion H; auto]. }
    rewrite Hops.
    split; [intros [-> ->]; reflexivity | intros H; inversion H; auto].
Qed.

Lemma WorldObject_eqb_refl (a : WorldObject) : WorldObject_eqb a a = true.
Proof. apply WorldObject_eqb_eq; reflexivity. Qed.

Lemma WorldObject_eqb_neq (a b : WorldObject) :
  WorldObject_eqb a b = false <-> a <> b.
Proof.
  rewrite <- WorldObject_eqb_eq. destruct (WorldObject_eqb a b); split; congruence.
Qed.

Lemma WorldObject_eqb_sym (a b : WorldObject) :
  WorldObject_eqb a b = WorldObject_eqb b a.
Proof.
  destruct (WorldObject_eqb a b) eqn:E.
  - apply WorldObject_eqb_eq in E. subst. symmetry. apply WorldObject_eqb_refl.
  - symmetry. apply WorldObject_eqb_neq. apply WorldObject_eqb_neq in E. congruence.
Qed.

Lemma compare_refl (a : WorldObject) : compare a a = true.
Proof.
  induction a as [n s|u s|k ops IH] using WorldObject_rect'; simpl.
  - rewrite N.eqb_refl, andb_true_r. apply VarName_eqb_eq; reflexivity.
  - rewrite !N.eqb_refl; reflexivity.
  - replace (OperationKind_eqb k k) with true
      by (symmetry; apply OperationKind_eqb_eq; reflexivity).
    simpl. destruct (commutative k).
    + induction IH as [|x xs Hx _ IHxs]; [reflexivity|].
      simpl. rewrite Hx. exact IHxs.
    + induction IH as [|x xs Hx _ IHxs]; [reflexivity|].
      rewrite Hx. exact IHxs.
Qed.

#[local] Arguments WorldObject_eqb : simpl never.
#[local] Arguments compare : simpl never.

(** ** Definitions of a graph *)

Lemma lookup_unbind_same (v : WorldObject) ds : lookup v (unbind v ds) = None.
Proof.
  induction ds as [|[k t] ds IH]; simpl; [reflexivity|].
  destruct (WorldObject_eqb v k) eqn:E; [exact IH|]. simpl. rewrite E. exact IH.
Qed.

Lemma lookup_unbind_other (u v : WorldObject) ds :
  u <> v -> lookup u (unbind v ds) = lookup u ds.
Proof.
  intros Hne. induction ds as [|[k t] ds IH]; simpl; [reflexivity|].
  destruct (WorldObject_eqb v k) eqn:E.
  - apply WorldObject_eqb_eq in E. subst k.
    apply WorldObject_eqb_neq in Hne. rewrite Hne. exact IH.
  - simpl. rewrite IH. reflexivity.
Qed.

Lemma get_definition_define_same (w : World) (v t : WorldObject) :
  get_definition (define w v t) v = Some t.
Proof. unfold get_definition, define; simpl. rewrite WorldObject_eqb_refl. reflexivity. Qed.

Lemma get_definition_define_other (w : World) (u v t : WorldObject) :
  u <> v -> get_definition (define w v t) u = get_definition w u.
Proof.
  intros Hne. unfold get_definition, define; simpl.
  pose proof Hne as Hne'. apply WorldObject_eqb_neq in Hne'. rewrite Hne'.
  apply lookup_unbind_other; exact Hne.
Qed.

Lemma below_generated (n : N) (v : WorldObject) (tmp : bool) (size : N) :
  below n v = true -> v <> Var (Generated n tmp) size.
Proof.
  intros Hb ->. simpl in Hb. apply N.ltb_lt in Hb. lia.
Qed.

Lemma below_mono (n m : N) (t : WorldObject) :
  n <= m -> below n t = true -> below m t = true.
Proof.
  intros Hle. induction t as [[s|k tmp] sz|u sz|k ops IH] using WorldObject_rect';
    simpl; auto.
  - intros H. apply N.ltb_lt in H. apply N.ltb_lt. lia.
  - rewrite !forallb_forall. rewrite Forall_forall in IH. auto.
Qed.

(** ** Classification of constants *)

(** C10: a handle is true exactly when its dereferenced condition is a
    constant whose unsigned value is not zero, whatever the width of the
    constant, and false exactly when it is a constant of value zero; the two
    exclude each other, one of them holds of every constant, and neither
    holds of a condition that is not a constant. *)
Theorem is_true_is_false_of_constants (w : World) (self : CustomLogicCondition) :
  (is_true w self = true <->
   exists unsigned size, _condition w self = Constant unsigned size /\ unsigned <> 0) /\
  (is_false w self = true <->
   exists size, _condition w self = Constant 0 size) /\
  is_true w self && is_false w self = false /\
  is_true w self || is_false w self = is_Constant (_condition w self).
Proof.
  unfold is_true, is_false.
  destruct (_condition w self) as [n s|u s|k ops]; simpl.
  - repeat split; try discriminate; intros (? & H); try destruct H as (? & H & _);
      discriminate.
  - repeat split.
    + intros H. exists u, s. split; [reflexivity|].
      intros ->. discriminate.
    + intros (u' & s' & Heq & Hne). inversion Heq; subst.
      apply N.eqb_neq in Hne. rewrite Hne. reflexivity.
    + intros H. apply N.eqb_eq in H. subst. exists s. reflexivity.
    + intros (s' & Heq). inversion Heq. reflexivity.
    + destruct (u =? 0); reflexivity.
    + destruct (u =? 0); reflexivity.
  - repeat split; try discriminate; intros (? & H); try destruct H as (? & H & _);
      discriminate.
Qed.

(** ** Handles and their conditions *)

Lemma init_wraps (w : World) (c : WorldObject) (tmp : bool) :
  is_Variable c = false ->
  init w c tmp =
  (define (advance w) (fresh w tmp (size_of c)) c,
   mkCondition (fresh w tmp (size_of c)) (ident w)).
Proof. intros H. unfold init. rewrite H. reflexivity. Qed.

Lemma init_reuses (w : World) (c : WorldObject) (tmp : bool) :
  is_Variable c = true -> init w c tmp = (w, mkCondition c (ident w)).
Proof. intros H. unfold init. rewrite H. reflexivity. Qed.

Lemma condition_define_other (w : World) (self : CustomLogicCondition)
      (v t : WorldObject) :
  _variable self <> v -> _condition (define w v t) self = _condition w self.
Proof.
  intros H. unfold _condition. rewrite get_definition_define_other by exact H.
  reflexivity.
Qed.

Lemma condition_define_same (w : World) (v t : WorldObject) (i : nat) :
  _condition (define w v t) (mkCondition v i) = t.
Proof. unfold _condition; simpl. rewrite get_definition_define_same. reflexivity. Qed.

Lemma condition_advance (w : World) (self : CustomLogicCondition) :
  _condition (advance w) self = _condition w self.
Proof. reflexivity. Qed.

Lemma lookup_below (n : N) (v t : WorldObject) ds :
  forallb (fun d => below n (fst d) && below n (snd d)) ds = true ->
  lookup v ds = Some t -> below n t = true.
Proof.
  induction ds as [|[k t'] ds IH]; simpl; [discriminate|].
  rewrite !andb_true_iff. intros [[_ Ht] Hds].
  destruct (WorldObject_eqb v k); [intros H; inversion H; subst; exact Ht|].
  apply IH; exact Hds.
Qed.

Lemma condition_below (w : World) (self : CustomLogicCondition) :
  world_ok w = true -> handle_ok w self = true ->
  below (counter w) (_condition w self) = true.
Proof.
  intros Hw Hv. unfold _condition, get_definition.
  destruct (lookup (_variable self) (definitions w)) eqn:E; [|exact Hv].
  eapply lookup_below; eauto.
Qed.

Lemma is_symbol_undefined (w : World) (c : WorldObject) :
  _is_symbol w c = true -> is_Variable c = true /\ get_definition w c = None.
Proof.
  unfold _is_symbol. rewrite !andb_true_iff. intros [[Hv _] Hd].
  split; [exact Hv|]. destruct (get_definition w c); [discriminate|reflexivity].
Qed.

(** ** Double negation *)

(** C7: the negation of a formula that is a negation is the operand of
    that negation, not a new negation around it; so for a symbol and for a
    compound formula (an operation that is not itself a negation) the
    negation of the negation is a handle whose formula is the formula of
    [x], structurally equal to [x]. *)
Theorem double_negation (w : World) (x : CustomLogicCondition) :
  world_ok w = true ->
  handle_ok w x = true ->
  is_symbol w x = true \/
  (is_Operation (_condition w x) = true /\ is_negation w x = false) ->
  let (w1, not_x) := __invert__ w x in
  let (w2, not_not_x) := __invert__ w1 not_x in
  _condition w1 not_x = bitwise_negate (_condition w x) /\
  __invert__ w1 not_x = init w1 (_condition w x) false /\
  _condition w2 not_not_x = _condition w x /\
  is_equal_to w2 not_not_x x = true.
Proof.
  intros Hw Hv Hx.
  pose proof (condition_below w x Hw Hv) as Hc.
  set (c := _condition w x) in *.
  assert (Hneg : _custom_negate c = bitwise_negate c).
  { destruct Hx as [Hs | [Ho Hn]].
    - apply is_symbol_undefined in Hs. fold c in Hs. destruct Hs as [Hs _].
      destruct c; try discriminate. reflexivity.
    - unfold is_negation in Hn. fold c in Hn.
      destruct c as [| |[] ops]; try discriminate; reflexivity. }
  unfold __invert__ at 1. fold c. rewrite Hneg.
  rewrite init_wraps by reflexivity.
  set (v0 := fresh w false (size_of (bitwise_negate c))).
  set (w1 := define (advance w) v0 (bitwise_negate c)).
  assert (Hx1 : _condition w1 x = c).
  { unfold w1. rewrite condition_define_other; [reflexivity|].
    apply below_generated; exact Hv. }
  assert (Hn1 : _condition w1 (mkCondition v0 (ident w)) = bitwise_negate c)
    by apply condition_define_same.
  unfold __invert__. rewrite Hn1. simpl _custom_negate.
  destruct Hx as [Hs | [Ho Hn]].
  - apply is_symbol_undefined in Hs. fold c in Hs. destruct Hs as [Hvar Hdef].
    rewrite init_reuses by exact Hvar.
    assert (Hc1 : _condition w1 (mkCondition c (ident w1)) = c).
    { unfold _condition; simpl. unfold w1.
      rewrite get_definition_define_other
        by (apply below_generated; exact Hc).
      change (get_definition (advance w) c) with (get_definition w c).
      rewrite Hdef. reflexivity. }
    repeat split; auto.
    unfold is_equal_to. rewrite Hc1, Hx1. apply compare_refl.
  - assert (Hvar : is_Variable c = false) by (destruct c; try discriminate; reflexivity).
    rewrite init_wraps by exact Hvar.
    set (v1 := fresh w1 false (size_of c)).
    assert (Hx2 : _condition (define (advance w1) v1 c) x = c).
    { rewrite condition_define_other; [exact Hx1|].
      apply below_generated. unfold w1; simpl.
      eapply below_mono; [|exact Hv]. lia. }
    repeat split; auto.
    + apply condition_define_same.
    + unfold is_equal_to. rewrite condition_define_same, Hx2. apply compare_refl.
Qed.

(** ** Fresh variables *)

Lemma below_not_occurs (n : N) (tmp : bool) (size : N) (t : WorldObject) :
  below n t = true -> occurs (Var (Generated n tmp) size) t = false.
Proof.
  induction t as [[s|k b] sz|u sz|k ops IH] using WorldObject_rect'; simpl; auto.
  - intros H. apply N.ltb_lt in H. rewrite orb_false_r.
    apply WorldObject_eqb_neq. intros E. inversion E. lia.
  - replace (WorldObject_eqb (Operation k ops) (Var (Generated n tmp) size))
      with false by reflexivity.
    simpl. induction IH as [|o ops Ho _ IHops]; [reflexivity|].
    simpl. rewrite andb_true_iff. intros [H1 H2].
    rewrite Ho by exact H1. apply IHops; exact H2.
Qed.

Lemma unbind_fresh (n : N) (v : WorldObject) ds :
  forallb (fun d => below n (fst d) && below n (snd d)) ds = true ->
  below n v = false -> unbind v ds = ds.
Proof.
  intros Hds Hv. induction ds as [|[k t] ds IH]; simpl; [reflexivity|].
  simpl in Hds. rewrite !andb_true_iff in Hds. destruct Hds as [[Hk _] Hds].
  destruct (WorldObject_eqb v k) eqn:E.
  - apply WorldObject_eqb_eq in E. congruence.
  - rewrite IH by exact Hds. reflexivity.
Qed.

Lemma map_redefine_fresh (n : N) (v : WorldObject) f ds :
  forallb (fun d => below n (fst d) && below n (snd d)) ds = true ->
  below n v = false ->
  map (fun d : WorldObject * WorldObject =>
         if WorldObject_eqb v (fst d) then (fst d, f (snd d)) else d) ds = ds.
Proof.
  intros Hds Hv. induction ds as [|[k t] ds IH]; simpl; [reflexivity|].
  simpl in Hds. rewrite !andb_true_iff in Hds. destruct Hds as [[Hk _] Hds].
  destruct (WorldObject_eqb v k) eqn:E.
  - apply WorldObject_eqb_eq in E. congruence.
  - rewrite IH by exact Hds. reflexivity.
Qed.

Lemma no_parent_fresh (n : N) (tmp : bool) (size : N) ds :
  forallb (fun d => below n (fst d) && below n (snd d)) ds = true ->
  existsb (fun d : WorldObject * WorldObject =>
             negb (WorldObject_eqb (snd d) (Var (Generated n tmp) size)) &&
             occurs (Var (Generated n tmp) size) (snd d)) ds = false.
Proof.
  induction ds as [|[k t] ds IH]; simpl; [reflexivity|].
  rewrite !andb_true_iff. intros [[_ Ht] Hds].
  rewrite (below_not_occurs n tmp size t Ht), andb_false_r. apply IH; exact Hds.
Qed.

Lemma fresh_not_below (w : World) (tmp : bool) (size : N) :
  below (counter w) (fresh w tmp size) = false.
Proof. simpl. apply N.ltb_ge. lia. Qed.

Lemma custom_negate_below (n : N) (c : WorldObject) :
  below n c = true -> below n (_custom_negate c) = true.
Proof.
  destruct c as [| |[] [|o ops]]; simpl; intros H; rewrite ?H; auto.
  rewrite andb_true_iff in H. tauto.
Qed.

Lemma world_ok_advance (w : World) : world_ok w = true -> world_ok (advance w) = true.
Proof.
  unfold world_ok; simpl. rewrite !forallb_forall. intros H d Hd.
  specialize (H d Hd). rewrite andb_true_iff in *. destruct H as [H1 H2].
  split; eapply below_mono; eauto; lia.
Qed.

Lemma cleanup_fresh (w : World) (n : N) (tmp : bool) (size : N)
      (t : WorldObject) ds :
  definitions w = (Var (Generated n tmp) size, t) :: ds ->
  forallb (fun d => below n (fst d) && below n (snd d)) ds = true ->
  below n t = true ->
  cleanup w [Var (Generated n tmp) size] = mkWorld (ident w) ds (counter w).
Proof.
  intros Hdefs Hds Ht. unfold cleanup. cbn [fold_left is_BaseVariable andb].
  unfold has_parent. rewrite Hdefs. cbn [existsb snd].
  rewrite (below_not_occurs n tmp size t Ht), andb_false_r.
  rewrite (no_parent_fresh n tmp size ds Hds).
  cbn [orb negb unbind]. rewrite WorldObject_eqb_refl.
  rewrite (unbind_fresh n _ ds Hds) by (simpl; apply N.ltb_ge; lia).
  reflexivity.
Qed.

(** ** Implication *)

Section Implication.

Variable simplify_term : WorldObject -> WorldObject.

(** The simplifier introduces no variable the graph has not handed out. *)
Hypothesis simplify_below :
  forall n t, below n t = true -> below n (simplify_term t) = true.

(** The run of [does_imply], for a temporary [t] built over the graph. *)
Lemma temporary_reclaimed (w : World) (t : WorldObject) :
  world_ok w = true -> below (counter w) t = true -> is_Variable t = false ->
  let (w1, tmp_condition) := init w t false in
  let w3 := simplify_variable simplify_term w1 (_variable tmp_condition) in
  is_true w3 tmp_condition = true_constant (simplify_term t) /\
  cleanup w3 [_variable tmp_condition] = advance w.
Proof.
  intros Hw Ht Hv. rewrite init_wraps by exact Hv. simpl _variable.
  set (v := fresh w false (size_of t)).
  pose proof (fresh_not_below w false (size_of t)) as Hfresh. fold v in Hfresh.
  assert (Hdefs : definitions
                    (simplify_variable simplify_term (define (advance w) v t) v)
                  = (v, simplify_term t) :: definitions w).
  { unfold simplify_variable, redefine, define; simpl.
    rewrite WorldObject_eqb_refl; simpl.
    rewrite (unbind_fresh (counter w) v _ Hw Hfresh).
    rewrite (map_redefine_fresh (counter w) v _ _ Hw Hfresh). reflexivity. }
  split.
  - unfold is_true, _condition, get_definition. rewrite Hdefs; simpl.
    rewrite WorldObject_eqb_refl. reflexivity.
  - subst v. unfold fresh in *.
    rewrite (cleanup_fresh _ (counter w) false (size_of t) (simplify_term t)
                           (definitions w) Hdefs Hw (simplify_below _ _ Ht)).
    reflexivity.
Qed.

Lemma does_imply_run (w : World) (self other : CustomLogicCondition) :
  world_ok w = true -> handle_ok w self = true -> handle_ok w other = true ->
  does_imply simplify_term w self other =
  (advance w,
   true_constant
     (simplify_term (implication (_condition w self) (_condition w other)))).
Proof.
  intros Hw Hs Ho.
  assert (Ht : below (counter w)
                     (implication (_condition w self) (_condition w other)) = true).
  { simpl. rewrite custom_negate_below by (apply condition_below; assumption).
    rewrite condition_below by assumption. reflexivity. }
  pose proof (temporary_reclaimed w _ Hw Ht eq_refl) as H.
  unfold does_imply, free_world_condition.
  fold (implication (_condition w self) (_condition w other)).
  destruct (init w (implication (_condition w self) (_condition w other)) false)
    as [w1 tmp_condition].
  destruct H as [H1 H2]. rewrite H1, H2. reflexivity.
Qed.

(** C6: [does_imply] builds [NOT(self) OR other] as a temporary, runs
    the simplifier on it and answers whether the result is a true
    constant; whatever the answer, the graph it leaves has the definitions
    it had before the call: the temporary is reclaimed. *)
Theorem does_imply_reclaims_temporary (w : World)
        (self other : CustomLogicCondition) :
  world_ok w = true -> handle_ok w self = true -> handle_ok w other = true ->
  snd (does_imply simplify_term w self other) =
    true_constant
      (simplify_term (implication (_condition w self) (_condition w other))) /\
  definitions (fst (does_imply simplify_term w self other)) = definitions w /\
  ident (fst (does_imply simplify_term w self other)) = ident w /\
  (forall v, get_definition (fst (does_imply simplify_term w self other)) v
             = get_definition w v).
Proof.
  intros Hw Hs Ho. rewrite does_imply_run by assumption.
  repeat split; reflexivity.
Qed.

End Implication.

(** ** Redundancy removal of a literal or constant *)

(** C9: on a formula that is a literal, the true constant or the false
    constant, [remove_redundancy] returns the handle it was given and leaves
    the formula, the term graph and the registry as they were. *)
Theorem remove_redundancy_skips_literals
        (simplify_term : WorldObject -> WorldObject) (w : World)
        (self : CustomLogicCondition) (condition_handler : ConditionHandler) :
  is_literal w self = true \/ is_true w self = true \/ is_false w self = true ->
  remove_redundancy simplify_term w self condition_handler
  = Ok (w, condition_handler, self).
Proof.
  intros H. unfold remove_redundancy.
  replace (is_literal w self || is_true w self || is_false w self) with true;
    [reflexivity|].
  symmetry. rewrite !orb_true_iff. tauto.
Qed.

(** ** The n-ary constructors *)

Lemma world_operation_mismatch (world : nat) (k : OperationKind)
      (ops : list (nat * WorldObject)) (o : nat * WorldObject) :
  In o ops -> fst o <> world -> world_operation world k ops = Raise MismatchedGraph.
Proof.
  intros Hin Hne. unfold world_operation.
  destruct (forallb (fun o0 => Nat.eqb (fst o0) world) ops) eqn:E; [|reflexivity].
  rewrite forallb_forall in E. specialize (E o Hin).
  apply Nat.eqb_eq in E. contradiction.
Qed.

(** C8: [conjunction_of] and [disjunction_of] fail on an empty list of
    clauses, and fail with [MismatchedGraph] when a clause belongs to
    another term graph than the first. *)
Theorem n_ary_constructors_fail (worlds : Worlds)
        (clauses : list CustomLogicCondition) :
  (clauses = [] ->
   conjunction_of worlds clauses = Raise IndexError /\
   disjunction_of worlds clauses = Raise IndexError) /\
  (forall first other,
      hd_error clauses = Some first -> In other clauses ->
      context other <> context first ->
      conjunction_of worlds clauses = Raise MismatchedGraph /\
      disjunction_of worlds clauses = Raise MismatchedGraph).
Proof.
  split.
  - intros ->. split; reflexivity.
  - intros first other Hhd Hin Hne.
    destruct clauses as [|c rest]; [discriminate|].
    simpl in Hhd. inversion Hhd; subst c.
    assert (Hop : forall k,
               world_operation (context first) k
                               (clause_conditions worlds (first :: rest))
               = Raise MismatchedGraph).
    { intros k.
      apply (world_operation_mismatch _ _ _
               (context other, _condition (worlds (context other)) other)).
      - unfold clause_conditions.
        apply (in_map (fun clause =>
                         (context clause,
                          _condition (worlds (context clause)) clause))).
        exact Hin.
      - exact Hne. }
    unfold conjunction_of, disjunction_of. rewrite !Hop. split; reflexivity.
Qed.

(** ** Disjunctive normal form *)

Lemma redefine_unbound (v : WorldObject) f ds :
  lookup v ds = None ->
  map (fun d : WorldObject * WorldObject =>
         if WorldObject_eqb v (fst d) then (fst d, f (snd d)) else d) ds = ds.
Proof.
  induction ds as [|[k t] ds IH]; simpl; [reflexivity|].
  destruct (WorldObject_eqb v k); [discriminate|].
  intros H. rewrite IH by exact H. reflexivity.
Qed.

Lemma redefine_undefined (w : World) (v : WorldObject) f :
  get_definition w v = None -> redefine w v f = w.
Proof.
  intros H. unfold redefine. rewrite redefine_unbound by exact H.
  destruct w; reflexivity.
Qed.

Lemma definitions_redefine_define (w : World) (v t : WorldObject) f :
  definitions (redefine (define w v t) v f) = (v, f t) :: unbind v (definitions w).
Proof.
  unfold redefine, define. cbn [definitions map fst snd].
  rewrite WorldObject_eqb_refl.
  rewrite redefine_unbound by apply lookup_unbind_same. reflexivity.
Qed.

Lemma condition_redefine_define_same (w : World) (v t : WorldObject) f (i : nat) :
  _condition (redefine (define w v t) v f) (mkCondition v i) = f t.
Proof.
  unfold _condition, get_definition. rewrite definitions_redefine_define.
  cbn [_variable lookup]. rewrite WorldObject_eqb_refl. reflexivity.
Qed.

Lemma condition_redefine_define_other (w : World) (v t : WorldObject) f
      (h : CustomLogicCondition) :
  _variable h <> v ->
  _condition (redefine (define w v t) v f) h = _condition w h.
Proof.
  intros Hne. unfold _condition, get_definition.
  rewrite definitions_redefine_define. cbn [lookup].
  pose proof Hne as Hne'. apply WorldObject_eqb_neq in Hne'. rewrite Hne'.
  rewrite lookup_unbind_other by exact Hne. reflexivity.
Qed.

Section DisjunctiveNormalForm.

Variable to_dnf_term : WorldObject -> WorldObject.

(** C4, as the code has it: [to_dnf] rewrites a copy; every handle of
    the graph, [x] among them, has the formula it had; the handle returned
    is [x]'s bare variable when [x] is one and a new handle otherwise, whose
    formula is the disjunctive normal form the pass gives of [x]'s formula;
    and [is_equal_to] of the two is the comparison of the forms of the two
    formulas. *)
Theorem to_dnf_leaves_input (w : World) (x : CustomLogicCondition) :
  handle_ok w x = true -> dereferenced w x = true ->
  let (w', y) := to_dnf to_dnf_term w x in
  (forall h, handle_ok w h = true -> _condition w' h = _condition w h) /\
  _condition w' x = _condition w x /\
  _condition w' y =
    (if is_Variable (_condition w x) then _condition w x
     else to_dnf_term (_condition w x)) /\
  (is_Variable (_condition w x) = false -> handle_ok w y = false) /\
  is_equal_to w' x y = compare (_condition w x) (_condition w' y).
Proof.
  intros Hx Hd. unfold to_dnf, copy, free_world_condition, ToDnfVisitor.
  set (c := _condition w x) in *.
  destruct (is_Variable c) eqn:Hv.
  - rewrite init_reuses by exact Hv. cbn [_variable].
    assert (Hdef : get_definition w c = None).
    { unfold dereferenced in Hd. fold c in Hd.
      destruct c as [n s| |]; try discriminate. simpl in Hd.
      destruct (get_definition w (Var n s)); [discriminate|reflexivity]. }
    rewrite redefine_undefined by exact Hdef.
    assert (Hy : _condition w (mkCondition c (ident w)) = c).
    { unfold _condition; cbn [_variable]. rewrite Hdef. reflexivity. }
    repeat split; auto; try discriminate.
  - rewrite init_wraps by exact Hv. cbn [_variable].
    set (v := fresh w false (size_of c)).
    assert (Hold : forall h, handle_ok w h = true ->
                             _condition (redefine (define (advance w) v c) v
                                                  to_dnf_term) h
                             = _condition w h).
    { intros h Hh. rewrite condition_redefine_define_other; [reflexivity|].
      apply below_generated. exact Hh. }
    assert (Hy : _condition (redefine (define (advance w) v c) v to_dnf_term)
                            (mkCondition v (ident w)) = to_dnf_term c)
      by apply condition_redefine_define_same.
    repeat split; auto.
    + intros _. apply fresh_not_below.
    + unfold is_equal_to. rewrite Hy, Hold by exact Hx. reflexivity.
Qed.

End DisjunctiveNormalForm.

(** ** Substitution by true: the formula that is proven *)

Lemma subst_same (old new : WorldObject) : subst old new old = new.
Proof. destruct old; simpl; rewrite WorldObject_eqb_refl; reflexivity. Qed.

Lemma lookup_map_values (v : WorldObject) (g : WorldObject -> WorldObject) ds :
  lookup v (map (fun d : WorldObject * WorldObject => (fst d, g (snd d))) ds)
  = option_map g (lookup v ds).
Proof.
  induction ds as [|[k t] ds IH]; simpl; [reflexivity|].
  destruct (WorldObject_eqb v k); [reflexivity|exact IH].
Qed.

Lemma constant_true : constant 1 1 = Constant 1 1.
Proof. reflexivity. Qed.

Lemma replace_condition_by_true_run (w : World) (self : CustomLogicCondition) :
  is_formula w self = true ->
  let (w', self') := _replace_condition_by_true w self in
  _condition w' self' = Constant 1 1 /\
  (is_symbol w self = true ->
   self' = mkCondition (fresh w false (size_of (_condition w self))) (context self) /\
   w' = define (advance w) (_variable self') (Constant 1 1)) /\
  (is_symbol w self = false ->
   self' = self /\ w' = replace w (_condition w self) (Constant 1 1)).
Proof.
  intros Hf. unfold _replace_condition_by_true.
  destruct (is_symbol w self) eqn:Hs.
  - unfold new_variable, cleanup; cbn [fold_left].
    fold (advance w). fold (fresh w false (size_of (_condition w self))).
    rewrite constant_true. repeat split; try discriminate.
    apply condition_define_same.
  - unfold cleanup; cbn [fold_left]. rewrite constant_true.
    repeat split; try discriminate.
    unfold is_formula in Hf. unfold is_symbol in Hs.
    unfold _condition in *. unfold replace, get_definition in *.
    cbn [definitions]. rewrite lookup_map_values.
    destruct (lookup (_variable self) (definitions w)) as [t|] eqn:E.
    + simpl. rewrite subst_same. reflexivity.
    + rewrite Hs in Hf. discriminate.
Qed.

Section SubstituteProven.

Variable simplify_term : WorldObject -> WorldObject.
Variable to_cnf_term : WorldObject -> WorldObject.

Hypothesis simplify_below :
  forall n t, below n t = true -> below n (simplify_term t) = true.

(** C1: when [self] is not true and is structurally equal to
    [provenTrue] (as [self] itself is) or implied by it,
    [substitute_by_true] collapses [self] to the true constant.  A bare
    symbol is rebound: the handle returned holds a variable the graph had
    not handed out, defined as true, and every handle of the graph, the old
    symbol among them, keeps its formula.  Otherwise the handle is the same
    and the node of its formula is replaced by the true constant. *)
Theorem substitute_by_true_collapses (w : World)
        (self provenTrue : CustomLogicCondition) :
  world_ok w = true -> handle_ok w self = true -> handle_ok w provenTrue = true ->
  context self = context provenTrue ->
  is_formula w self = true ->
  is_true w self = false ->
  provenTrue = self \/ is_equal_to w self provenTrue = true \/
  snd (does_imply simplify_term w provenTrue self) = true ->
  exists w' self',
    substitute_by_true simplify_term to_cnf_term w self provenTrue
    = Ok (w', self') /\
    is_true w' self' = true /\
    _condition w' self' = Constant 1 1 /\
    (is_symbol w self = true ->
     handle_ok w self' = false /\
     get_definition w' (_variable self') = Some (Constant 1 1) /\
     is_symbol w' self = true /\
     forall h, handle_ok w h = true -> _condition w' h = _condition w h) /\
    (is_symbol w self = false ->
     self' = self /\
     definitions w' = definitions (replace w (_condition w self) (Constant 1 1))).
Proof.
  intros Hw Hs Hp Hctx Hf Ht Hproven.
  unfold substitute_by_true.
  rewrite Hctx, Nat.eqb_refl. cbn [negb]. rewrite Ht.
  assert (Hrun : exists w1,
             (if is_equal_to w self provenTrue then (w, true)
              else does_imply simplify_term w provenTrue self) = (w1, true) /\
             (w1 = w \/ w1 = advance w)).
  { destruct (is_equal_to w self provenTrue) eqn:E.
    - exists w. auto.
    - rewrite does_imply_run by assumption.
      exists (advance w). split; [|auto].
      destruct Hproven as [-> | [H | H]].
      + unfold is_equal_to in E. rewrite compare_refl in E. discriminate.
      + discriminate.
      + rewrite does_imply_run in H by assumption. cbn [snd] in H.
        rewrite H. reflexivity. }
  destruct Hrun as (w1 & -> & Hw1).
  assert (Hf1 : is_formula w1 self = true) by (destruct Hw1; subst; exact Hf).
  assert (Hc1 : _condition w1 self = _condition w self)
    by (destruct Hw1; subst; reflexivity).
  assert (Hs1 : is_symbol w1 self = is_symbol w self)
    by (destruct Hw1; subst; reflexivity).
  pose proof (replace_condition_by_true_run w1 self Hf1) as Hr.
  destruct (_replace_condition_by_true w1 self) as [w' self'].
  destruct Hr as (Hcond & Hsym & Hnot).
  exists w', self'. rewrite Hs1 in Hsym, Hnot. rewrite Hc1 in Hsym, Hnot.
  split; [reflexivity|]. split; [unfold is_true; rewrite Hcond; reflexivity|].
  split; [exact Hcond|]. split.
  - intros Hsy. destruct (Hsym Hsy) as [-> ->]. cbn [_variable].
    assert (Hfresh : forall h, handle_ok w h = true ->
                               _variable h
                               <> fresh w1 false (size_of (_condition w self))).
    { intros h Hh. apply below_generated.
      destruct Hw1; subst; [exact Hh|].
      eapply below_mono; [|exact Hh]. simpl. lia. }
    assert (Hkeep : forall h, handle_ok w h = true ->
               _condition (define (advance w1)
                                  (fresh w1 false (size_of (_condition w self)))
                                  (Constant 1 1)) h = _condition w h).
    { intros h Hh. rewrite condition_define_other by (apply Hfresh; exact Hh).
      destruct Hw1; subst; reflexivity. }
    repeat split.
    + unfold handle_ok. simpl. apply N.ltb_ge. destruct Hw1; subst; simpl; lia.
    + apply get_definition_define_same.
    + unfold is_symbol in *. rewrite Hkeep by exact Hs.
      pose proof (is_symbol_undefined w _ Hsy) as [Hv Hd].
      unfold _is_symbol in *.
      rewrite get_definition_define_other.
      * destruct Hw1; subst; exact Hsy.
      * apply below_generated.
        pose proof (condition_below w self Hw Hs) as Hb.
        destruct Hw1; subst; [exact Hb|].
        eapply below_mono; [|exact Hb]. simpl. lia.
    + exact Hkeep.
  - intros Hsy. destruct (Hnot Hsy) as [-> ->]. split; [reflexivity|].
    destruct Hw1; subst; reflexivity.
Qed.

End SubstituteProven.

(** ** Conjunctive normal form *)

Lemma is_cnf_form_term (w : World) (h : CustomLogicCondition) :
  is_cnf_form w h = cnf_term w (_condition w h).
Proof.
  unfold is_cnf_form, cnf_term, is_true, is_false, is_disjunction_of_literals,
    is_conjunction, true_constant, false_constant.
  destruct (_condition w h); reflexivity.
Qed.

Lemma lookup_redefine_none (v u : WorldObject) f ds :
  lookup u (map (fun d : WorldObject * WorldObject =>
                   if WorldObject_eqb v (fst d) then (fst d, f (snd d)) else d) ds)
  = match lookup u ds with
    | Some t => Some (if WorldObject_eqb v u then f t else t)
    | None => None
    end.
Proof.
  induction ds as [|[k t] ds IH]; simpl; [reflexivity|].
  destruct (WorldObject_eqb v k) eqn:Evk; simpl.
  - destruct (WorldObject_eqb u k) eqn:Euk; [|exact IH].
    apply WorldObject_eqb_eq in Evk, Euk. subst.
    rewrite WorldObject_eqb_refl. reflexivity.
  - destruct (WorldObject_eqb u k) eqn:Euk; [|exact IH].
    apply WorldObject_eqb_eq in Euk. subst. rewrite Evk. reflexivity.
Qed.

Lemma get_definition_redefine (w : World) (v u : WorldObject) f :
  get_definition (redefine w v f) u
  = match get_definition w u with
    | Some t => Some (if WorldObject_eqb v u then f t else t)
    | None => None
    end.
Proof. apply lookup_redefine_none. Qed.

Lemma is_symbol_redefine (w : World) (v : WorldObject) f (c : WorldObject) :
  _is_symbol (redefine w v f) c = _is_symbol w c.
Proof.
  unfold _is_symbol. rewrite get_definition_redefine.
  destruct (get_definition w c); reflexivity.
Qed.

Lemma is_literal_redefine (w : World) (v : WorldObject) f (c : WorldObject) :
  _is_literal (redefine w v f) c = _is_literal w c.
Proof.
  unfold _is_literal. rewrite is_symbol_redefine.
  destruct c as [| |[] [|o ops]]; try reflexivity.
  rewrite is_symbol_redefine. reflexivity.
Qed.

Lemma forallb_ext (f g : WorldObject -> bool) (l : list WorldObject) :
  (forall x, f x = g x) -> forallb f l = forallb g l.
Proof.
  intros H. induction l as [|x l IH]; simpl; [reflexivity|].
  rewrite H, IH. reflexivity.
Qed.

Lemma is_dol_redefine (w : World) (v : WorldObject) f (c : WorldObject) :
  _is_disjunction_of_literals (redefine w v f) c
  = _is_disjunction_of_literals w c.
Proof.
  unfold _is_disjunction_of_literals. rewrite is_literal_redefine.
  destruct (_is_literal w c); [reflexivity|].
  destruct c as [| |[] ops]; try reflexivity.
  apply forallb_ext. intros o; apply is_literal_redefine.
Qed.

Lemma cnf_term_redefine (w : World) (v : WorldObject) f (c : WorldObject) :
  cnf_term (redefine w v f) c = cnf_term w c.
Proof.
  unfold cnf_term. rewrite is_dol_redefine.
  destruct (true_constant c || false_constant c ||
            _is_disjunction_of_literals w c); [reflexivity|].
  f_equal. apply forallb_ext. intros o. apply is_dol_redefine.
Qed.

Lemma condition_redefine_same (w : World) (h : CustomLogicCondition) f :
  get_definition w (_variable h) <> None ->
  _condition (redefine w (_variable h) f) h = f (_condition w h).
Proof.
  intros Hd. unfold _condition. rewrite get_definition_redefine.
  destruct (get_definition w (_variable h)); [|contradiction].
  rewrite WorldObject_eqb_refl. reflexivity.
Qed.

Lemma condition_redefine_other (w : World) (v : WorldObject)
      (h : CustomLogicCondition) f :
  _variable h <> v -> _condition (redefine w v f) h = _condition w h.
Proof.
  intros Hne. unfold _condition. rewrite get_definition_redefine.
  destruct (get_definition w (_variable h)); [|reflexivity].
  replace (WorldObject_eqb v (_variable h)) with false; [reflexivity|].
  symmetry. apply WorldObject_eqb_neq. congruence.
Qed.

Section ConjunctiveNormalForm.

Variable to_cnf_term : WorldObject -> WorldObject.

(** C5, as the code has it: [to_cnf] returns the handle it was given and
    leaves the graph alone when the formula is in CNF form; otherwise the
    formula of the handle becomes what the pass makes of it.  [is_cnf_form]
    holds afterwards exactly when it held before or the result of the pass is
    a constant, a disjunction of literals (symbols and negated symbols) or a
    conjunction of such disjunctions; then a second [to_cnf] changes nothing,
    and its formula is structurally equal to that of the first.  A formula
    that is a comparison after [to_cnf] is not in CNF form. *)
Theorem to_cnf_canonical (w : World) (x : CustomLogicCondition) :
  is_formula w x = true ->
  let (w1, x1) := to_cnf to_cnf_term w x in
  x1 = x /\
  (is_cnf_form w x = true -> w1 = w) /\
  _condition w1 x1
  = (if is_cnf_form w x then _condition w x
     else to_cnf_term (_condition w x)) /\
  is_cnf_form w1 x1
  = (is_cnf_form w x || cnf_term w (to_cnf_term (_condition w x))) /\
  (is_cnf_form w1 x1 = true ->
   to_cnf to_cnf_term w1 x1 = (w1, x1) /\
   let (w2, x2) := to_cnf to_cnf_term w1 x1 in is_equal_to w2 x2 x1 = true) /\
  (forall k ops, _condition w1 x1 = Operation k ops -> is_comparison k = true ->
                 is_cnf_form w1 x1 = false).
Proof.
  intros Hf.
  assert (Hcmp : forall w' h k ops,
            _condition w' h = Operation k ops -> is_comparison k = true ->
            is_cnf_form w' h = false).
  { intros w' h k ops Hc Hk. rewrite is_cnf_form_term, Hc.
    destruct k; try discriminate; reflexivity. }
  unfold to_cnf at 1.
  destruct (is_cnf_form w x) eqn:Hcnf.
  - assert (Hagain : to_cnf to_cnf_term w x = (w, x))
      by (unfold to_cnf; rewrite Hcnf; reflexivity).
    rewrite Hagain. repeat split; auto.
    + unfold is_equal_to. apply compare_refl.
    + apply Hcmp.
  - unfold free_world_condition, ToCnfVisitor.
    assert (Hdef : get_definition w (_variable x) <> None).
    { intros Hnone. unfold is_formula in Hf. rewrite Hnone, orb_false_r in Hf.
      rewrite is_cnf_form_term in Hcnf. unfold cnf_term, _condition in Hcnf.
      rewrite Hnone in Hcnf.
      unfold _is_disjunction_of_literals, _is_literal in Hcnf.
      rewrite Hf in Hcnf. simpl in Hcnf. rewrite !orb_true_r in Hcnf.
      discriminate. }
    assert (Hafter : is_cnf_form (redefine w (_variable x) to_cnf_term) x
                     = cnf_term w (to_cnf_term (_condition w x))).
    { rewrite is_cnf_form_term, cnf_term_redefine.
      rewrite condition_redefine_same by exact Hdef. reflexivity. }
    repeat split.
    + discriminate.
    + apply condition_redefine_same. exact Hdef.
    + exact Hafter.
    + unfold to_cnf. rewrite H. reflexivity.
    + unfold to_cnf. rewrite H. unfold is_equal_to. apply compare_refl.
    + apply Hcmp.
Qed.

End ConjunctiveNormalForm.

(** ** The pass [cnf_pass] gives a CNF form *)

Definition literals_of (w : World) (cs : list (list WorldObject)) : Prop :=
  Forall (Forall (fun l => _is_literal w l = true)) cs.

Lemma literals_of_app (w : World) (a b : list (list WorldObject)) :
  literals_of w a -> literals_of w b -> literals_of w (a ++ b).
Proof. intros Ha Hb. apply Forall_app. split; assumption. Qed.

Lemma literals_of_distribute (w : World) (a b : list (list WorldObject)) :
  literals_of w a -> literals_of w b -> literals_of w (distribute a b).
Proof.
  intros Ha Hb. unfold distribute.
  induction Ha as [|x a Hx _ IH]; simpl; [constructor|].
  apply literals_of_app; [|exact IH].
  clear IH. induction Hb as [|y b Hy _ IH]; simpl; constructor; auto.
  apply Forall_app. split; assumption.
Qed.

Lemma literal_of_symbol (w : World) (positive : bool) (t : WorldObject) :
  _is_symbol w t = true -> _is_literal w (literal positive t) = true.
Proof.
  intros H. unfold _is_literal. destruct positive; simpl.
  - rewrite H. reflexivity.
  - rewrite H, ?orb_true_r. reflexivity.
Qed.

Lemma clauses_literals (w : World) (t : WorldObject) :
  forall positive, symbolic w t = true -> literals_of w (clauses positive t).
Proof.
  induction t as [n s|u s|k ops IH] using WorldObject_rect'; intros positive Hs.
  - simpl. repeat constructor. apply literal_of_symbol. exact Hs.
  - simpl. destruct (Bool.eqb positive (negb (u =? 0))); repeat constructor.
  - simpl in Hs. rewrite andb_true_iff in Hs. destruct Hs as [Hk Hops].
    assert (Hall : forall p, Forall (fun o => literals_of w (clauses p o)) ops).
    { intros p. rewrite forallb_forall in Hops. rewrite Forall_forall in *.
      intros o Ho. apply IH; auto. }
    assert (Hflat : forall p, literals_of w (flat_map (clauses p) ops)).
    { intros p. specialize (Hall p). clear - Hall.
      induction Hall as [|o l Ho _ IHl]; simpl; [constructor|].
      apply literals_of_app; assumption. }
    assert (Hfold : forall p,
               literals_of w
                 (fold_right (fun o acc => distribute (clauses p o) acc) [[]] ops)).
    { intros p. specialize (Hall p). clear - Hall.
      induction Hall as [|o l Ho _ IHl]; simpl; [repeat constructor|].
      apply literals_of_distribute; assumption. }
    destruct k; try discriminate; simpl.
    + destruct positive; auto.
    + destruct positive; auto.
    + destruct ops as [|o ops']; [constructor|].
      inversion IH; subst. simpl in Hops. rewrite andb_true_iff in Hops.
      apply H1. tauto.
Qed.

Lemma clause_term_dol (w : World) (c : list WorldObject) :
  Forall (fun l => _is_literal w l = true) c -> is_nil c = false ->
  _is_disjunction_of_literals w (clause_term c) = true.
Proof.
  intros Hc Hnil. unfold _is_disjunction_of_literals.
  destruct c as [|l [|l' c']]; [discriminate| |].
  - simpl. inversion Hc; subst. rewrite H1. reflexivity.
  - cbn [clause_term]. unfold bitwise_or.
    destruct (_is_literal w (Operation BitwiseOr (l :: l' :: c'))); [reflexivity|].
    apply forallb_forall. rewrite Forall_forall in Hc. exact Hc.
Qed.

Lemma cnf_term_of_dol (w : World) (c : WorldObject) :
  _is_disjunction_of_literals w c = true -> cnf_term w c = true.
Proof. intros H. unfold cnf_term. rewrite H, orb_true_r. reflexivity. Qed.

Lemma cnf_pass_gives_cnf (w : World) (t : WorldObject) :
  symbolic w t = true -> cnf_term w (cnf_pass t) = true.
Proof.
  intros Hs. pose proof (clauses_literals w t true Hs) as Hl.
  unfold cnf_pass. destruct (existsb is_nil (clauses true t)) eqn:Hnil;
    [reflexivity|].
  assert (Hdol : Forall (fun c => _is_disjunction_of_literals w (clause_term c) = true)
                        (clauses true t)).
  { rewrite Forall_forall. intros c Hc. apply clause_term_dol.
    - unfold literals_of in Hl. rewrite Forall_forall in Hl. auto.
    - destruct (is_nil c) eqn:E; [|reflexivity].
      assert (existsb is_nil (clauses true t) = true)
        by (apply existsb_exists; exists c; auto).
      congruence. }
  destruct (clauses true t) as [|c [|c' cs]]; [reflexivity| |].
  - apply cnf_term_of_dol. inversion Hdol; assumption.
  - unfold cnf_term.
    destruct (true_constant (bitwise_and (map clause_term (c :: c' :: cs)))
              || false_constant (bitwise_and (map clause_term (c :: c' :: cs)))
              || _is_disjunction_of_literals w
                   (bitwise_and (map clause_term (c :: c' :: cs))));
      [reflexivity|].
    cbn [bitwise_and is_kind OperationKind_eqb andb operands_of].
    rewrite forallb_forall. intros o Ho. apply in_map_iff in Ho.
    destruct Ho as (c0 & <- & Hin). rewrite Forall_forall in Hdol. auto.
Qed.

(** ** The operands of a formula *)

Lemma get_operands_fold (w : World) (self : CustomLogicCondition) (tmp : bool) :
  _get_operands w self tmp =
  match _condition w self with
  | Operation _ ops => fold_left (wrap_step tmp) ops (w, [])
  | _ => (w, [])
  end.
Proof. unfold _get_operands. destruct (_condition w self); reflexivity. Qed.

Lemma world_ok_define (w : World) (v t : WorldObject) :
  world_ok w = true -> below (counter w) v = true -> below (counter w) t = true ->
  world_ok (define w v t) = true.
Proof.
  unfold world_ok, define; cbn [definitions counter forallb fst snd].
  intros Hw Hv Ht. rewrite Hv, Ht. cbn [andb].
  rewrite forallb_forall in *. intros d Hd.
  apply Hw. clear - Hd. induction (definitions w) as [|[k t'] ds IH]; [exact Hd|].
  simpl in Hd. destruct (WorldObject_eqb v k).
  - right. apply IH. exact Hd.
  - destruct Hd as [<- | Hd]; [left; reflexivity | right; apply IH; exact Hd].
Qed.

Lemma init_world_ok (w : World) (c : WorldObject) (tmp : bool) :
  world_ok w = true -> below (counter w) c = true ->
  world_ok (fst (init w c tmp)) = true /\
  handle_ok (fst (init w c tmp)) (snd (init w c tmp)) = true /\
  counter w <= counter (fst (init w c tmp)).
Proof.
  intros Hw Hc. destruct (is_Variable c) eqn:Hv.
  - rewrite init_reuses by exact Hv. cbn [fst snd]. repeat split; auto. lia.
  - rewrite init_wraps by exact Hv. cbn [fst snd]. repeat split.
    + apply world_ok_define.
      * apply world_ok_advance. exact Hw.
      * simpl. apply N.ltb_lt. lia.
      * eapply below_mono; [|exact Hc]. simpl. lia.
    + unfold handle_ok. simpl. apply N.ltb_lt. lia.
    + simpl. lia.
Qed.

Lemma init_keeps (w : World) (c : WorldObject) (tmp : bool) (v : WorldObject) :
  below (counter w) v = true ->
  get_definition (fst (init w c tmp)) v = get_definition w v.
Proof.
  intros Hv. destruct (is_Variable c) eqn:E.
  - rewrite init_reuses by exact E. reflexivity.
  - rewrite init_wraps by exact E. cbn [fst].
    rewrite get_definition_define_other; [reflexivity|].
    apply below_generated. exact Hv.
Qed.

Lemma init_condition (w : World) (c : WorldObject) (tmp : bool) :
  world_ok w = true -> below (counter w) c = true ->
  negb (is_BaseVariable c) ||
  match get_definition w c with None => true | Some _ => false end = true ->
  _condition (fst (init w c tmp)) (snd (init w c tmp)) = c.
Proof.
  intros Hw Hc Hd. destruct (is_Variable c) eqn:E.
  - rewrite init_reuses by exact E. cbn [fst snd]. unfold _condition; cbn [_variable].
    destruct c; try discriminate. simpl in Hd.
    destruct (get_definition w (Var name size)); [discriminate|reflexivity].
  - rewrite init_wraps by exact E. cbn [fst snd]. apply condition_define_same.
Qed.

Lemma condition_same_definition (w w' : World) (h : CustomLogicCondition) :
  get_definition w' (_variable h) = get_definition w (_variable h) ->
  _condition w' h = _condition w h.
Proof. intros H. unfold _condition. rewrite H. reflexivity. Qed.

Lemma below_false_mono (n m : N) (t : WorldObject) :
  n <= m -> below m t = false -> below n t = false.
Proof.
  intros Hle Hf. destruct (below n t) eqn:E; [|reflexivity].
  rewrite (below_mono n m t Hle E) in Hf. discriminate.
Qed.

(** The handles [_get_operands] makes of the operands [ops]. *)
Definition wrapped (w0 w' : World) (o : WorldObject) (h : CustomLogicCondition)
  : Prop :=
  _condition w' h = o /\ handle_ok w' h = true /\
  (_variable h <> o -> below (counter w0) (_variable h) = false).

Lemma wrap_run (tmp : bool) (ops : list WorldObject) :
  forall (w : World) (hs : list CustomLogicCondition),
    world_ok w = true ->
    Forall (fun o => below (counter w) o = true) ops ->
    Forall (fun o => operand_ok w o = true) ops ->
    exists w' hs',
      fold_left (wrap_step tmp) ops (w, hs) = (w', hs ++ hs') /\
      world_ok w' = true /\ counter w <= counter w' /\
      (forall v, below (counter w) v = true ->
                 get_definition w' v = get_definition w v) /\
      Forall2 (wrapped w w') ops hs'.
Proof.
  induction ops as [|o ops IH]; intros w hs Hw Hb Hd.
  - exists w, []. rewrite app_nil_r. repeat split; auto. lia.
  - inversion Hb as [|? ? Hbo Hbops]; subst. inversion Hd as [|? ? Hdo Hdops]; subst.
    destruct (init_world_ok w o tmp Hw Hbo) as (Hw1 & Hh1 & Hc1).
    pose proof (init_condition w o tmp Hw Hbo Hdo) as Hcond.
    pose proof (init_keeps w o tmp) as Hkeep.
    assert (Hfr : _variable (snd (init w o tmp)) <> o ->
                  below (counter w) (_variable (snd (init w o tmp))) = false).
    { destruct (is_Variable o) eqn:E.
      - rewrite init_reuses by exact E. intros Hne. exfalso. apply Hne. reflexivity.
      - rewrite init_wraps by exact E. intros _. apply fresh_not_below. }
    cbn [fold_left]. unfold wrap_step at 2. cbn [fst snd].
    destruct (init w o tmp) as [w1 h] eqn:Einit. cbn [fst snd] in *.
    assert (Hb1 : Forall (fun o' => below (counter w1) o' = true) ops).
    { rewrite Forall_forall in *. intros x Hx. eapply below_mono; eauto. }
    assert (Hd1 : Forall (fun o' => operand_ok w1 o' = true) ops).
    { rewrite Forall_forall in *. intros x Hx. unfold operand_ok.
      rewrite Hkeep by auto. apply Hdops. exact Hx. }
    destruct (IH w1 (hs ++ [h]) Hw1 Hb1 Hd1) as (w' & hs' & Hfold & Hw' & Hc' & Hk' & Hall).
    exists w', (h :: hs'). rewrite Hfold, <- app_assoc. cbn [app].
    repeat split; auto.
    + lia.
    + intros v Hv. rewrite Hk' by (eapply below_mono; eauto). apply Hkeep. exact Hv.
    + constructor.
      * repeat split.
        -- rewrite <- Hcond. apply condition_same_definition. apply Hk'. exact Hh1.
        -- unfold handle_ok in *. eapply below_mono; eauto.
        -- exact Hfr.
      * eapply Forall2_impl; [|exact Hall].
        intros o' h' (Ha & Hb' & Hc''). repeat split; auto.
        intros Hne. eapply below_false_mono; [exact Hc1|]. auto.
Qed.

(** ** Edits of a conjunction *)

Lemma subst_not_occurs (old new t : WorldObject) :
  occurs old t = false -> subst old new t = t.
Proof.
  induction t as [n s|u s|k ops IH] using WorldObject_rect'; simpl.
  - rewrite orb_false_r. intros ->. reflexivity.
  - rewrite orb_false_r. intros ->. reflexivity.
  - intros H. apply orb_false_iff in H. destruct H as [-> Hops].
    f_equal. induction IH as [|o ops Ho _ IHops]; [reflexivity|].
    simpl in Hops. apply orb_false_iff in Hops. destruct Hops as [H1 H2].
    simpl. rewrite Ho by exact H1. rewrite IHops by exact H2. reflexivity.
Qed.

Lemma conjunction_free_not_occurs (ops : list WorldObject) (t : WorldObject) :
  conjunction_free t = true -> occurs (Operation BitwiseAnd ops) t = false.
Proof.
  induction t as [n s|u s|k l IH] using WorldObject_rect'; simpl; auto.
  rewrite andb_true_iff. intros [Hk Hl].
  apply orb_false_iff. split.
  - apply WorldObject_eqb_neq. intros E. inversion E; subst.
    simpl in Hk. discriminate.
  - induction IH as [|o l Ho _ IHl]; [reflexivity|].
    simpl in Hl. rewrite andb_true_iff in Hl. destruct Hl as [H1 H2].
    simpl. rewrite Ho by exact H1. apply IHl. exact H2.
Qed.

Lemma subst_id (a t : WorldObject) : subst a a t = t.
Proof.
  induction t as [n s|u s|k ops IH] using WorldObject_rect'; simpl.
  - destruct (WorldObject_eqb (Var n s) a) eqn:E; [|reflexivity].
    apply WorldObject_eqb_eq in E. congruence.
  - destruct (WorldObject_eqb (Constant u s) a) eqn:E; [|reflexivity].
    apply WorldObject_eqb_eq in E. congruence.
  - destruct (WorldObject_eqb (Operation k ops) a) eqn:E.
    + apply WorldObject_eqb_eq in E. congruence.
    + f_equal. clear E. induction IH as [|o ops Ho _ IHops]; [reflexivity|].
      simpl. rewrite Ho, IHops; reflexivity.
Qed.

Lemma replace_id (w : World) (a : WorldObject) : replace w a a = w.
Proof.
  unfold replace. destruct w as [i ds c]; simpl. f_equal.
  induction ds as [|[k t] ds IH]; simpl; [reflexivity|].
  rewrite subst_id, IH. reflexivity.
Qed.

Lemma below_subst (n : N) (old new t : WorldObject) :
  below n new = true -> below n t = true -> below n (subst old new t) = true.
Proof.
  intros Hnew. induction t as [m s|u s|k ops IH] using WorldObject_rect'; simpl.
  - destruct (WorldObject_eqb (Var m s) old); auto.
  - destruct (WorldObject_eqb (Constant u s) old); auto.
  - destruct (WorldObject_eqb (Operation k ops) old); [auto|].
    simpl. rewrite !forallb_forall. intros H x Hx.
    apply in_map_iff in Hx. destruct Hx as (y & <- & Hy).
    rewrite Forall_forall in IH. apply IH; auto.
Qed.

Lemma world_ok_replace (w : World) (old new : WorldObject) :
  world_ok w = true -> below (counter w) new = true ->
  world_ok (replace w old new) = true.
Proof.
  unfold world_ok, replace; cbn [definitions counter].
  intros Hw Hnew. rewrite forallb_forall in *. intros d Hd.
  apply in_map_iff in Hd. destruct Hd as (d0 & <- & Hd0).
  specialize (Hw d0 Hd0). rewrite andb_true_iff in *. cbn [fst snd].
  destruct Hw as [H1 H2]. split; [exact H1|]. apply below_subst; assumption.
Qed.

Lemma get_definition_replace (w : World) (old new v : WorldObject) :
  get_definition (replace w old new) v
  = option_map (subst old new) (get_definition w v).
Proof. unfold get_definition, replace; cbn [definitions]. apply lookup_map_values. Qed.

Lemma condition_replace_conjunction (w : World) (ops : list WorldObject)
      (new : WorldObject) (h : CustomLogicCondition) :
  conjunction_free (_condition w h) = true ->
  _condition (replace w (Operation BitwiseAnd ops) new) h = _condition w h.
Proof.
  unfold _condition. rewrite get_definition_replace.
  destruct (get_definition w (_variable h)) as [t|]; [|reflexivity].
  simpl. intros H. apply subst_not_occurs.
  apply conjunction_free_not_occurs. exact H.
Qed.

Lemma filter_idempotent (f : WorldObject -> bool) (l : list WorldObject) :
  filter f (filter f l) = filter f l.
Proof.
  induction l as [|x l IH]; simpl; [reflexivity|].
  destruct (f x) eqn:E; simpl; rewrite ?E, IH; reflexivity.
Qed.

Lemma no_relation_filter (o : WorldObject) (ops : list WorldObject) :
  forall i, relation_indices o ops i = [] ->
            filter (fun x => negb (WorldObject_eqb x o)) ops = ops.
Proof.
  induction ops as [|x ops IH]; intros i; simpl; [reflexivity|].
  destruct (WorldObject_eqb x o); [discriminate|].
  intros H. simpl. rewrite (IH (S i)) by exact H. reflexivity.
Qed.

(** ** Substitution by true: the clauses that are proven *)

Section SubstituteClauses.

Variable simplify_term : WorldObject -> WorldObject.

Hypothesis simplify_below :
  forall n t, below n t = true -> below n (simplify_term t) = true.

Lemma is_equivalent_to_run (w : World) (a b : CustomLogicCondition) :
  world_ok w = true -> handle_ok w a = true -> handle_ok w b = true ->
  exists w',
    is_equivalent_to simplify_term w a b
    = (w', equivalent simplify_term (_condition w a) (_condition w b)) /\
    definitions w' = definitions w /\ ident w' = ident w /\
    counter w <= counter w'.
Proof.
  intros Hw Ha Hb. unfold is_equivalent_to.
  rewrite (does_imply_run simplify_term simplify_below) by assumption.
  unfold equivalent, implies.
  destruct (true_constant
              (simplify_term (implication (_condition w a) (_condition w b)))).
  - rewrite (does_imply_run simplify_term simplify_below).
    + exists (advance (advance w)). repeat split. simpl. lia.
    + apply world_ok_advance. exact Hw.
    + unfold handle_ok in *. eapply below_mono; [|exact Hb]. simpl. lia.
    + unfold handle_ok in *. eapply below_mono; [|exact Ha]. simpl. lia.
  - exists (advance w). repeat split. simpl. lia.
Qed.

(** What the loop of [_replace_subexpressions_by_true] keeps: the formula
    of [self] is a conjunction, and the handles of the clauses have the
    formulas they had when the loop began. *)
Definition clause_inv (w0 w : World) (self : CustomLogicCondition)
           (ops : list WorldObject) (hs : list CustomLogicCondition) : Prop :=
  world_ok w = true /\
  get_definition w (_variable self) = Some (Operation BitwiseAnd ops) /\
  Forall (fun h => _condition w h = _condition w0 h /\ handle_ok w h = true /\
                   conjunction_free (_condition w0 h) = true) hs.

Lemma clause_inv_same_definitions (w0 w w' : World) self ops hs :
  clause_inv w0 w self ops hs ->
  definitions w' = definitions w -> counter w <= counter w' ->
  clause_inv w0 w' self ops hs.
Proof.
  intros (Hw & Hself & Hhs) Hd Hc. repeat split.
  - unfold world_ok in *. rewrite Hd. rewrite forallb_forall in *.
    intros d Hin. specialize (Hw d Hin). rewrite andb_true_iff in *.
    destruct Hw. split; eapply below_mono; eauto.
  - unfold get_definition in *. rewrite Hd. exact Hself.
  - eapply Forall_impl; [|exact Hhs]. intros h (H1 & H2 & H3). repeat split; auto.
    + rewrite <- H1. apply condition_same_definition.
      unfold get_definition. rewrite Hd. reflexivity.
    + unfold handle_ok in *. eapply below_mono; eauto.
Qed.

Lemma clause_inv_remove (w0 w : World) self ops hs (o : WorldObject) :
  clause_inv w0 w self ops hs ->
  clause_inv w0 (remove_operand w (_condition w self) o) self (without o ops) hs.
Proof.
  intros (Hw & Hself & Hhs).
  assert (Hc : _condition w self = Operation BitwiseAnd ops)
    by (unfold _condition; rewrite Hself; reflexivity).
  rewrite Hc. unfold remove_operand. fold (without o ops).
  assert (Hb : below (counter w) (Operation BitwiseAnd ops) = true).
  { eapply lookup_below; [exact Hw|exact Hself]. }
  repeat split.
  - apply world_ok_replace; [exact Hw|].
    simpl in *. rewrite forallb_forall in *. intros x Hx.
    apply filter_In in Hx. apply Hb. tauto.
  - rewrite get_definition_replace, Hself. cbn [option_map].
    rewrite subst_same. reflexivity.
  - eapply Forall_impl; [|exact Hhs]. intros h (H1 & H2 & H3).
    repeat split; auto.
    rewrite condition_replace_conjunction; [exact H1|].
    rewrite H1. exact H3.
Qed.

Lemma without_idempotent (o : WorldObject) (ops : list WorldObject) :
  without o (without o ops) = without o ops.
Proof. apply filter_idempotent. Qed.

Lemma clause_inv_remove_all (w0 : World) self hs (o : WorldObject)
      (relations : list nat) :
  forall w ops,
    clause_inv w0 w self ops hs ->
    (relations = [] -> without o ops = ops) ->
    clause_inv w0
      (fold_left (fun w' _ => remove_operand w' (_condition w' self) o)
                 relations w)
      self (without o ops) hs.
Proof.
  induction relations as [|r relations IH]; intros w ops Hinv Hnil.
  - simpl. rewrite Hnil by reflexivity. exact Hinv.
  - cbn [fold_left]. rewrite <- without_idempotent.
    apply IH.
    + apply clause_inv_remove. exact Hinv.
    + intros _. apply without_idempotent.
Qed.

Lemma replace_step_run (w0 w : World) self ops hs (p s : CustomLogicCondition) :
  clause_inv w0 w self ops hs -> In p hs -> In s hs ->
  clause_inv w0 (replace_step simplify_term self w (p, s)) self
             (if equivalent simplify_term (_condition w0 p) (_condition w0 s)
              then without (_condition w0 s) ops else ops)
             hs.
Proof.
  intros Hinv Hp Hs. pose proof Hinv as (Hw & Hself & Hhs).
  rewrite Forall_forall in Hhs.
  destruct (Hhs p Hp) as (Hp1 & Hp2 & _). destruct (Hhs s Hs) as (Hs1 & Hs2 & _).
  destruct (is_equivalent_to_run w p s Hw Hp2 Hs2) as (w1 & Heq & Hd & _ & Hc).
  unfold replace_step. rewrite Heq, Hp1, Hs1.
  pose proof (clause_inv_same_definitions _ _ w1 _ _ _ Hinv Hd Hc) as Hinv1.
  destruct (equivalent simplify_term (_condition w0 p) (_condition w0 s));
    [|exact Hinv1].
  destruct Hinv1 as (Hw1 & Hself1 & Hhs1).
  assert (Hs1' : _condition w1 s = _condition w0 s).
  { rewrite Forall_forall in Hhs1. apply Hhs1. exact Hs. }
  assert (Hc1 : _condition w1 self = Operation BitwiseAnd ops)
    by (unfold _condition; rewrite Hself1; reflexivity).
  rewrite Hs1', Hc1.
  apply clause_inv_remove_all; [repeat split; assumption|].
  unfold get_relation. cbn [operands_of]. apply no_relation_filter.
Qed.

Lemma replace_loop_run (w0 : World) self hs
      (pairs : list (CustomLogicCondition * CustomLogicCondition)) :
  forall w ops,
    clause_inv w0 w self ops hs ->
    (forall ps, In ps pairs -> In (fst ps) hs /\ In (snd ps) hs) ->
    clause_inv w0 (fold_left (replace_step simplify_term self) pairs w) self
               (surviving simplify_term (_condition w0) pairs ops) hs.
Proof.
  induction pairs as [|[p s] pairs IH]; intros w ops Hinv Hin; [exact Hinv|].
  cbn [fold_left surviving]. apply IH.
  - destruct (Hin (p, s) (or_introl eq_refl)) as [Hp Hs].
    apply replace_step_run; assumption.
  - intros ps Hps. apply Hin. right. exact Hps.
Qed.

Lemma surviving_filter (tm : CustomLogicCondition -> WorldObject)
      (pairs : list (CustomLogicCondition * CustomLogicCondition)) :
  forall ops,
    surviving simplify_term tm pairs ops =
    filter (fun x =>
              negb (existsb
                      (fun ps =>
                         equivalent simplify_term (tm (fst ps)) (tm (snd ps))
                         && WorldObject_eqb x (tm (snd ps)))
                      pairs))
           ops.
Proof.
  induction pairs as [|ps pairs IH]; intros ops.
  - simpl. induction ops as [|x ops IHo]; simpl; [reflexivity|].
    rewrite <- IHo. reflexivity.
  - unfold surviving in *. cbn [fold_left]. rewrite IH. cbn [existsb].
    destruct (equivalent simplify_term (tm (fst ps)) (tm (snd ps))); cbn [andb orb].
    + unfold without. induction ops as [|x ops IHo]; simpl; [reflexivity|].
      destruct (WorldObject_eqb x (tm (snd ps))); simpl; rewrite IHo; reflexivity.
    + reflexivity.
Qed.

Lemma surviving_unproven (tm : CustomLogicCondition -> WorldObject)
      (subs hs : list CustomLogicCondition) :
  surviving simplify_term tm (list_prod subs hs) (map tm hs)
  = unproven simplify_term (map tm subs) (map tm hs).
Proof.
  rewrite surviving_filter. unfold unproven.
  apply filter_ext_in. intros x Hx. f_equal.
  apply eq_true_iff_eq. rewrite !existsb_exists. split.
  - intros ([p s] & Hin & H). cbn [fst snd] in H.
    rewrite andb_true_iff in H. destruct H as [He Hxs].
    apply WorldObject_eqb_eq in Hxs. subst x.
    apply in_prod_iff in Hin. exists (tm p). split; [|exact He].
    apply in_map. tauto.
  - intros (c & Hc & He). apply in_map_iff in Hc. destruct Hc as (p & <- & Hp).
    apply in_map_iff in Hx. destruct Hx as (s & <- & Hs).
    exists (p, s). split; [apply in_prod; assumption|].
    cbn [fst snd]. rewrite He, WorldObject_eqb_refl. reflexivity.
Qed.

End SubstituteClauses.

(** ** The run of [_get_operands], [to_cnf] and [cleanup] *)

Lemma below_operands (n : N) (k : OperationKind) (ops : list WorldObject) :
  below n (Operation k ops) = true -> Forall (fun o => below n o = true) ops.
Proof. simpl. rewrite forallb_forall, Forall_forall. auto. Qed.

Lemma get_operands_run (w : World) (h : CustomLogicCondition) (tmp : bool) :
  world_ok w = true -> handle_ok w h = true ->
  Forall (fun o => operand_ok w o = true) (operands_of (_condition w h)) ->
  exists w' hs,
    _get_operands w h tmp = (w', hs) /\
    world_ok w' = true /\ counter w <= counter w' /\
    (forall v, below (counter w) v = true ->
               get_definition w' v = get_definition w v) /\
    Forall2 (wrapped w w') (operands_of (_condition w h)) hs.
Proof.
  intros Hw Hh Hops. rewrite get_operands_fold.
  pose proof (condition_below w h Hw Hh) as Hb.
  destruct (_condition w h) as [n s|u s|k ops].
  - exists w, []. repeat split; auto; try lia; constructor.
  - exists w, []. repeat split; auto; try lia; constructor.
  - cbn [operands_of] in *.
    destruct (wrap_run tmp ops w [] Hw (below_operands _ _ _ Hb) Hops)
      as (w' & hs' & Hfold & H).
    exists w', hs'. split; [exact Hfold|exact H].
Qed.

Lemma wrapped_conditions (w w' : World) (ops : list WorldObject)
      (hs : list CustomLogicCondition) :
  Forall2 (wrapped w w') ops hs -> map (_condition w') hs = ops.
Proof.
  induction 1 as [|o h ops hs Hoh _ IH]; simpl; [reflexivity|].
  destruct Hoh as (Hc & _). rewrite Hc, IH. reflexivity.
Qed.

Lemma wrapped_length (w w' : World) (ops : list WorldObject)
      (hs : list CustomLogicCondition) :
  Forall2 (wrapped w w') ops hs -> List.length hs = List.length ops.
Proof. intros H. symmetry. eapply Forall2_length; eauto. Qed.

Lemma cleanup_keeps (vs : list WorldObject) (v : WorldObject) :
  forall w, ~ In v vs -> get_definition (cleanup w vs) v = get_definition w v.
Proof.
  unfold cleanup. induction vs as [|u vs IH]; intros w Hin; [reflexivity|].
  cbn [fold_left]. rewrite IH by (intros H; apply Hin; right; exact H).
  destruct (is_BaseVariable u && negb (has_parent w u)); [|reflexivity].
  unfold get_definition; cbn [definitions].
  apply lookup_unbind_other. intros ->. apply Hin. left. reflexivity.
Qed.

Lemma world_ok_redefine (w : World) (v : WorldObject)
      (f : WorldObject -> WorldObject) :
  (forall n t, below n t = true -> below n (f t) = true) ->
  world_ok w = true -> world_ok (redefine w v f) = true.
Proof.
  intros Hf. unfold world_ok, redefine; cbn [definitions counter].
  rewrite !forallb_forall. intros Hw d Hd.
  apply in_map_iff in Hd. destruct Hd as (d0 & <- & Hd0).
  specialize (Hw d0 Hd0). rewrite andb_true_iff in Hw. destruct Hw as [H1 H2].
  destruct (WorldObject_eqb v (fst d0)); cbn [fst snd];
    rewrite H1; [rewrite Hf by exact H2|rewrite H2]; reflexivity.
Qed.

Section ToCnfRun.

Variable to_cnf_term : WorldObject -> WorldObject.

Hypothesis to_cnf_below :
  forall n t, below n t = true -> below n (to_cnf_term t) = true.

Lemma to_cnf_run (w : World) (self : CustomLogicCondition) :
  world_ok w = true ->
  snd (to_cnf to_cnf_term w self) = self /\
  world_ok (fst (to_cnf to_cnf_term w self)) = true /\
  counter (fst (to_cnf to_cnf_term w self)) = counter w.
Proof.
  intros Hw. unfold to_cnf. destruct (is_cnf_form w self); cbn [fst snd].
  - auto.
  - repeat split. apply world_ok_redefine; assumption.
Qed.

End ToCnfRun.

Lemma clause_ok_parts (w : World) (o : WorldObject) :
  clause_ok w o = true -> conjunction_free o = true /\ operand_ok w o = true.
Proof. unfold clause_ok. rewrite andb_true_iff. auto. Qed.

Lemma operand_ok_kept (w w' : World) (o : WorldObject) :
  (forall v, below (counter w) v = true -> get_definition w' v = get_definition w v) ->
  below (counter w) o = true -> operand_ok w o = true -> operand_ok w' o = true.
Proof. intros Hk Hb. unfold operand_ok. rewrite Hk by exact Hb. auto. Qed.

Lemma condition_kept (w w' : World) (h : CustomLogicCondition) :
  (forall v, below (counter w) v = true -> get_definition w' v = get_definition w v) ->
  handle_ok w h = true -> _condition w' h = _condition w h.
Proof. intros Hk Hh. apply condition_same_definition. apply Hk. exact Hh. Qed.

Lemma handle_ok_mono (w w' : World) (h : CustomLogicCondition) :
  counter w <= counter w' -> handle_ok w h = true -> handle_ok w' h = true.
Proof. unfold handle_ok. intros. eapply below_mono; eauto. Qed.

Section SubstituteSubexpressions.

Variable simplify_term : WorldObject -> WorldObject.

Hypothesis simplify_below :
  forall n t, below n t = true -> below n (simplify_term t) = true.

Lemma replace_subexpressions_run (w : World) (self : CustomLogicCondition)
      (ops : list WorldObject) (subs : list CustomLogicCondition) :
  world_ok w = true -> handle_ok w self = true ->
  get_definition w (_variable self) = Some (Operation BitwiseAnd ops) ->
  Forall (fun o => clause_ok w o = true) ops ->
  Forall (fun h => handle_ok w h = true /\
                   conjunction_free (_condition w h) = true) subs ->
  get_definition (_replace_subexpressions_by_true simplify_term w self subs)
                 (_variable self)
  = Some (Operation BitwiseAnd
            (unproven simplify_term (map (_condition w) subs) ops)).
Proof.
  intros Hw Hs Hdef Hops Hsubs.
  assert (Hcond : _condition w self = Operation BitwiseAnd ops)
    by (unfold _condition; rewrite Hdef; reflexivity).
  unfold _replace_subexpressions_by_true, operands.
  destruct (get_operands_run w self false Hw Hs) as (w5 & hs & Hget & Hw5 & Hc5 & Hk5 & Hwr).
  { rewrite Hcond. cbn [operands_of]. eapply Forall_impl; [|exact Hops].
    intros o Ho. apply clause_ok_parts in Ho. tauto. }
  rewrite Hget. rewrite Hcond in Hwr. cbn [operands_of] in Hwr.
  assert (Hinv : clause_inv w5 w5 self ops (subs ++ hs)).
  { repeat split; [exact Hw5|rewrite Hk5 by exact Hs; exact Hdef|].
    apply Forall_app. split.
    - eapply Forall_impl; [|exact Hsubs]. intros h [H1 H2]. repeat split.
      + eapply handle_ok_mono; eauto.
      + rewrite (condition_kept w w5 h Hk5 H1). exact H2.
    - clear - Hwr Hops. induction Hwr as [|o h ops hs Hoh _ IH];
        [constructor|].
      destruct Hoh as (Hc & Hh & _).
      apply Forall_cons_iff in Hops. destruct Hops as [Ho Hops].
      constructor; [|apply IH; assumption].
      repeat split; auto. rewrite Hc.
      apply clause_ok_parts in Ho. tauto. }
  pose proof (replace_loop_run simplify_term simplify_below w5 self (subs ++ hs)
                               (list_prod subs hs) w5 ops Hinv) as Hloop.
  destruct Hloop as (_ & Hfinal & _).
  { intros [p s0] Hin. apply in_prod_iff in Hin. cbn [fst snd].
    split; apply in_or_app; tauto. }
  rewrite Hfinal. f_equal. f_equal.
  rewrite <- (wrapped_conditions _ _ _ _ Hwr) at 1.
  rewrite surviving_unproven.
  rewrite (wrapped_conditions _ _ _ _ Hwr). f_equal.
  apply map_ext_in. intros h Hh. rewrite Forall_forall in Hsubs.
  apply condition_kept; [exact Hk5|]. apply Hsubs. exact Hh.
Qed.

End SubstituteSubexpressions.

(** ** Substitution by true: the count of clauses *)

Lemma wrapped_not_handle (w w' w2 : World) (self : CustomLogicCondition)
      (ops : list WorldObject) (hs : list CustomLogicCondition) :
  Forall2 (wrapped w w') ops hs ->
  Forall (fun o => operand_ok w o = true) ops ->
  below (counter w) (_variable self) = true ->
  is_BaseVariable (_variable self) = true ->
  get_definition w (_variable self) <> None ->
  ~ In (_variable self) (map _variable hs).
Proof.
  intros Hwr Hops Hb Hv Hd Hin. apply in_map_iff in Hin.
  destruct Hin as (h & Hh & Hin).
  induction Hwr as [|o h' ops hs Hoh _ IH]; [contradiction|].
  apply Forall_cons_iff in Hops. destruct Hops as [Ho Hops].
  destruct Hin as [-> | Hin]; [|apply IH; assumption].
  destruct Hoh as (_ & _ & Hfresh).
  destruct (WorldObject_eqb (_variable h) o) eqn:E.
  - apply WorldObject_eqb_eq in E. subst o. rewrite Hh in Ho.
    unfold operand_ok in Ho. rewrite Hv in Ho. cbn [negb orb] in Ho.
    destruct (get_definition w (_variable self)); [discriminate|contradiction].
  - apply WorldObject_eqb_neq in E. specialize (Hfresh E). congruence.
Qed.

Section SubstituteCount.

Variable simplify_term : WorldObject -> WorldObject.
Variable to_cnf_term : WorldObject -> WorldObject.

Hypothesis simplify_below :
  forall n t, below n t = true -> below n (simplify_term t) = true.
Hypothesis to_cnf_below :
  forall n t, below n t = true -> below n (to_cnf_term t) = true.

(** C2: when [self] is neither proven as a whole nor, once in CNF, a
    constant, a negation or a symbol, the count [m] of its top-level
    conjuncts is compared with the count [n] of those of [provenTrue].  If
    [m <= n] the formula of [self] stays as it is.  If [m > n] the
    conjunction loses exactly the clauses equivalent to a top-level clause
    of [provenTrue], or to [provenTrue] itself when [n = 1]. *)
Theorem substitute_by_true_removes_proven_clauses (w : World)
        (self provenTrue : CustomLogicCondition)
        (k : OperationKind) (ops : list WorldObject) :
  world_ok w = true -> handle_ok w self = true -> handle_ok w provenTrue = true ->
  is_BaseVariable (_variable self) = true ->
  context self = context provenTrue ->
  is_true w self = false ->
  is_equal_to w self provenTrue = false ->
  implies simplify_term (_condition w provenTrue) (_condition w self) = false ->
  let w2 := fst (to_cnf to_cnf_term (advance w) self) in
  let proven := _condition w2 provenTrue in
  get_definition w2 (_variable self) = Some (Operation k ops) ->
  k <> BitwiseNegate ->
  Forall (fun o => clause_ok w2 o = true) ops ->
  Forall (fun o => clause_ok w2 o = true) (operands_of proven) ->
  (clause_count proven = 1%nat -> conjunction_free proven = true) ->
  let m := clause_count (Operation k ops) in
  let n := clause_count proven in
  exists w',
    substitute_by_true simplify_term to_cnf_term w self provenTrue = Ok (w', self) /\
    ((m <= n)%nat -> _condition w' self = Operation k ops) /\
    ((n < m)%nat -> k = BitwiseAnd ->
     _condition w' self =
     Operation BitwiseAnd
       (unproven simplify_term
                 (if Nat.eqb n 1 then [proven] else operands_of proven) ops)).
Proof.
  intros Hw Hs Hp Hvar Hctx Ht Heq Himp w2 proven Hdef Hk Hops Hpops Hfree m n.
  unfold substitute_by_true.
  rewrite Hctx, Nat.eqb_refl. cbn [negb]. rewrite Ht, Heq.
  rewrite (does_imply_run simplify_term simplify_below) by assumption.
  unfold implies in Himp. rewrite Himp.
  destruct (to_cnf_run to_cnf_term to_cnf_below (advance w) self
                       (world_ok_advance w Hw)) as (Hself & Hw2 & Hc2).
  fold w2 in Hw2, Hc2.
  destruct (to_cnf to_cnf_term (advance w) self) as [w2' self'] eqn:Ecnf.
  cbn [fst snd] in *. subst self'. subst w2.
  assert (Hcond : _condition w2' self = Operation k ops)
    by (unfold _condition; rewrite Hdef; reflexivity).
  assert (Hearly : is_true w2' self || is_false w2' self || is_negation w2' self
                   || is_symbol w2' self = false).
  { unfold is_true, is_false, is_negation, is_symbol. rewrite Hcond.
    destruct k; try reflexivity. congruence. }
  rewrite Hearly.
  assert (Hs2 : handle_ok w2' self = true).
  { unfold handle_ok in *. rewrite Hc2. eapply below_mono; [|exact Hs]. simpl. lia. }
  assert (Hp2 : handle_ok w2' provenTrue = true).
  { unfold handle_ok in *. rewrite Hc2. eapply below_mono; [|exact Hp]. simpl. lia. }
  assert (Hpops' : Forall (fun o => operand_ok w2' o = true) (operands_of proven)).
  { eapply Forall_impl; [|exact Hpops]. intros o Ho.
    apply clause_ok_parts in Ho. tauto. }
  destruct (get_operands_run w2' provenTrue false Hw2 Hp2 Hpops')
    as (w3 & hsC & Hget3 & Hw3 & Hc3 & Hk3 & Hwr3).
  rewrite Hget3. fold proven in Hwr3.
  assert (Hs3 : handle_ok w3 self = true) by (eapply handle_ok_mono; eauto).
  assert (Hcond3 : _condition w3 self = Operation k ops)
    by (rewrite (condition_kept w2' w3 self Hk3 Hs2); exact Hcond).
  assert (Hbops : Forall (fun o => below (counter w2') o = true) ops).
  { apply (below_operands _ k). rewrite <- Hcond. apply condition_below; assumption. }
  assert (Hops3 : Forall (fun o => operand_ok w3 o = true) ops).
  { rewrite Forall_forall in *. intros o Ho.
    apply (operand_ok_kept w2' w3 o Hk3); auto.
    specialize (Hops o Ho). apply clause_ok_parts in Hops. tauto. }
  destruct (get_operands_run w3 self false Hw3 Hs3) as (w4 & hsS & Hget4 & Hw4 & Hc4 & Hk4 & Hwr4).
  { rewrite Hcond3. exact Hops3. }
  rewrite Hget4. rewrite Hcond3 in Hwr4. cbn [operands_of] in Hwr4.
  assert (Hkeep : forall v, below (counter w2') v = true ->
                            get_definition w4 v = get_definition w2' v).
  { intros v Hv. rewrite Hk4 by (eapply below_mono; eauto). apply Hk3. exact Hv. }
  assert (Hcond4 : _condition w4 self = Operation k ops)
    by (rewrite (condition_kept w2' w4 self Hkeep Hs2); exact Hcond).
  assert (Hproven4 : _condition w4 provenTrue = proven)
    by (apply (condition_kept w2' w4 provenTrue Hkeep Hp2)).
  assert (Hm : (if is_conjunction w4 self then List.length hsS else 1%nat) = m).
  { unfold is_conjunction, m, clause_count. rewrite Hcond4.
    rewrite (wrapped_length _ _ _ _ Hwr4). reflexivity. }
  assert (Hn : (if is_conjunction w4 provenTrue then List.length hsC else 1%nat) = n).
  { unfold is_conjunction, n, clause_count. rewrite Hproven4.
    rewrite (wrapped_length _ _ _ _ Hwr3). reflexivity. }
  rewrite Hm, Hn.
  destruct (Nat.leb m n) eqn:Hle.
  - exists w4. unfold cleanup; cbn [fold_left].
    split; [reflexivity|]. split; [intros _; exact Hcond4|].
    apply Nat.leb_le in Hle. intros Hlt. lia.
  - apply Nat.leb_gt in Hle.
    set (subs := if Nat.eqb n 1 then [provenTrue] else hsC).
    set (w6 := _replace_subexpressions_by_true simplify_term w4 self subs).
    eexists. split; [reflexivity|]. split; [intros; lia|].
    intros _ ->.
    assert (Hs4 : handle_ok w4 self = true)
      by (eapply handle_ok_mono; [|exact Hs3]; exact Hc4).
    assert (Hdef4 : get_definition w4 (_variable self)
                    = Some (Operation BitwiseAnd ops))
      by (rewrite Hkeep by exact Hs2; exact Hdef).
    assert (Hops4 : Forall (fun o => clause_ok w4 o = true) ops).
    { rewrite Forall_forall in *. intros o Ho.
      specialize (Hops o Ho). apply clause_ok_parts in Hops.
      unfold clause_ok. destruct Hops as [-> Hop]. cbn [andb].
      apply (operand_ok_kept w2' w4 o Hkeep); auto. }
    assert (HhsC : Forall (fun h => handle_ok w4 h = true /\
                                    _condition w4 h = _condition w3 h) hsC).
    { clear - Hwr3 Hk4 Hc4. induction Hwr3 as [|o h l hs Hoh _ IH]; constructor; auto.
      destruct Hoh as (_ & Hh & _). split.
      - eapply handle_ok_mono; eauto.
      - apply (condition_kept w3 w4 h Hk4 Hh). }
    assert (Hsubs : Forall (fun h => handle_ok w4 h = true /\
                                     conjunction_free (_condition w4 h) = true) subs).
    { unfold subs. destruct (Nat.eqb n 1) eqn:En.
      - constructor; [|constructor]. split.
        + eapply handle_ok_mono; [|exact Hp2]. lia.
        + rewrite Hproven4. apply Hfree. apply Nat.eqb_eq. exact En.
      - clear - Hwr3 HhsC Hpops.
        induction Hwr3 as [|o h l hs Hoh _ IH]; constructor.
        + apply Forall_cons_iff in HhsC, Hpops.
          destruct HhsC as [[Hh Hc] _]. destruct Hpops as [Ho _].
          destruct Hoh as (Hco & _). split; [exact Hh|].
          rewrite Hc, Hco. apply clause_ok_parts in Ho. tauto.
        + apply Forall_cons_iff in HhsC, Hpops. apply IH; tauto. }
    assert (Hmap : map (_condition w4) subs
                   = if Nat.eqb n 1 then [proven] else operands_of proven).
    { unfold subs. destruct (Nat.eqb n 1).
      - cbn [map]. rewrite Hproven4. reflexivity.
      - rewrite <- (wrapped_conditions _ _ _ _ Hwr3).
        apply map_ext_in. intros h Hh. rewrite Forall_forall in HhsC.
        apply HhsC. exact Hh. }
    unfold _condition. rewrite cleanup_keeps.
    + fold subs. fold w6. unfold w6.
      rewrite (replace_subexpressions_run simplify_term simplify_below
                 w4 self ops subs Hw4 Hs4 Hdef4 Hops4 Hsubs).
      rewrite Hmap. reflexivity.
    + intros Hin. apply in_map_iff in Hin. destruct Hin as (h & Hh & Hin).
      apply filter_In in Hin. destruct Hin as [Hin _].
      apply in_app_or in Hin. destruct Hin as [Hin | Hin].
      * apply (wrapped_not_handle w2' w3 w2' self _ _ Hwr3 Hpops' Hs2 Hvar).
        -- rewrite Hdef. discriminate.
        -- apply in_map_iff. exists h. auto.
      * apply (wrapped_not_handle w3 w4 w2' self _ _ Hwr4 Hops3 Hs3 Hvar).
        -- rewrite Hk3 by exact Hs2. rewrite Hdef. discriminate.
        -- apply in_map_iff. exists h. auto.
Qed.

End SubstituteCount.

(** ** The small engine keeps to the variables of the graph *)

Lemma sample_simplify_below (n : N) (t : WorldObject) :
  below n t = true -> below n (sample_simplify t) = true.
Proof.
  intros H. unfold sample_simplify.
  repeat match goal with
         | |- context [match ?x with _ => _ end] =>
             destruct x; try exact H
         end;
    try reflexivity.
  simpl in *. rewrite !andb_true_iff in *. tauto.
Qed.

Lemma identity_below (n : N) (t : WorldObject) :
  below n t = true -> below n ((fun c : WorldObject => c) t) = true.
Proof. auto. Qed.

(** ** The theorems at sample formulas *)

Lemma double_negation_witness :
  world_ok conjunction_world = true /\
  let (w1, not_x) := __invert__ conjunction_world conjunction_formula in
  let (w2, not_not_x) := __invert__ w1 not_x in
  is_equal_to w2 not_not_x conjunction_formula = true.
Proof.
  split; [reflexivity|].
  exact (proj2 (proj2 (proj2
           (double_negation conjunction_world conjunction_formula
              eq_refl eq_refl (or_intror (conj eq_refl eq_refl)))))).
Defined.

Lemma does_imply_reclaims_temporary_witness :
  snd (does_imply sample_simplify conjunction_world conjunction_formula
                  conjunction_formula) = true /\
  definitions (fst (does_imply sample_simplify conjunction_world
                               conjunction_formula conjunction_formula))
  = definitions conjunction_world.
Proof.
  destruct (does_imply_reclaims_temporary sample_simplify sample_simplify_below
              conjunction_world conjunction_formula conjunction_formula
              eq_refl eq_refl eq_refl) as (H1 & H2 & _).
  split; [rewrite H1; reflexivity | exact H2].
Defined.

Lemma remove_redundancy_skips_literals_witness :
  is_literal empty_world switch_x1 = true /\
  remove_redundancy sample_simplify empty_world switch_x1 switch_registry
  = Ok (empty_world, switch_registry, switch_x1).
Proof.
  split; [reflexivity|].
  apply (remove_redundancy_skips_literals sample_simplify empty_world switch_x1
           switch_registry).
  left. reflexivity.
Defined.

Lemma to_dnf_leaves_input_witness :
  let (w', y) := to_dnf sample_to_dnf distributed_world distributed_formula in
  _condition w' distributed_formula
  = bitwise_and [bitwise_or [sample_a; sample_b]; sample_c] /\
  _condition w' y
  = bitwise_or [bitwise_and [sample_a; sample_c]; bitwise_and [sample_b; sample_c]].
Proof.
  pose proof (to_dnf_leaves_input sample_to_dnf distributed_world
                distributed_formula eq_refl eq_refl) as H.
  destruct (to_dnf sample_to_dnf distributed_world distributed_formula) as [w' y].
  destruct H as (_ & H1 & H2 & _). split; [exact H1 | exact H2].
Defined.

Lemma to_cnf_canonical_witness :
  is_cnf_form disjunction_world disjunction_formula = false /\
  let (w1, x1) := to_cnf cnf_pass disjunction_world disjunction_formula in
  is_cnf_form w1 x1 = true /\ to_cnf cnf_pass w1 x1 = (w1, x1).
Proof.
  split; [reflexivity|].
  pose proof (to_cnf_canonical cnf_pass disjunction_world disjunction_formula
                eq_refl) as H.
  destruct (to_cnf cnf_pass disjunction_world disjunction_formula) as [w1 x1].
  destruct H as (_ & _ & _ & H1 & H2 & _).
  assert (Hcnf : is_cnf_form w1 x1 = true) by (rewrite H1; reflexivity).
  split; [exact Hcnf | apply H2; exact Hcnf].
Defined.

Lemma substitute_by_true_collapses_witness :
  exists w' self',
    substitute_by_true sample_simplify (fun c => c) conjunction_world
                       conjunction_formula conjunction_formula
    = Ok (w', self') /\
    is_true w' self' = true.
Proof.
  destruct (substitute_by_true_collapses sample_simplify (fun c => c)
              sample_simplify_below conjunction_world conjunction_formula
              conjunction_formula eq_refl eq_refl eq_refl eq_refl eq_refl eq_refl
              (or_introl eq_refl)) as (w' & self' & H1 & H2 & _).
  exists w', self'. split; assumption.
Defined.

Lemma substitute_by_true_removes_proven_clauses_witness :
  exists w',
    substitute_by_true sample_simplify (fun c => c) conjunction_world
                       conjunction_formula (mkCondition sample_a 0)
    = Ok (w', conjunction_formula) /\
    _condition w' conjunction_formula = bitwise_and [sample_b; sample_c].
Proof.
  destruct (substitute_by_true_removes_proven_clauses
              sample_simplify (fun c => c) sample_simplify_below identity_below
              conjunction_world conjunction_formula (mkCondition sample_a 0)
              BitwiseAnd [sample_a; sample_b; sample_c]
              eq_refl eq_refl eq_refl eq_refl eq_refl eq_refl eq_refl eq_refl
              eq_refl)
    as (w' & H1 & _ & H2).
  - discriminate.
  - repeat constructor.
  - constructor.
  - reflexivity.
  - exists w'. split; [exact H1|].
    apply H2; [vm_compute; lia | reflexivity].
Defined.

(** ** [is_equal_to] compares forms *)

(** C4, the counterexample: the disjunctive normal form of [(a | b) & c]
    is a disjunction, and [is_equal_to] of the formula and its normal form is
    false. *)
Lemma to_dnf_not_equal_to_input :
  let (w', y) := to_dnf sample_to_dnf distributed_world distributed_formula in
  _condition w' y
  = bitwise_or [bitwise_and [sample_a; sample_c]; bitwise_and [sample_b; sample_c]]
  /\ is_equal_to w' distributed_formula y = false.
Proof. split; reflexivity. Qed.

(** ** [to_cnf] on a comparison *)

(** C5, the counterexample: the formula [x < 10] built by
    [initialize_from_condition] is a formula that is not in CNF form; the
    pass to conjunctive normal form leaves the comparison as it is, and
    [is_cnf_form] is false after [to_cnf]. *)
Lemma to_cnf_of_comparison_not_cnf :
  is_formula comparison_world comparison_formula = true /\
  let (w1, x1) := to_cnf cnf_pass comparison_world comparison_formula in
  x1 = comparison_formula /\
  _condition w1 x1 = encoding switch_less /\
  is_cnf_form w1 x1 = false.
Proof. repeat split. Qed.

(** * Redundancy removal: the switch case *)

(** ** Signed constants *)

Lemma signed_of_constant (v : Z) (size : N) :
  0 < size ->
  (- 2 ^ (Z.of_N size - 1) <= v < 2 ^ (Z.of_N size - 1))%Z ->
  signed (Z.to_N (v mod 2 ^ Z.of_N size)) size = v.
Proof.
  intros Hsize Hv. unfold signed.
  replace (size =? 0) with false by (symmetry; apply N.eqb_neq; lia).
  cbn [orb].
  assert (Hpow : (2 ^ Z.of_N size = 2 * 2 ^ (Z.of_N size - 1))%Z).
  { replace (Z.of_N size) with (Z.succ (Z.of_N size - 1)) at 1 by lia.
    rewrite Z.pow_succ_r by lia. reflexivity. }
  assert (Hhalf : Z.of_N (2 ^ (size - 1)) = (2 ^ (Z.of_N size - 1))%Z).
  { rewrite N2Z.inj_pow, N2Z.inj_sub by lia. reflexivity. }
  assert (Hpos : (0 < 2 ^ (Z.of_N size - 1))%Z) by (apply Z.pow_pos_nonneg; lia).
  destruct (Z.neg_nonneg_cases v) as [Hneg | Hnonneg].
  - assert (Hmod : (v mod 2 ^ Z.of_N size = v + 2 ^ Z.of_N size)%Z).
    { symmetry. apply (Z.mod_unique_pos _ _ (-1)); lia. }
    rewrite Hmod.
    replace (Z.to_N (v + 2 ^ Z.of_N size) <? 2 ^ (size - 1)) with false.
    + rewrite Z2N.id by lia. lia.
    + symmetry. apply N.ltb_ge. lia.
  - rewrite Z.mod_small by lia.
    replace (Z.to_N v <? 2 ^ (size - 1)) with true.
    + apply Z2N.id. exact Hnonneg.
    + symmetry. apply N.ltb_lt. lia.
Qed.

(** ** Redundancy removal: the un-shared copy *)

Lemma filter_all (f : WorldObject -> bool) (l : list WorldObject) :
  (forall x, In x l -> f x = true) -> filter f l = l.
Proof.
  induction l as [|x l IH]; intros H; [reflexivity|].
  simpl. rewrite H by (left; reflexivity). rewrite IH; [reflexivity|].
  intros y Hy. apply H. right. exact Hy.
Qed.

Lemma dedup_nodup (l : list WorldObject) : NoDup l -> dedup l = l.
Proof.
  induction 1 as [|x l Hx _ IH]; [reflexivity|].
  simpl. rewrite IH. f_equal. apply filter_all.
  intros y Hy. apply negb_true_iff. apply WorldObject_eqb_neq.
  intros ->. contradiction.
Qed.

Lemma filter_commute (f g : WorldObject -> bool) (l : list WorldObject) :
  filter g (filter f l) = filter f (filter g l).
Proof.
  induction l as [|z l IH]; [reflexivity|].
  simpl. destruct (f z) eqn:E1, (g z) eqn:E2; simpl; rewrite ?E1, ?E2, IH; reflexivity.
Qed.

Lemma filter_none (t : WorldObject) (l : list WorldObject) :
  (forall y, In y l -> y = t) ->
  filter (fun z => negb (WorldObject_eqb z t)) l = [].
Proof.
  induction l as [|z l IH]; intros H; [reflexivity|].
  simpl. rewrite (H z) by (left; reflexivity).
  rewrite WorldObject_eqb_refl. simpl. apply IH.
  intros y Hy. apply H. right. exact Hy.
Qed.

Lemma dedup_subset (l : list WorldObject) (x : WorldObject) :
  In x (dedup l) -> In x l.
Proof.
  revert x. induction l as [|y l IH]; intros x H; [contradiction|].
  simpl in H. destruct H as [-> | H]; [left; reflexivity|].
  apply filter_In in H. right. apply IH. tauto.
Qed.

Lemma dedup_filter_single (g : WorldObject -> bool) (t : WorldObject)
      (l : list WorldObject) :
  (forall x, In x l -> g x = true -> x = t) -> g t = true -> In t l ->
  filter g (dedup l) = [t].
Proof.
  intros Hg Ht. induction l as [|x l IH]; intros Hin; [contradiction|].
  cbn [dedup filter].
  assert (Hg' : forall y, In y l -> g y = true -> y = t)
    by (intros y Hy; apply Hg; right; exact Hy).
  destruct (g x) eqn:Ex.
  - apply Hg in Ex; [|left; reflexivity]. subst x. f_equal.
    rewrite filter_commute. apply filter_none.
    intros y Hy. apply filter_In in Hy. destruct Hy as [Hy Hgy].
    apply Hg'; [apply dedup_subset; exact Hy | exact Hgy].
  - destruct Hin as [-> | Hin]; [congruence|].
    rewrite filter_commute, (IH Hg' Hin). simpl.
    replace (WorldObject_eqb t x) with false; [reflexivity|].
    symmetry. apply WorldObject_eqb_neq. intros <-. congruence.
Qed.

(** A node without operands of its own in the graph: a constant, or a
    variable that has no definition. *)
Definition leaf (w : World) (c : WorldObject) : Prop :=
  match c with
  | Var _ _ => get_definition w c = None
  | Constant _ _ => True
  | Operation _ _ => False
  end.

Lemma postorder_leaf (w : World) (fuel : nat) (c : WorldObject) :
  leaf w c -> postorder w fuel c = [c].
Proof.
  destruct c as [n s|u s|k ops]; simpl; intros H.
  - destruct fuel; simpl; rewrite ?H; reflexivity.
  - destruct fuel; reflexivity.
  - contradiction.
Qed.

Lemma postorder_binary (w : World) (fuel : nat) (k : OperationKind)
      (a b : WorldObject) :
  leaf w a -> leaf w b ->
  postorder w fuel (Operation k [a; b]) = [a; b; Operation k [a; b]].
Proof.
  intros Ha Hb.
  replace (postorder w fuel (Operation k [a; b]))
    with (flat_map (postorder w fuel) [a; b] ++ [Operation k [a; b]])
    by (destruct fuel; reflexivity).
  cbn [flat_map]. rewrite !postorder_leaf by assumption. reflexivity.
Qed.

Lemma postorder_defined (w : World) (fuel : nat) (v t : WorldObject) :
  is_BaseVariable v = true -> get_definition w v = Some t ->
  postorder w (S fuel) v = postorder w fuel t ++ [v].
Proof.
  intros Hv Hd. destruct v; try discriminate. simpl. rewrite Hd. reflexivity.
Qed.

Lemma lookup_not_key (n : WorldObject) ds :
  lookup n ds = None ->
  forall d, In d ds -> WorldObject_eqb n (fst d) = false.
Proof.
  induction ds as [|[k t] ds IH]; intros H d Hd; [contradiction|].
  simpl in H. destruct (WorldObject_eqb n k) eqn:E; [discriminate|].
  destruct Hd as [<- | Hd]; [exact E | apply IH; assumption].
Qed.

Lemma lookup_fresh (n : N) (v : WorldObject) ds :
  forallb (fun d => below n (fst d) && below n (snd d)) ds = true ->
  below n v = false -> lookup v ds = None.
Proof.
  intros Hds Hv. induction ds as [|[k t] ds IH]; [reflexivity|].
  simpl in *. rewrite !andb_true_iff in Hds. destruct Hds as [[Hk _] Hds].
  destruct (WorldObject_eqb v k) eqn:E.
  - apply WorldObject_eqb_eq in E. congruence.
  - apply IH. exact Hds.
Qed.

Lemma lookup_not_variable (n : WorldObject) ds :
  forallb (fun d : WorldObject * WorldObject => is_BaseVariable (fst d)) ds = true ->
  is_BaseVariable n = false -> lookup n ds = None.
Proof.
  intros Hds Hn. induction ds as [|[k t] ds IH]; [reflexivity|].
  simpl in *. rewrite andb_true_iff in Hds. destruct Hds as [Hk Hds].
  destruct (WorldObject_eqb n k) eqn:E.
  - apply WorldObject_eqb_eq in E. congruence.
  - apply IH. exact Hds.
Qed.

Lemma mem_In (c : WorldObject) (l : list WorldObject) :
  mem c l = true <-> In c l.
Proof.
  unfold mem. rewrite existsb_exists. split.
  - intros (x & Hx & E). apply WorldObject_eqb_eq in E. subst. exact Hx.
  - intros H. exists c. split; [exact H | apply WorldObject_eqb_refl].
Qed.

Lemma copy_world_init (w : World) (t : WorldObject) :
  world_ok w = true -> is_Variable t = false ->
  init w t false
  = (copy_world w (fresh w false (size_of t)) t,
     mkCondition (fresh w false (size_of t)) (ident w)).
Proof.
  intros Hw Ht. rewrite init_wraps by exact Ht. f_equal.
  unfold define, copy_world, advance. cbn [ident definitions counter].
  rewrite (unbind_fresh (counter w)); [reflexivity|exact Hw|apply fresh_not_below].
Qed.

Lemma copy_world_get_same (w : World) (v t : WorldObject) :
  get_definition (copy_world w v t) v = Some t.
Proof.
  unfold get_definition, copy_world. cbn [definitions lookup].
  rewrite WorldObject_eqb_refl. reflexivity.
Qed.

Lemma copy_world_get_other (w : World) (v t u : WorldObject) :
  u <> v -> get_definition (copy_world w v t) u = get_definition w u.
Proof.
  intros H. unfold get_definition, copy_world. cbn [definitions lookup].
  apply WorldObject_eqb_neq in H. rewrite H. reflexivity.
Qed.

Lemma copy_world_within (w : World) (v t old new : WorldObject)
      (nodes : list WorldObject) :
  In v nodes -> Forall (fun n => get_definition w n = None) nodes ->
  replace_within nodes (copy_world w v t) old new
  = copy_world w v (subst old new t).
Proof.
  intros Hv Hnodes. unfold replace_within, copy_world.
  cbn [ident definitions counter map fst snd].
  replace (mem v nodes) with true by (symmetry; apply mem_In; exact Hv).
  f_equal. f_equal.
  rewrite <- (map_id (definitions w)) at 2. apply map_ext_in.
  intros d Hd. replace (mem (fst d) nodes) with false; [reflexivity|].
  symmetry. destruct (mem (fst d) nodes) eqn:E; [|reflexivity].
  apply mem_In in E. rewrite Forall_forall in Hnodes.
  pose proof (lookup_not_key _ _ (Hnodes _ E) d Hd) as Hk.
  rewrite WorldObject_eqb_refl in Hk. discriminate.
Qed.

Lemma copy_world_redefine (w : World) (t : WorldObject) (size : N)
      (f : WorldObject -> WorldObject) :
  world_ok w = true ->
  redefine (copy_world w (fresh w false size) t) (fresh w false size) f
  = copy_world w (fresh w false size) (f t).
Proof.
  intros Hw. unfold redefine, copy_world.
  cbn [ident definitions counter map fst snd].
  rewrite WorldObject_eqb_refl.
  rewrite (map_redefine_fresh (counter w)); [reflexivity|exact Hw|].
  apply fresh_not_below.
Qed.

(** ** The lowered comparisons and the numeric step *)

Lemma convert_variable (x : Expression) (size : N) :
  is_pseudo_Constant x = false ->
  _convert_expression x size = variable (_variable_name_for x) size.
Proof. destruct x; simpl; intros H; [reflexivity|discriminate|reflexivity]. Qed.

Lemma width_of_comparison (size : N) : 5 <= size -> N.max (N.max size size) 1 = size.
Proof. lia. Qed.

Lemma encoding_less (x : Expression) :
  is_pseudo_Constant x = false -> 5 <= type_size x ->
  encoding (less_than_ten x)
  = Operation SignedLt [variable (_variable_name_for x) (type_size x);
                        constant 10 (type_size x)].
Proof.
  intros Hx Hs. unfold encoding, less_than_ten, _get_custom_condition_of.
  cbn [fst left right operation type_size SHORTHAND].
  rewrite width_of_comparison by exact Hs.
  rewrite convert_variable by exact Hx. reflexivity.
Qed.

Lemma encoding_equal (x : Expression) :
  is_pseudo_Constant x = false -> 5 <= type_size x ->
  encoding (equal_to_five x)
  = Operation BoolEqual [variable (_variable_name_for x) (type_size x);
                         constant 5 (type_size x)].
Proof.
  intros Hx Hs. unfold encoding, equal_to_five, _get_custom_condition_of.
  cbn [fst left right operation type_size SHORTHAND].
  rewrite width_of_comparison by exact Hs.
  rewrite convert_variable by exact Hx. reflexivity.
Qed.

Lemma half_range (size : N) : 5 <= size -> (16 <= 2 ^ (Z.of_N size - 1))%Z.
Proof.
  intros H. change 16%Z with (2 ^ 4)%Z. apply Z.pow_le_mono_r; lia.
Qed.

Lemma five_below_ten (size : N) :
  5 <= size ->
  compare_values SignedLt (Z.to_N (5 mod 2 ^ Z.of_N size))
                 (Z.to_N (10 mod 2 ^ Z.of_N size)) size = true.
Proof.
  intros H. pose proof (half_range size H) as Hr.
  unfold compare_values.
  rewrite !signed_of_constant by lia. reflexivity.
Qed.

Lemma numeric_simplify_less_equal (v : WorldObject) (size : N) :
  is_BaseVariable v = true -> 5 <= size ->
  numeric_simplify
    (bitwise_and [Operation SignedLt [v; constant 10 size];
                  Operation BoolEqual [v; constant 5 size]])
  = Operation BoolEqual [v; constant 5 size].
Proof.
  intros Hv Hs. destruct v as [n s| |]; try discriminate.
  unfold numeric_simplify, bitwise_and, constant.
  cbn [find_equality equality_of existsb filter decided is_comparison].
  rewrite !WorldObject_eqb_refl. cbn [andb].
  rewrite five_below_ten by exact Hs.
  cbn [compare_values]. rewrite N.eqb_refl. reflexivity.
Qed.

Lemma numeric_simplify_equal_less (v : WorldObject) (size : N) :
  is_BaseVariable v = true -> 5 <= size ->
  numeric_simplify
    (bitwise_and [Operation BoolEqual [v; constant 5 size];
                  Operation SignedLt [v; constant 10 size]])
  = Operation BoolEqual [v; constant 5 size].
Proof.
  intros Hv Hs. destruct v as [n s| |]; try discriminate.
  unfold numeric_simplify, bitwise_and, constant.
  cbn [find_equality equality_of existsb filter decided is_comparison].
  rewrite !WorldObject_eqb_refl. cbn [andb].
  rewrite five_below_ten by exact Hs.
  cbn [compare_values]. rewrite N.eqb_refl. reflexivity.
Qed.

(** ** An edge of the un-shared copy *)

Lemma replace_edge_run (nodes : list WorldObject) (w : World)
      (v : WorldObject) (k : OperationKind) (ops : list WorldObject)
      (s e : WorldObject) (i : nat) :
  In v nodes -> Forall (fun n => get_definition w n = None) nodes ->
  replace_edge nodes s e (copy_world w v (Operation k ops), Operation k ops) i
  = (copy_world w v
       (Operation k (insert_at i e
          (filter (fun o => negb (WorldObject_eqb o s)) ops))),
     Operation k (insert_at i e
          (filter (fun o => negb (WorldObject_eqb o s)) ops))).
Proof.
  intros Hv Hn. unfold replace_edge, remove_operand_within, add_operand_within.
  cbn [operands_of].
  rewrite copy_world_within, subst_same by assumption.
  rewrite copy_world_within, subst_same by assumption.
  reflexivity.
Qed.

Lemma parents_within (nodes : list WorldObject) (w : World)
      (v t s : WorldObject) :
  In t nodes ->
  existsb (WorldObject_eqb s) (operands_of t) = true ->
  (forall n, In n nodes ->
             existsb (WorldObject_eqb s) (operands_of n) = true -> n = t) ->
  filter (fun p => mem p nodes) (parent_operation (copy_world w v t) s) = [t].
Proof.
  intros Ht Hs Hn. unfold parent_operation. apply dedup_filter_single.
  - intros n Hin Hmem. apply filter_In in Hin. destruct Hin as [_ Hop].
    apply Hn; [apply mem_In; exact Hmem | exact Hop].
  - apply mem_In. exact Ht.
  - apply filter_In. split; [|exact Hs].
    unfold copy_world. cbn [definitions flat_map snd].
    apply in_or_app. left. destruct t; left; reflexivity.
Qed.

Lemma replace_symbol_first (nodes : list WorldObject) (w : World)
      (v : WorldObject) (k : OperationKind) (s q e : WorldObject) :
  In v nodes -> In (Operation k [s; q]) nodes ->
  Forall (fun n => get_definition w n = None) nodes ->
  (forall n, In n nodes ->
             existsb (WorldObject_eqb s) (operands_of n) = true ->
             n = Operation k [s; q]) ->
  q <> s ->
  _replace_symbol (copy_world w v (Operation k [s; q])) s e nodes
  = (copy_world w v (Operation k [e; q]),
     subst (Operation k [s; q]) (Operation k [e; q])).
Proof.
  intros Hv Ht Hn Hp Hq. unfold _replace_symbol.
  rewrite parents_within; [|exact Ht| |exact Hp].
  2:{ cbn [operands_of existsb]. rewrite WorldObject_eqb_refl. reflexivity. }
  apply WorldObject_eqb_neq in Hq.
  cbn [fold_left]. unfold get_relation. cbn [operands_of relation_indices].
  rewrite WorldObject_eqb_refl, Hq. cbn [fold_left].
  rewrite replace_edge_run by assumption.
  cbn [filter]. rewrite WorldObject_eqb_refl, Hq. cbn [negb insert_at].
  reflexivity.
Qed.

Lemma replace_symbol_second (nodes : list WorldObject) (w : World)
      (v : WorldObject) (k : OperationKind) (p s e : WorldObject) :
  In v nodes -> In (Operation k [p; s]) nodes ->
  Forall (fun n => get_definition w n = None) nodes ->
  (forall n, In n nodes ->
             existsb (WorldObject_eqb s) (operands_of n) = true ->
             n = Operation k [p; s]) ->
  p <> s ->
  _replace_symbol (copy_world w v (Operation k [p; s])) s e nodes
  = (copy_world w v (Operation k [p; e]),
     subst (Operation k [p; s]) (Operation k [p; e])).
Proof.
  intros Hv Ht Hn Hp Hq. unfold _replace_symbol.
  rewrite parents_within; [|exact Ht| |exact Hp].
  2:{ cbn [operands_of existsb]. rewrite WorldObject_eqb_refl.
      apply orb_true_r. }
  apply WorldObject_eqb_neq in Hq.
  cbn [fold_left]. unfold get_relation. cbn [operands_of relation_indices].
  rewrite WorldObject_eqb_refl, Hq. cbn [fold_left].
  rewrite replace_edge_run by assumption.
  cbn [filter]. rewrite WorldObject_eqb_refl, Hq. cbn [negb insert_at].
  reflexivity.
Qed.

Lemma subst_variable (old new v : WorldObject) :
  is_BaseVariable v = true -> is_Operation old = true -> subst old new v = v.
Proof.
  destruct v; try discriminate. destruct old; try discriminate. reflexivity.
Qed.

(** ** Lowering a conjunction of two symbols *)

Lemma encoding_operation (c : Condition) : is_Operation (encoding c) = true.
Proof.
  unfold encoding, _get_custom_condition_of. cbn [fst].
  destruct (operation c); reflexivity.
Qed.

Lemma defined_below (w : World) (v t : WorldObject) :
  world_ok w = true -> get_definition w v = Some t ->
  below (counter w) t = true.
Proof. intros Hw Hd. eapply lookup_below; [exact Hw | exact Hd]. Qed.

Lemma fresh_undefined (w : World) (tmp : bool) (size : N) :
  world_ok w = true -> get_definition w (fresh w tmp size) = None.
Proof.
  intros Hw. unfold get_definition.
  apply (lookup_fresh (counter w)); [exact Hw | apply fresh_not_below].
Qed.

Lemma operation_undefined (w : World) (t : WorldObject) :
  keys_ok w = true -> is_BaseVariable t = false -> get_definition w t = None.
Proof. intros Hk Ht. apply lookup_not_variable; assumption. Qed.

Lemma below_not_fresh (w : World) (tmp : bool) (size : N) (t : WorldObject) :
  below (counter w) t = true -> t <> fresh w tmp size.
Proof.
  intros H ->. rewrite fresh_not_below in H. discriminate.
Qed.

Lemma postorder_copy (w : World) (v a b : WorldObject) (k : OperationKind) :
  is_BaseVariable v = true ->
  leaf (copy_world w v (Operation k [a; b])) a ->
  leaf (copy_world w v (Operation k [a; b])) b ->
  postorder (copy_world w v (Operation k [a; b]))
            (List.length (definitions (copy_world w v (Operation k [a; b])))) v
  = [a; b; Operation k [a; b]; v].
Proof.
  intros Hv Ha Hb. unfold copy_world at 2. cbn [definitions List.length].
  rewrite (postorder_defined _ _ v (Operation k [a; b]));
    [|exact Hv|apply copy_world_get_same].
  rewrite postorder_binary by assumption. reflexivity.
Qed.

Lemma NoDup_four (a b c d : WorldObject) :
  a <> b -> a <> c -> a <> d -> b <> c -> b <> d -> c <> d -> NoDup [a; b; c; d].
Proof.
  intros. repeat constructor; simpl; intuition congruence.
Qed.

Lemma NoDup_three (a b c : WorldObject) :
  a <> b -> a <> c -> b <> c -> NoDup [a; b; c].
Proof.
  intros. repeat constructor; simpl; intuition congruence.
Qed.

Lemma lowering (w : World) (self : CustomLogicCondition)
      (handler : ConditionHandler) (a b : WorldObject) :
  world_ok w = true -> keys_ok w = true ->
  get_definition w (_variable self) = Some (bitwise_and [a; b]) ->
  _is_symbol w a = true -> _is_symbol w b = true -> a <> b ->
  _replace_symbols_by_real_conditions w self handler
  = (copy_world w (fresh w false (size_of (bitwise_and [a; b])))
       (bitwise_and [encoding (conditionOf handler a);
                     encoding (conditionOf handler b)]),
     mkCondition (fresh w false (size_of (bitwise_and [a; b]))) (ident w),
     compare_operands (conditionOf handler b)
       (compare_operands (conditionOf handler a) [])).
Proof.
  intros Hw Hk Hself Ha Hb Hab.
  set (t := bitwise_and [a; b]) in *.
  set (v := fresh w false (size_of t)).
  pose proof (is_symbol_undefined _ _ Ha) as [Hva Hda].
  pose proof (is_symbol_undefined _ _ Hb) as [Hvb Hdb].
  pose proof (defined_below _ _ _ Hw Hself) as Ht.
  assert (Hba : below (counter w) a = true /\ below (counter w) b = true).
  { unfold t, bitwise_and in Ht. cbn [below forallb] in Ht.
    rewrite !andb_true_iff in Ht. tauto. }
  destruct Hba as [Hba Hbb].
  assert (Hav : a <> v) by (apply below_not_fresh; exact Hba).
  assert (Hbv : b <> v) by (apply below_not_fresh; exact Hbb).
  assert (Hsv : _variable self <> v).
  { intros E. rewrite E in Hself. unfold v in Hself.
    rewrite fresh_undefined in Hself by exact Hw. discriminate. }
  assert (Hbva : is_BaseVariable a = true) by (destruct a as [[|? []]| |]; try discriminate; reflexivity).
  assert (Hbvb : is_BaseVariable b = true) by (destruct b as [[|? []]| |]; try discriminate; reflexivity).
  assert (Hat : a <> t) by (intros E; rewrite E in Hbva; discriminate).
  assert (Hbt : b <> t) by (intros E; rewrite E in Hbvb; discriminate).
  assert (Htv : t <> v) by discriminate.
  pose proof (encoding_operation (conditionOf handler a)) as Hea.
  pose proof (encoding_operation (conditionOf handler b)) as Heb.
  set (ea := encoding (conditionOf handler a)) in *.
  set (eb := encoding (conditionOf handler b)) in *.
  unfold _replace_symbols_by_real_conditions.
  assert (Hcs : _condition w self = t) by (unfold _condition; rewrite Hself; reflexivity).
  rewrite Hcs. rewrite copy_world_init by (exact Hw || reflexivity).
  fold v. unfold free_world_condition. cbn [_variable].
  set (w1 := copy_world w v t).
  assert (Hla : leaf w1 a).
  { destruct a; try discriminate. unfold leaf, w1.
    rewrite copy_world_get_other by exact Hav. exact Hda. }
  assert (Hlb : leaf w1 b).
  { destruct b; try discriminate. unfold leaf, w1.
    rewrite copy_world_get_other by exact Hbv. exact Hdb. }
  assert (Hnodes : iter_postorder w1 v = [a; b; t; v]).
  { unfold iter_postorder, w1, t, bitwise_and.
    rewrite postorder_copy; [|reflexivity|exact Hla|exact Hlb].
    apply dedup_nodup. apply NoDup_four; assumption. }
  rewrite Hnodes.
  assert (Hcs1 : _condition w1 self = t).
  { unfold _condition, w1. rewrite copy_world_get_other by exact Hsv.
    rewrite Hself. reflexivity. }
  assert (Hsyms : get_symbols w1 self
                  = [mkCondition a (context self); mkCondition b (context self)]).
  { unfold get_symbols, _get_symbols. rewrite Hcs1.
    unfold iter_postorder, t, bitwise_and. rewrite postorder_binary by assumption.
    rewrite dedup_nodup by (apply NoDup_three; assumption).
    assert (Hs : forall c, _is_symbol w c = true -> c <> v -> _is_symbol w1 c = true).
    { intros c Hc Hcv. unfold _is_symbol in *. unfold w1.
      rewrite copy_world_get_other by exact Hcv. exact Hc. }
    cbn [filter]. rewrite (Hs a Ha Hav), (Hs b Hb Hbv).
    replace (_is_symbol w1 (Operation BitwiseAnd [a; b])) with false by reflexivity.
    reflexivity. }
  rewrite Hsyms. cbn [fold_left].
  assert (Hundefined : forall u, is_Operation u = true ->
            Forall (fun n => get_definition w n = None) [a; b; u; v]).
  { intros u Hu. repeat constructor; try assumption.
    - apply operation_undefined; [exact Hk|]. destruct u; try discriminate; reflexivity.
    - apply fresh_undefined. exact Hw. }
  assert (Hparent : forall s u, In s [a; b; u; v] ->
            forall c, existsb (WorldObject_eqb c) (operands_of s) = true -> s = u).
  { intros s u Hin c Hc. simpl in Hin.
    destruct Hin as [<- | [<- | [<- | [<- | []]]]]; try reflexivity.
    - destruct a; try discriminate.
    - destruct b; try discriminate.
    - discriminate. }
  assert (Hfirst :
    replace_symbol_step handler (w1, [], [a; b; t; v])
                        (mkCondition a (context self))
    = (copy_world w v (Operation BitwiseAnd [ea; b]),
       compare_operands (conditionOf handler a) [],
       [a; b; Operation BitwiseAnd [ea; b]; v])).
  { unfold replace_symbol_step.
    unfold get_condition_of, get_z3_condition_of. cbn [_variable].
    assert (Hca : _condition w1 (mkCondition a (context self)) = a).
    { unfold _condition. cbn [_variable].
      destruct a; try discriminate. unfold leaf in Hla. rewrite Hla. reflexivity. }
    rewrite Hca. fold (encoding (conditionOf handler a)). fold ea.
    unfold w1, t, bitwise_and.
    rewrite replace_symbol_first.
    2:{ simpl; tauto. }
    2:{ simpl; tauto. }
    2:{ apply (Hundefined (Operation BitwiseAnd [a; b])). reflexivity. }
    2:{ intros n Hn Hop. eapply Hparent; eauto. }
    2:{ congruence. }
    cbn [map].
    rewrite !subst_variable by (assumption || reflexivity).
    rewrite subst_same. reflexivity. }
  assert (Hsecond :
    replace_symbol_step handler
      (copy_world w v (Operation BitwiseAnd [ea; b]),
       compare_operands (conditionOf handler a) [],
       [a; b; Operation BitwiseAnd [ea; b]; v])
      (mkCondition b (context self))
    = (copy_world w v (Operation BitwiseAnd [ea; eb]),
       compare_operands (conditionOf handler b)
         (compare_operands (conditionOf handler a) []),
       [a; b; Operation BitwiseAnd [ea; eb]; v])).
  { unfold replace_symbol_step.
    unfold get_condition_of, get_z3_condition_of. cbn [_variable].
    assert (Hcb : _condition (copy_world w v (Operation BitwiseAnd [ea; b]))
                             (mkCondition b (context self)) = b).
    { unfold _condition. cbn [_variable].
      rewrite copy_world_get_other by exact Hbv. rewrite Hdb. reflexivity. }
    rewrite Hcb. fold (encoding (conditionOf handler b)). fold eb.
    rewrite replace_symbol_second.
    2:{ simpl; tauto. }
    2:{ simpl; tauto. }
    2:{ apply (Hundefined (Operation BitwiseAnd [ea; b])). reflexivity. }
    2:{ intros n Hn Hop. eapply Hparent; eauto. }
    2:{ intros E. rewrite E in Hea. rewrite <- Hbvb in Hea.
        destruct b; discriminate. }
    cbn [map].
    rewrite !subst_variable by (assumption || reflexivity).
    rewrite subst_same. reflexivity. }
  rewrite Hfirst, Hsecond. reflexivity.
Qed.

(** ** The replacement dictionary *)

Lemma dict_set_In (k v k' v' : WorldObject) (d : list (WorldObject * WorldObject)) :
  In (k', v') (dict_set k v d) -> (k' = k /\ v' = v) \/ In (k', v') d.
Proof.
  induction d as [|[k0 v0] d IH]; simpl.
  - intros [E | []]. inversion E. left. split; reflexivity.
  - destruct (WorldObject_eqb k k0) eqn:E.
    + apply WorldObject_eqb_eq in E. subst k0. simpl.
      intros [H | H]; [inversion H; left; split; reflexivity | right; right; exact H].
    + simpl. intros [H | H]; [right; left; exact H|].
      destruct (IH H) as [H' | H']; [left; exact H' | right; right; exact H'].
Qed.

Lemma dict_set_same (k v : WorldObject) (d : list (WorldObject * WorldObject)) :
  In (k, v) (dict_set k v d).
Proof.
  induction d as [|[k0 v0] d IH]; simpl; [left; reflexivity|].
  destruct (WorldObject_eqb k k0) eqn:E.
  - apply WorldObject_eqb_eq in E. subst k0. left. reflexivity.
  - right. exact IH.
Qed.

Lemma dict_set_other (k v k' v' : WorldObject) (d : list (WorldObject * WorldObject)) :
  In (k', v') d -> k' <> k -> In (k', v') (dict_set k v d).
Proof.
  induction d as [|[k0 v0] d IH]; simpl; [tauto|].
  intros [H | H] Hk.
  - inversion H; subst k0 v0.
    destruct (WorldObject_eqb k k') eqn:E.
    + apply WorldObject_eqb_eq in E. congruence.
    + left. reflexivity.
  - destruct (WorldObject_eqb k k0); right; [exact H | apply IH; assumption].
Qed.

Section ReplacementDictionary.

Variable w : World.
Variable compared_expressions : ComparedExpressions.
Variable handler : ConditionHandler.

(** The comparison looked up, and the symbol registered for it. *)
Variable operand : WorldObject.
Variable symbol : WorldObject.

Definition known (d : list (WorldObject * WorldObject)) : Prop :=
  forall k v, In (k, v) d ->
              compare k (negate operand) = false /\
              (compare k operand = true -> v = symbol).

Definition registered (d : list (WorldObject * WorldObject)) : Prop :=
  exists k v, In (k, v) d /\ compare k operand = true.

Definition dict_step (d : list (WorldObject * WorldObject))
           (e : CustomLogicCondition * WorldObject)
  : list (WorldObject * WorldObject) :=
  if existsb (fun o => match compared compared_expressions o with
                       | Some _ => true
                       | None => false
                       end)
             (operands_of (snd e))
  then dict_set (snd e) (_condition w (fst e)) d
  else d.

Lemma find_replacement_known (d : list (WorldObject * WorldObject)) :
  known d -> registered d ->
  find_replacement d operand (negate operand) = Some symbol.
Proof.
  induction d as [|[k v] d IH]; intros Hk (k0 & v0 & Hin & Hc); [contradiction|].
  cbn [find_replacement].
  destruct (Hk k v (or_introl eq_refl)) as [Hneg Hsym].
  destruct (compare k operand) eqn:E.
  - rewrite Hsym by reflexivity. reflexivity.
  - rewrite Hneg. apply IH.
    + intros k' v' H. apply Hk. right. exact H.
    + destruct Hin as [Hin | Hin].
      * inversion Hin; subst. congruence.
      * exists k0, v0. split; assumption.
Qed.

Lemma dict_step_known (d : list (WorldObject * WorldObject))
      (e : CustomLogicCondition * WorldObject) :
  compare (snd e) (negate operand) = false ->
  (compare (snd e) operand = true -> _condition w (fst e) = symbol) ->
  known d -> known (dict_step d e).
Proof.
  intros Hneg Hsym Hd. unfold dict_step.
  destruct (existsb _ _); [|exact Hd].
  intros k v Hin. apply dict_set_In in Hin.
  destruct Hin as [[-> ->] | Hin]; [split; assumption | apply Hd; exact Hin].
Qed.

Lemma dict_step_registered (d : list (WorldObject * WorldObject))
      (e : CustomLogicCondition * WorldObject) :
  registered d -> registered (dict_step d e).
Proof.
  intros (k & v & Hin & Hc). unfold dict_step.
  destruct (existsb _ _); [|exists k, v; split; assumption].
  destruct (WorldObject_eqb k (snd e)) eqn:E.
  - apply WorldObject_eqb_eq in E. subst k.
    exists (snd e), (_condition w (fst e)). split; [apply dict_set_same | exact Hc].
  - apply WorldObject_eqb_neq in E.
    exists k, v. split; [apply dict_set_other; assumption | exact Hc].
Qed.

Lemma dict_fold_known (l : list (CustomLogicCondition * WorldObject))
      (d : list (WorldObject * WorldObject)) :
  (forall e, In e l ->
             compare (snd e) (negate operand) = false /\
             (compare (snd e) operand = true -> _condition w (fst e) = symbol)) ->
  known d -> known (fold_left dict_step l d).
Proof.
  revert d. induction l as [|e l IH]; intros d Hl Hd; [exact Hd|].
  cbn [fold_left]. apply IH.
  - intros e' He'. apply Hl. right. exact He'.
  - destruct (Hl e (or_introl eq_refl)). apply dict_step_known; assumption.
Qed.

Lemma dict_fold_registered (l : list (CustomLogicCondition * WorldObject))
      (d : list (WorldObject * WorldObject)) :
  registered d -> registered (fold_left dict_step l d).
Proof.
  revert d. induction l as [|e l IH]; intros d Hd; [exact Hd|].
  cbn [fold_left]. apply IH. apply dict_step_registered. exact Hd.
Qed.

Lemma dict_fold_registers (l : list (CustomLogicCondition * WorldObject))
      (d : list (WorldObject * WorldObject)) (e : CustomLogicCondition * WorldObject) :
  In e l -> compare (snd e) operand = true ->
  existsb (fun o => match compared compared_expressions o with
                    | Some _ => true
                    | None => false
                    end)
          (operands_of (snd e)) = true ->
  registered (fold_left dict_step l d).
Proof.
  revert d. induction l as [|e' l IH]; intros d Hin Hc Hop; [contradiction|].
  cbn [fold_left]. destruct Hin as [-> | Hin].
  - apply dict_fold_registered. unfold dict_step. rewrite Hop.
    exists (snd e), (_condition w (fst e)). split; [apply dict_set_same | exact Hc].
  - apply IH; assumption.
Qed.

Lemma replacement_dict_finds :
  (forall s, In s (symbols handler) ->
             compare (get_z3_condition_of handler s) (negate operand) = false /\
             (compare (get_z3_condition_of handler s) operand = true ->
              _condition w s = symbol)) ->
  (exists s, In s (symbols handler) /\
             compare (get_z3_condition_of handler s) operand = true /\
             existsb (fun o => match compared compared_expressions o with
                               | Some _ => true
                               | None => false
                               end)
                     (operands_of (get_z3_condition_of handler s)) = true) ->
  find_replacement (replacement_dict_of w compared_expressions handler)
                   operand (negate operand)
  = Some symbol.
Proof.
  intros Hall (s & Hs & Hc & Hop).
  change (replacement_dict_of w compared_expressions handler)
    with (fold_left dict_step (get_z3_condition_map handler) []).
  apply find_replacement_known.
  - apply dict_fold_known; [|intros k v []].
    intros e He. unfold get_z3_condition_map in He. apply in_map_iff in He.
    destruct He as (s' & <- & Hs'). cbn [fst snd]. apply Hall. exact Hs'.
  - apply (dict_fold_registers _ _ (s, get_z3_condition_of handler s)).
    + unfold get_z3_condition_map. apply in_map_iff. exists s. split; [reflexivity|exact Hs].
    + exact Hc.
    + exact Hop.
Qed.

End ReplacementDictionary.

(** ** Lifting a comparison to its symbol *)

Lemma lifting (w : World) (handler : ConditionHandler)
      (ce : ComparedExpressions) (size : N) (i : nat)
      (k : OperationKind) (x c symbol : WorldObject) :
  world_ok w = true -> keys_ok w = true ->
  is_comparison k = true ->
  is_BaseVariable x = true -> get_definition w x = None ->
  x <> fresh w false size ->
  is_Constant c = true ->
  find_replacement
    (replacement_dict_of (copy_world w (fresh w false size) (Operation k [x; c]))
                         ce handler)
    (Operation k [x; c]) (negate (Operation k [x; c])) = Some symbol ->
  _replace_real_conditions_by_symbols
    (copy_world w (fresh w false size) (Operation k [x; c]))
    (mkCondition (fresh w false size) i) ce handler
  = Ok (copy_world w (fresh w false size) symbol, handler).
Proof.
  intros Hw Hk Hcmp Hx Hdx Hxv Hc Hfind.
  set (v := fresh w false size) in *.
  set (t := Operation k [x; c]) in *.
  unfold _replace_real_conditions_by_symbols. cbn [_variable].
  assert (Hnodes : iter_postorder (copy_world w v t) v = [x; c; t; v]).
  { unfold iter_postorder, t. rewrite postorder_copy.
    - apply dedup_nodup.
      apply NoDup_four; try discriminate; try assumption;
        destruct x, c; discriminate.
    - reflexivity.
    - destruct x; try discriminate. unfold leaf.
      rewrite copy_world_get_other by exact Hxv. exact Hdx.
    - destruct c; try discriminate. exact I. }
  rewrite Hnodes.
  assert (Hfilter : filter (fun node => match node with
                                        | Operation k' _ => is_comparison k'
                                        | _ => false
                                        end) [x; c; t; v] = [t]).
  { destruct x; try discriminate. destruct c; try discriminate.
    cbn [filter]. unfold t. rewrite Hcmp. reflexivity. }
  rewrite Hfilter. cbn [fold_left].
  unfold replace_real_condition. cbn [bind rs_track rs_world rs_handler].
  rewrite Hfind.
  rewrite copy_world_within, subst_same.
  - reflexivity.
  - simpl; tauto.
  - repeat constructor.
    + exact Hdx.
    + apply operation_undefined; [exact Hk|]. destruct c; try discriminate; reflexivity.
    + apply operation_undefined; [exact Hk|]. reflexivity.
    + apply fresh_undefined. exact Hw.
Qed.

(** ** Redundancy removal on a conjunction of two symbols *)

Lemma remove_redundancy_run (w : World) (self : CustomLogicCondition)
      (handler : ConditionHandler) (a b : WorldObject)
      (k : OperationKind) (x c symbol : WorldObject) :
  world_ok w = true -> keys_ok w = true ->
  get_definition w (_variable self) = Some (bitwise_and [a; b]) ->
  _is_symbol w a = true -> _is_symbol w b = true -> a <> b ->
  numeric_simplify (bitwise_and [encoding (conditionOf handler a);
                                 encoding (conditionOf handler b)])
  = Operation k [x; c] ->
  is_comparison k = true ->
  is_BaseVariable x = true -> below (counter w) x = true ->
  get_definition w x = None -> is_Constant c = true ->
  find_replacement
    (replacement_dict_of
       (copy_world w (fresh w false (size_of (bitwise_and [a; b])))
                   (Operation k [x; c]))
       (compare_operands (conditionOf handler b)
          (compare_operands (conditionOf handler a) []))
       handler)
    (Operation k [x; c]) (negate (Operation k [x; c])) = Some symbol ->
  remove_redundancy numeric_simplify w self handler
  = Ok (replace (copy_world w (fresh w false (size_of (bitwise_and [a; b]))) symbol)
                (bitwise_and [a; b]) symbol,
        handler, self).
Proof.
  intros Hw Hk Hself Ha Hb Hab Hnum Hcmp Hx Hbx Hdx Hc Hfind.
  assert (Hcs : _condition w self = bitwise_and [a; b])
    by (unfold _condition; rewrite Hself; reflexivity).
  assert (Hsv : _variable self <> fresh w false (size_of (bitwise_and [a; b]))).
  { intros E. rewrite E in Hself.
    rewrite fresh_undefined in Hself by exact Hw. discriminate. }
  unfold remove_redundancy.
  unfold is_literal, is_true, is_false. rewrite !Hcs.
  replace (_is_literal w (bitwise_and [a; b])) with false by reflexivity.
  cbn [bitwise_and orb is_Operation negb].
  fold (bitwise_and [a; b]).
  rewrite (lowering w self handler a b) by assumption.
  unfold free_world_condition. cbn [_variable].
  unfold simplify. cbn [_variable].
  replace (is_Variable (fresh w false (size_of (bitwise_and [a; b])))) with true
    by reflexivity.
  unfold free_world_condition, simplify_variable.
  rewrite copy_world_redefine by exact Hw. rewrite Hnum.
  rewrite (lifting w handler _ _ (ident w) k x c symbol); try assumption.
  2:{ apply below_not_fresh. exact Hbx. }
  cbn [bind]. unfold cleanup. cbn [fold_left].
  assert (H1 : _condition (copy_world w (fresh w false (size_of (bitwise_and [a; b]))) symbol) self
               = bitwise_and [a; b]).
  { unfold _condition. rewrite copy_world_get_other by exact Hsv.
    rewrite Hself. reflexivity. }
  assert (H2 : _condition (copy_world w (fresh w false (size_of (bitwise_and [a; b]))) symbol)
                 (mkCondition (fresh w false (size_of (bitwise_and [a; b]))) (ident w))
               = symbol).
  { unfold _condition. cbn [_variable]. rewrite copy_world_get_same. reflexivity. }
  rewrite H1, H2. reflexivity.
Qed.

Lemma compare_negated_equality (ops : list WorldObject) :
  compare (Operation BoolEqual ops) (negate (Operation BoolEqual ops)) = false.
Proof. reflexivity. Qed.

(** C3: [remove_redundancy] on a conjunction of two symbols that the
    registry knows as [x < 10] and [x == 5], over the same expression [x] and
    in either order, replaces the whole formula by the existing symbol of
    [x == 5]: the call returns the same handle and the registry as it was,
    and afterwards the formula of the handle is that symbol, whose
    registered condition is [x == 5].  The symbols are lowered to their
    comparisons in an un-shared copy, the copy is simplified numerically, and
    the comparison that is left is lifted to the symbol registered for it.
    Here [x] is any expression that is not a constant, of a type in which 10
    is a signed value (five bits or more); the two symbols and the variable
    that stands for [x] have no definition in the graph, and no other
    registered symbol stands for [x == 5] or for its negation. *)
Theorem remove_redundancy_of_switch_case
        (w : World) (self : CustomLogicCondition) (handler : ConditionHandler)
        (name_less name_equal : string) (x : Expression) :
  world_ok w = true -> keys_ok w = true ->
  is_pseudo_Constant x = false -> 5 <= type_size x ->
  name_less <> name_equal ->
  get_definition w (variable name_less 1) = None ->
  get_definition w (variable name_equal 1) = None ->
  get_definition w (_convert_expression x (type_size x)) = None ->
  get_definition w (_variable self)
  = Some (bitwise_and [variable name_less 1; variable name_equal 1]) \/
  get_definition w (_variable self)
  = Some (bitwise_and [variable name_equal 1; variable name_less 1]) ->
  conditionOf handler (variable name_less 1) = less_than_ten x ->
  conditionOf handler (variable name_equal 1) = equal_to_five x ->
  In (variable name_equal 1) (map _variable (symbols handler)) ->
  (forall s, In s (symbols handler) -> _variable s <> variable name_equal 1 ->
             compare (get_z3_condition_of handler s)
                     (encoding (equal_to_five x)) = false /\
             compare (get_z3_condition_of handler s)
                     (negate (encoding (equal_to_five x))) = false) ->
  exists w',
    remove_redundancy numeric_simplify w self handler = Ok (w', handler, self) /\
    _condition w' self = variable name_equal 1 /\
    is_symbol w' self = true /\
    get_condition_of handler (mkCondition (_condition w' self) (context self))
    = equal_to_five x.
Proof.
  intros Hw Hk Hx Hsize Hnames Hdl Hde Hdx Hformula Hless Hequal Hreg Hother.
  set (s_less := variable name_less 1) in *.
  set (s_equal := variable name_equal 1) in *.
  rewrite convert_variable in Hdx by exact Hx.
  set (xv := variable (_variable_name_for x) (type_size x)) in *.
  assert (Hsl : _is_symbol w s_less = true)
    by (unfold _is_symbol; rewrite Hdl; reflexivity).
  assert (Hse : _is_symbol w s_equal = true)
    by (unfold _is_symbol; rewrite Hde; reflexivity).
  assert (Hne : s_less <> s_equal) by (unfold s_less, s_equal, variable; congruence).
  pose proof (encoding_less x Hx Hsize) as Hel. fold xv in Hel.
  pose proof (encoding_equal x Hx Hsize) as Hee. fold xv in Hee.
  assert (Hconst : is_Constant (constant 5 (type_size x)) = true) by reflexivity.
  (* what the registry finds for the comparison that is left *)
  assert (Hfind : forall w1 ce,
            get_definition w1 s_equal = None ->
            compared ce xv <> None ->
            find_replacement (replacement_dict_of w1 ce handler)
              (Operation BoolEqual [xv; constant 5 (type_size x)])
              (negate (Operation BoolEqual [xv; constant 5 (type_size x)]))
            = Some s_equal).
  { intros w1 ce Hd1 Hce. apply replacement_dict_finds.
    - intros s Hs. rewrite <- Hee.
      destruct (WorldObject_eqb (_variable s) s_equal) eqn:E.
      + apply WorldObject_eqb_eq in E. split.
        * unfold get_z3_condition_of. rewrite E, Hequal.
          fold (encoding (equal_to_five x)). rewrite Hee.
          apply compare_negated_equality.
        * intros _. unfold _condition. rewrite E, Hd1. reflexivity.
      + apply WorldObject_eqb_neq in E. destruct (Hother s Hs E) as [H1 H2].
        split; [exact H2 | rewrite H1; discriminate].
    - apply in_map_iff in Hreg. destruct Hreg as (s & Hv & Hs).
      exists s. split; [exact Hs|].
      unfold get_z3_condition_of. rewrite Hv. fold s_equal. rewrite Hequal.
      fold (encoding (equal_to_five x)). rewrite Hee. split.
      + apply compare_refl.
      + cbn [operands_of existsb].
        destruct (compared ce xv); [reflexivity | congruence]. }
  assert (Hce : forall c1 c2 ce,
            compared
              (compare_operands (mkRealCondition c1 x (PConstant 5 (type_size x)))
                 ce) xv <> None /\
            compared
              (compare_operands (mkRealCondition c2 x (PConstant 10 (type_size x)))
                 ce) xv <> None).
  { intros c1 c2 ce. unfold compare_operands.
    cbn [fold_left left right is_pseudo_Constant]. rewrite Hx.
    unfold xv, variable, compared. cbn [find fst snd].
    rewrite String.eqb_refl. split; discriminate. }
  destruct Hformula as [Hf | Hf].
  - eexists. split; [|split; [|split]].
    + apply (remove_redundancy_run w self handler s_less s_equal
               BoolEqual xv (constant 5 (type_size x)) s_equal);
        try assumption; try reflexivity.
      * rewrite Hless, Hequal, Hel, Hee.
        apply numeric_simplify_less_equal; [reflexivity | exact Hsize].
      * apply Hfind.
        -- rewrite copy_world_get_other by discriminate. exact Hde.
        -- rewrite Hequal. apply (Hce equal less).
    + unfold _condition. rewrite get_definition_replace.
      rewrite copy_world_get_other.
      * rewrite Hf. cbn [option_map]. apply subst_same.
      * intros E. rewrite E in Hf.
        rewrite fresh_undefined in Hf by exact Hw. discriminate.
    + unfold is_symbol, _condition. rewrite get_definition_replace.
      rewrite copy_world_get_other.
      * rewrite Hf. cbn [option_map]. rewrite subst_same.
        unfold _is_symbol. rewrite get_definition_replace.
        rewrite copy_world_get_other by discriminate. rewrite Hde. reflexivity.
      * intros E. rewrite E in Hf.
        rewrite fresh_undefined in Hf by exact Hw. discriminate.
    + unfold _condition. rewrite get_definition_replace.
      rewrite copy_world_get_other.
      * rewrite Hf. cbn [option_map]. rewrite subst_same.
        unfold get_condition_of. cbn [_variable]. exact Hequal.
      * intros E. rewrite E in Hf.
        rewrite fresh_undefined in Hf by exact Hw. discriminate.
  - eexists. split; [|split; [|split]].
    + apply (remove_redundancy_run w self handler s_equal s_less
               BoolEqual xv (constant 5 (type_size x)) s_equal);
        try assumption; try reflexivity.
      * congruence.
      * rewrite Hless, Hequal, Hel, Hee.
        apply numeric_simplify_equal_less; [reflexivity | exact Hsize].
      * apply Hfind.
        -- rewrite copy_world_get_other by discriminate. exact Hde.
        -- rewrite Hless. apply (Hce equal less).
    + unfold _condition. rewrite get_definition_replace.
      rewrite copy_world_get_other.
      * rewrite Hf. cbn [option_map]. apply subst_same.
      * intros E. rewrite E in Hf.
        rewrite fresh_undefined in Hf by exact Hw. discriminate.
    + unfold is_symbol, _condition. rewrite get_definition_replace.
      rewrite copy_world_get_other.
      * rewrite Hf. cbn [option_map]. rewrite subst_same.
        unfold _is_symbol. rewrite get_definition_replace.
        rewrite copy_world_get_other by discriminate. rewrite Hde. reflexivity.
      * intros E. rewrite E in Hf.
        rewrite fresh_undefined in Hf by exact Hw. discriminate.
    + unfold _condition. rewrite get_definition_replace.
      rewrite copy_world_get_other.
      * rewrite Hf. cbn [option_map]. rewrite subst_same.
        unfold get_condition_of. cbn [_variable]. exact Hequal.
      * intros E. rewrite E in Hf.
        rewrite fresh_undefined in Hf by exact Hw. discriminate.
Qed.

Lemma remove_redundancy_of_switch_case_witness :
  exists w',
    remove_redundancy numeric_simplify switch_world switch_formula switch_registry
    = Ok (w', switch_registry, switch_formula) /\
    _condition w' switch_formula = variable "x2" 1 /\
    is_symbol w' switch_formula = true /\
    get_condition_of switch_registry
      (mkCondition (_condition w' switch_formula) (context switch_formula))
    = equal_to_five switch_x.
Proof.
  apply (remove_redundancy_of_switch_case
           switch_world switch_formula switch_registry "x1" "x2" switch_x).
  - reflexivity.
  - reflexivity.
  - reflexivity.
  - vm_compute. discriminate.
  - discriminate.
  - reflexivity.
  - reflexivity.
  - reflexivity.
  - left. reflexivity.
  - reflexivity.
  - reflexivity.
  - right. left. reflexivity.
  - intros s [<- | [<- | []]] Hs.
    + split; reflexivity.
    + exfalso. apply Hs. reflexivity.
Defined.

(** * Further properties of the code *)

(** ** The operator vocabulary *)

Lemma SHORTHAND_kind (o : OperationType) (a b : WorldObject) :
  exists k, SHORTHAND o a b = Operation k [a; b] /\
            OPERAND_MAPPING k = Some o /\ is_comparison k = true.
Proof. destruct o; eexists; repeat split. Qed.

(** X1: the two operator tables are inverse to each other: the node
    [SHORTHAND] builds for an operation type is a comparison over the two
    operands whose kind [OPERAND_MAPPING] maps back to that type, and every
    kind [OPERAND_MAPPING] knows is the kind [SHORTHAND] builds for its
    type; the kinds it does not know are AND, OR and NOT. *)
Theorem operator_tables_inverse :
  (forall o a b,
      exists k, SHORTHAND o a b = Operation k [a; b] /\
                OPERAND_MAPPING k = Some o /\ is_comparison k = true) /\
  (forall k,
      match OPERAND_MAPPING k with
      | Some o => forall a b, SHORTHAND o a b = Operation k [a; b]
      | None => is_comparison k = false
      end).
Proof.
  split.
  - apply SHORTHAND_kind.
  - intros k. destruct k; simpl; auto.
Qed.

(** ** Lowering of a real condition *)

Lemma size_of_convert_expression (e : Expression) (size : N) :
  size_of (_convert_expression e size) = size.
Proof. destruct e; reflexivity. Qed.

(** X2: the node a real condition is lowered to is a one-bit comparison
    of the kind of the condition's operation over exactly two operands, both
    as wide as the wider operand of the condition and at least one bit wide;
    the warning is logged exactly when the two widths differ. *)
Theorem get_custom_condition_of_width (c : Condition) :
  exists k a b,
    fst (_get_custom_condition_of c) = Operation k [a; b] /\
    OPERAND_MAPPING k = Some (operation c) /\
    size_of a = N.max (N.max (type_size (left c)) (type_size (right c))) 1 /\
    size_of b = size_of a /\ 1 <= size_of a /\
    type_size (left c) <= size_of a /\ type_size (right c) <= size_of a /\
    size_of (fst (_get_custom_condition_of c)) = 1 /\
    (snd (_get_custom_condition_of c) = true <->
     type_size (left c) <> type_size (right c)).
Proof.
  destruct (SHORTHAND_kind (operation c)
                  (_convert_expression (left c)
                     (N.max (N.max (type_size (left c)) (type_size (right c))) 1))
                  (_convert_expression (right c)
                     (N.max (N.max (type_size (left c)) (type_size (right c))) 1)))
    as (k & Hk & Hmap & Hcmp).
  exists k. eexists. eexists.
  unfold _get_custom_condition_of. cbn [fst snd].
  split; [exact Hk|]. split; [exact Hmap|].
  rewrite !size_of_convert_expression. rewrite Hk. simpl. rewrite Hcmp.
  repeat split; try lia.
  - intros H. apply negb_true_iff in H. apply N.eqb_neq in H. exact H.
  - intros H. apply negb_true_iff. apply N.eqb_neq. exact H.
Qed.

(** ** Synthetic variables and constants *)

Lemma append_cancel (p a b : string) : (p ++ a = p ++ b)%string -> a = b.
Proof.
  induction p as [|ch p IH]; simpl; [auto|].
  intros H. inversion H. auto.
Qed.

(** X3: two pseudo variables with the same text and different SSA names
    are lowered to different variables of the graph, whatever their
    widths. *)
Theorem variable_name_separates_ssa (text ssa1 ssa2 : string) (s1 s2 size : N) :
  ssa1 <> ssa2 ->
  _variable_name_for (PVariable text ssa1 s1)
  <> _variable_name_for (PVariable text ssa2 s2) /\
  _convert_expression (PVariable text ssa1 s1) size
  <> _convert_expression (PVariable text ssa2 s2) size.
Proof.
  intros Hne.
  assert (Hnames : _variable_name_for (PVariable text ssa1 s1)
                   <> _variable_name_for (PVariable text ssa2 s2)).
  { simpl. intros H. apply append_cancel in H. apply (append_cancel ",") in H.
    contradiction. }
  split; [exact Hnames|].
  unfold _convert_expression, variable. intros H. inversion H. contradiction.
Qed.

Lemma variable_name_separates_ssa_witness :
  _convert_expression (PVariable "x" "x#0" 32) 32
  <> _convert_expression (PVariable "x" "x#1" 32) 32.
Proof.
  apply (variable_name_separates_ssa "x" "x#0" "x#1" 32 32 32).
  discriminate.
Defined.

(** X4: a constant survives the round trip through the graph: lowered
    by [_convert_expression] to the width of the comparison and lifted again
    by [_replace_real_conditions_by_symbols], a signed value that fits the
    width comes back as the constant of that value and width. *)
Theorem constant_round_trip (ce : ComparedExpressions) (v : Z) (s size : N) :
  0 < size ->
  (- 2 ^ (Z.of_N size - 1) <= v < 2 ^ (Z.of_N size - 1))%Z ->
  new_operands_of ce [_convert_expression (PConstant v s) size]
  = Ok [PConstant v size].
Proof.
  intros Hsize Hv. unfold _convert_expression, constant.
  cbn [new_operands_of compared bind]. rewrite signed_of_constant by assumption.
  reflexivity.
Qed.

Lemma constant_round_trip_witness :
  new_operands_of [] [_convert_expression (PConstant (-3) 8) 32]
  = Ok [PConstant (-3) 32].
Proof. apply (constant_round_trip [] (-3) 8 32); [reflexivity|]. split; lia. Defined.

(** ** Initializers and copies *)

Lemma init_fresh_keeps (w : World) (c : WorldObject) (tmp : bool)
      (h : CustomLogicCondition) :
  handle_ok w h = true -> _condition (fst (init w c tmp)) h = _condition w h.
Proof.
  intros Hh. apply condition_same_definition. apply init_keeps. exact Hh.
Qed.

(** X5: [initialize_true] gives a handle that is true and not false,
    [initialize_false] one that is false and not true; both are in CNF form
    and are handles the graph had not handed out, and the handles of the
    graph keep their formulas.  [initialize_symbol] hands out the named
    one-bit variable and leaves the graph as it is. *)
Theorem initializers (w : World) (name : string) :
  (let (wt, t) := initialize_true w in
   is_true wt t = true /\ is_false wt t = false /\ is_cnf_form wt t = true /\
   handle_ok w t = false /\
   forall h, handle_ok w h = true -> _condition wt h = _condition w h) /\
  (let (wf, f) := initialize_false w in
   is_false wf f = true /\ is_true wf f = false /\ is_cnf_form wf f = true /\
   handle_ok w f = false /\
   forall h, handle_ok w h = true -> _condition wf h = _condition w h) /\
  initialize_symbol w name = (w, mkCondition (Var (Named name) 1) (ident w)).
Proof.
  unfold initialize_true, initialize_false, initialize_symbol.
  rewrite !constant_true. replace (constant 0 1) with (Constant 0 1) by reflexivity.
  split; [|split; [|reflexivity]].
  - pose proof (init_fresh_keeps w (Constant 1 1) false) as Hkeep.
    rewrite init_wraps in * by reflexivity. cbn [fst] in Hkeep.
    assert (Hc : _condition (define (advance w) (fresh w false (size_of (Constant 1 1)))
                                    (Constant 1 1))
                            (mkCondition (fresh w false (size_of (Constant 1 1)))
                                         (ident w)) = Constant 1 1)
      by apply condition_define_same.
    repeat split; auto.
    + unfold is_true. rewrite Hc. reflexivity.
    + unfold is_false. rewrite Hc. reflexivity.
    + rewrite is_cnf_form_term, Hc. reflexivity.
    + apply fresh_not_below.
  - pose proof (init_fresh_keeps w (Constant 0 1) false) as Hkeep.
    rewrite init_wraps in * by reflexivity. cbn [fst] in Hkeep.
    assert (Hc : _condition (define (advance w) (fresh w false (size_of (Constant 0 1)))
                                    (Constant 0 1))
                            (mkCondition (fresh w false (size_of (Constant 0 1)))
                                         (ident w)) = Constant 0 1)
      by apply condition_define_same.
    repeat split; auto.
    + unfold is_false. rewrite Hc. reflexivity.
    + unfold is_true. rewrite Hc. reflexivity.
    + rewrite is_cnf_form_term, Hc. reflexivity.
    + apply fresh_not_below.
Qed.

(** X6: a copy has the formula of the original and is structurally
    equal to it.  The copy of a bare symbol is the symbol itself, on the
    graph as it was; the copy of any other formula is a handle the graph had
    not handed out, and the handles of the graph keep their formulas. *)
Theorem copy_is_equal (w : World) (x : CustomLogicCondition) :
  handle_ok w x = true -> dereferenced w x = true ->
  let (w', y) := copy w x in
  _condition w' y = _condition w x /\
  is_equal_to w' x y = true /\
  (is_Variable (_condition w x) = true ->
   w' = w /\ _variable y = _condition w x) /\
  (is_Variable (_condition w x) = false -> handle_ok w y = false) /\
  (forall h, handle_ok w h = true -> _condition w' h = _condition w h).
Proof.
  intros Hx Hd. unfold copy.
  pose proof (init_fresh_keeps w (_condition w x) false) as Hkeep.
  set (c := _condition w x) in *.
  destruct (is_Variable c) eqn:Hv.
  - rewrite init_reuses in * by exact Hv. cbn [fst] in Hkeep.
    assert (Hy : _condition w (mkCondition c (ident w)) = c).
    { unfold _condition; cbn [_variable]. unfold dereferenced in Hd. fold c in Hd.
      destruct c as [n s| |]; try discriminate. simpl in Hd.
      destruct (get_definition w (Var n s)); [discriminate|reflexivity]. }
    repeat split; auto; try discriminate.
    unfold is_equal_to. fold c. rewrite Hy. apply compare_refl.
  - rewrite init_wraps in * by exact Hv. cbn [fst] in Hkeep.
    assert (Hy : _condition (define (advance w) (fresh w false (size_of c)) c)
                            (mkCondition (fresh w false (size_of c)) (ident w)) = c)
      by apply condition_define_same.
    repeat split; auto; try discriminate.
    + unfold is_equal_to. rewrite Hy, Hkeep by exact Hx. fold c. apply compare_refl.
    + intros _. apply fresh_not_below.
Qed.

Lemma copy_is_equal_witness :
  let (w', y) := copy conjunction_world conjunction_formula in
  is_equal_to w' conjunction_formula y = true /\
  _variable y <> _variable conjunction_formula.
Proof.
  pose proof (copy_is_equal conjunction_world conjunction_formula eq_refl eq_refl)
    as H.
  destruct (copy conjunction_world conjunction_formula) as [w' y] eqn:E.
  destruct H as (_ & H & _). split; [exact H|].
  inversion E. discriminate.
Defined.

(** ** Binary operations and their operands *)

Lemma binary_operands (w : World) (k : OperationKind)
      (x y : CustomLogicCondition) :
  world_ok w = true -> handle_ok w x = true -> handle_ok w y = true ->
  operand_ok w (_condition w x) = true -> operand_ok w (_condition w y) = true ->
  let (w1, xy) := init w (Operation k [_condition w x; _condition w y]) false in
  _condition w1 xy = Operation k [_condition w x; _condition w y] /\
  handle_ok w xy = false /\
  (forall h, handle_ok w h = true -> _condition w1 h = _condition w h) /\
  let (w2, hs) := operands w1 xy in
  map (_condition w2) hs = [_condition w x; _condition w y] /\
  _condition w2 xy = Operation k [_condition w x; _condition w y].
Proof.
  intros Hw Hx Hy Hox Hoy.
  set (c := Operation k [_condition w x; _condition w y]).
  assert (Hbc : below (counter w) c = true).
  { simpl. rewrite !condition_below by assumption. reflexivity. }
  destruct (init_world_ok w c false Hw Hbc) as (Hw1 & Hh1 & Hc1).
  pose proof (init_keeps w c false) as Hkeep.
  pose proof (init_condition w c false Hw Hbc eq_refl) as Hcond.
  assert (Hnew : handle_ok w (snd (init w c false)) = false).
  { rewrite init_wraps by reflexivity. apply fresh_not_below. }
  destruct (init w c false) as [w1 xy]. cbn [fst snd] in *.
  split; [exact Hcond|]. split; [exact Hnew|].
  split; [intros h Hh; apply condition_same_definition; apply Hkeep; exact Hh|].
  unfold operands.
  destruct (get_operands_run w1 xy false Hw1 Hh1) as (w2 & hs & Hget & _ & _ & Hk2 & Hwr).
  { rewrite Hcond. cbn [operands_of].
    constructor; [|constructor; [|constructor]].
    - apply (operand_ok_kept w w1 _ Hkeep); [apply condition_below|]; assumption.
    - apply (operand_ok_kept w w1 _ Hkeep); [apply condition_below|]; assumption. }
  rewrite Hget. rewrite Hcond in Hwr. cbn [operands_of] in Hwr.
  split; [apply (wrapped_conditions _ _ _ _ Hwr)|].
  rewrite <- Hcond. apply condition_same_definition. apply Hk2. exact Hh1.
Qed.

(** X7: the conjunction and the disjunction of two formulas are new
    handles, a conjunction and a disjunction, whose operands are the two
    formulas in their order: [operands] gives back handles with the formulas
    of [x] and of [y]; the handles of the graph keep their formulas. *)
Theorem operands_of_binary_operation (w : World) (x y : CustomLogicCondition) :
  world_ok w = true -> handle_ok w x = true -> handle_ok w y = true ->
  operand_ok w (_condition w x) = true -> operand_ok w (_condition w y) = true ->
  (let (w1, xy) := __and__ w x y in
   is_conjunction w1 xy = true /\ handle_ok w xy = false /\
   (forall h, handle_ok w h = true -> _condition w1 h = _condition w h) /\
   let (w2, hs) := operands w1 xy in
   map (_condition w2) hs = [_condition w x; _condition w y]) /\
  (let (w1, xy) := __or__ w x y in
   is_disjunction w1 xy = true /\ handle_ok w xy = false /\
   (forall h, handle_ok w h = true -> _condition w1 h = _condition w h) /\
   let (w2, hs) := operands w1 xy in
   map (_condition w2) hs = [_condition w x; _condition w y]).
Proof.
  intros Hw Hx Hy Hox Hoy. unfold __and__, __or__, bitwise_and, bitwise_or. split.
  - pose proof (binary_operands w BitwiseAnd x y Hw Hx Hy Hox Hoy) as H.
    destruct (init w (Operation BitwiseAnd [_condition w x; _condition w y]) false)
      as [w1 xy].
    destruct H as (Hc & Hn & Hk & H). repeat split; auto.
    + unfold is_conjunction. rewrite Hc. reflexivity.
    + destruct (operands w1 xy) as [w2 hs]. tauto.
  - pose proof (binary_operands w BitwiseOr x y Hw Hx Hy Hox Hoy) as H.
    destruct (init w (Operation BitwiseOr [_condition w x; _condition w y]) false)
      as [w1 xy].
    destruct H as (Hc & Hn & Hk & H). repeat split; auto.
    + unfold is_disjunction. rewrite Hc. reflexivity.
    + destruct (operands w1 xy) as [w2 hs]. tauto.
Qed.

Lemma operands_of_binary_operation_witness :
  let (w1, xy) := __and__ empty_world switch_x1 switch_x2 in
  let (w2, hs) := operands w1 xy in
  map (_condition w2) hs = [_variable switch_x1; _variable switch_x2].
Proof.
  pose proof (operands_of_binary_operation empty_world switch_x1 switch_x2
                eq_refl eq_refl eq_refl eq_refl eq_refl) as [H _].
  destruct (__and__ empty_world switch_x1 switch_x2) as [w1 xy].
  destruct H as (_ & _ & _ & H). exact H.
Defined.

(** ** Literals of a formula *)

(** X8: [_get_literals] succeeds exactly on the formulas made of literals
    and one-bit constants under AND, OR and NOT; what it yields then are
    literals only; on any other formula the assertion fails. *)
Theorem get_literals_yields_literals (w : World) (c : WorldObject) :
  match _get_literals w c with
  | Ok literals =>
      Forall (fun l => _is_literal w l = true) literals /\
      literal_formula w c = true
  | Raise e => e = AssertionError /\ literal_formula w c = false
  end.
Proof.
  induction c as [n s|u s|k ops IH] using WorldObject_rect'.
  - cbn [_get_literals literal_formula].
    destruct (_is_literal w (Var n s)) eqn:E.
    + split; [repeat constructor; exact E | reflexivity].
    + split; reflexivity.
  - cbn [_get_literals literal_formula].
    destruct (_is_literal w (Constant u s)) eqn:E; [discriminate|].
    destruct (s =? 1); split; auto.
  - cbn [_get_literals literal_formula].
    destruct (_is_literal w (Operation k ops)) eqn:E.
    + split; [repeat constructor; exact E | reflexivity].
    + cbn [orb]. destruct (is_comparison k); [split; reflexivity|]. cbn [negb andb].
      clear E. induction IH as [|o l Ho _ IHl]; [split; [constructor|reflexivity]|].
      cbn [forallb collect]. fold (collect (_get_literals w)).
      destruct (_get_literals w o) as [first|e].
      * destruct Ho as [Hf Hl]. rewrite Hl. cbn [bind andb].
        destruct (collect (_get_literals w) l) as [rest|e].
        -- cbn [bind]. destruct IHl as [Hr Hall]. split; [|exact Hall].
           apply Forall_app. split; assumption.
        -- cbn [bind]. exact IHl.
      * destruct Ho as [-> Hl]. rewrite Hl. cbn [bind andb]. split; reflexivity.
Qed.

(** ** Classification of formulas *)

(** X9: a symbol is a literal, a literal is a disjunction of literals, and
    a disjunction of literals, the true constant and the false constant are
    in CNF form; a symbol is neither true nor false, nor a conjunction, a
    disjunction or a negation. *)
Theorem classification_chain (w : World) (self : CustomLogicCondition) :
  (is_symbol w self = true -> is_literal w self = true) /\
  (is_literal w self = true -> is_disjunction_of_literals w self = true) /\
  (is_disjunction_of_literals w self = true -> is_cnf_form w self = true) /\
  (is_true w self = true -> is_cnf_form w self = true) /\
  (is_false w self = true -> is_cnf_form w self = true) /\
  (is_symbol w self = true ->
   is_true w self = false /\ is_false w self = false /\
   is_conjunction w self = false /\ is_disjunction w self = false /\
   is_negation w self = false).
Proof.
  unfold is_symbol, is_literal, is_disjunction_of_literals, is_cnf_form,
    is_true, is_false, is_conjunction, is_disjunction, is_negation.
  repeat split.
  - intros H. unfold _is_literal. rewrite H. reflexivity.
  - intros H. unfold _is_disjunction_of_literals. rewrite H. reflexivity.
  - intros H. fold (is_true w self) (is_false w self).
    unfold is_disjunction_of_literals. rewrite H, orb_true_r. reflexivity.
  - intros H. fold (is_true w self). unfold is_true. rewrite H. reflexivity.
  - intros H. fold (is_false w self). unfold is_false at 1. rewrite H, orb_true_r.
    reflexivity.
  - destruct (_condition w self); [reflexivity|discriminate|reflexivity].
  - destruct (_condition w self); [reflexivity|discriminate|reflexivity].
  - destruct (_condition w self); [reflexivity|reflexivity|discriminate].
  - destruct (_condition w self); [reflexivity|reflexivity|discriminate].
  - destruct (_condition w self); [reflexivity|reflexivity|discriminate].
Qed.

(** ** The complexity of a formula *)

Definition count_step (count : nat) (node : WorldObject) : nat :=
  match node with
  | Operation _ ops => (count + List.length (filter is_Variable ops))%nat
  | _ => count
  end.

Lemma count_variables (l : list WorldObject) :
  Forall (fun o => is_Variable o = true) l ->
  forall n, fold_left count_step l n = n.
Proof.
  induction 1 as [|o l Ho _ IH]; intros n; [reflexivity|].
  simpl. rewrite IH. destruct o; try discriminate. reflexivity.
Qed.

Lemma filter_variables (l : list WorldObject) :
  Forall (fun o => is_Variable o = true) l -> filter is_Variable l = l.
Proof.
  induction 1 as [|o l Ho _ IH]; [reflexivity|]. simpl. rewrite Ho, IH. reflexivity.
Qed.

Lemma dedup_variables (l : list WorldObject) :
  Forall (fun o => is_Variable o = true) l ->
  Forall (fun o => is_Variable o = true) (dedup l).
Proof.
  induction 1 as [|o l Ho _ IH]; [constructor|].
  simpl. constructor; [exact Ho|].
  rewrite Forall_forall in *. intros x Hx. apply filter_In in Hx. apply IH. tauto.
Qed.

Lemma dedup_snoc_operation (l : list WorldObject) (k : OperationKind)
      (ops : list WorldObject) :
  Forall (fun o => is_Variable o = true) l ->
  dedup (l ++ [Operation k ops]) = dedup l ++ [Operation k ops].
Proof.
  induction 1 as [|o l Ho _ IH]; [reflexivity|].
  simpl. rewrite IH, filter_app. simpl.
  replace (WorldObject_eqb (Operation k ops) o) with false; [reflexivity|].
  symmetry. apply WorldObject_eqb_neq. intros <-. discriminate.
Qed.

Lemma postorder_variables (w : World) (fuel : nat) (ops : list WorldObject) :
  Forall (fun o => is_Variable o = true /\ get_definition w o = None) ops ->
  flat_map (postorder w fuel) ops = ops.
Proof.
  induction 1 as [|o l [Hv Hd] _ IH]; [reflexivity|].
  cbn [flat_map]. rewrite IH. destruct o as [n s| |]; try discriminate.
  destruct fuel; simpl; rewrite ?Hd; reflexivity.
Qed.

(** X10: the complexity of a bare variable is 1, and the complexity of an
    operation over variables that have no definition is the number of its
    operands, a variable that occurs twice counted twice. *)
Theorem len_of_flat_formula (w : World) (self : CustomLogicCondition) :
  (is_Variable (_condition w self) = true -> __len__ w self = 1%nat) /\
  (forall k ops,
      _condition w self = Operation k ops ->
      Forall (fun o => is_Variable o = true /\ get_definition w o = None) ops ->
      __len__ w self = List.length ops).
Proof.
  unfold __len__. split.
  - intros ->. reflexivity.
  - intros k ops Hc Hops. rewrite Hc. cbn [is_Variable].
    fold count_step. unfold iter_postorder.
    assert (Hvars : Forall (fun o => is_Variable o = true) ops).
    { eapply Forall_impl; [|exact Hops]. intros o [H _]. exact H. }
    replace (postorder w (List.length (definitions w)) (Operation k ops))
      with (flat_map (postorder w (List.length (definitions w))) ops
              ++ [Operation k ops])
      by (destruct (List.length (definitions w)); reflexivity).
    rewrite postorder_variables by exact Hops.
    rewrite dedup_snoc_operation by exact Hvars.
    rewrite fold_left_app.
    rewrite (count_variables (dedup ops)) by (apply dedup_variables; exact Hvars).
    simpl. rewrite filter_variables by exact Hvars. reflexivity.
Qed.

Lemma len_of_flat_formula_witness :
  __len__ conjunction_world conjunction_formula = 3%nat.
Proof.
  apply (proj2 (len_of_flat_formula conjunction_world conjunction_formula)
               BitwiseAnd [sample_a; sample_b; sample_c] eq_refl).
  repeat constructor.
Defined.

(** ** Guards of the substitution by true *)

Section SubstituteGuards.

Variable simplify_term : WorldObject -> WorldObject.
Variable to_cnf_term : WorldObject -> WorldObject.

(** X12: [substitute_by_true] fails with an assertion error, before it
    looks at the formulas, when the two handles belong to different graphs;
    and a formula that is already true is returned as it is, on the graph as
    it is, whatever [provenTrue] is. *)
Theorem substitute_by_true_guards (w : World)
        (self provenTrue : CustomLogicCondition) :
  (context self <> context provenTrue ->
   substitute_by_true simplify_term to_cnf_term w self provenTrue
   = Raise AssertionError) /\
  (context self = context provenTrue -> is_true w self = true ->
   substitute_by_true simplify_term to_cnf_term w self provenTrue = Ok (w, self)).
Proof.
  unfold substitute_by_true. split.
  - intros Hne. apply Nat.eqb_neq in Hne. rewrite Hne. reflexivity.
  - intros -> Ht. rewrite Nat.eqb_refl, Ht. cbn [negb].
    unfold to_cnf, is_cnf_form. rewrite Ht. cbn [orb]. rewrite Ht. reflexivity.
Qed.

End SubstituteGuards.

(** ** The n-ary constructors on one graph *)

Lemma clause_conditions_same_graph (worlds : Worlds) (world : nat)
      (clauses : list CustomLogicCondition) :
  Forall (fun c => context c = world) clauses ->
  forallb (fun o : nat * WorldObject => Nat.eqb (fst o) world)
          (clause_conditions worlds clauses) = true /\
  map snd (clause_conditions worlds clauses)
  = map (_condition (worlds world)) clauses.
Proof.
  induction 1 as [|c l Hc _ [IH1 IH2]]; [split; reflexivity|].
  cbn [clause_conditions map forallb fst snd]. fold (clause_conditions worlds l).
  rewrite IH1, IH2, Hc, Nat.eqb_refl. split; reflexivity.
Qed.

(** X13: on clauses that all belong to the graph of the first,
    [conjunction_of] and [disjunction_of] give a new handle whose formula is
    the conjunction, or the disjunction, of the formulas of the clauses in
    their order; the formula of a single clause is an operation with that
    one operand.  The handles of the graph keep their formulas. *)
Theorem n_ary_constructors_on_one_graph (worlds : Worlds)
        (first : CustomLogicCondition) (rest : list CustomLogicCondition) :
  Forall (fun c => context c = context first) rest ->
  let w := worlds (context first) in
  (exists w' h,
      conjunction_of worlds (first :: rest) = Ok (w', h) /\
      _condition w' h = Operation BitwiseAnd (map (_condition w) (first :: rest)) /\
      is_conjunction w' h = true /\ handle_ok w h = false /\
      forall h0, handle_ok w h0 = true -> _condition w' h0 = _condition w h0) /\
  (exists w' h,
      disjunction_of worlds (first :: rest) = Ok (w', h) /\
      _condition w' h = Operation BitwiseOr (map (_condition w) (first :: rest)) /\
      is_disjunction w' h = true /\ handle_ok w h = false /\
      forall h0, handle_ok w h0 = true -> _condition w' h0 = _condition w h0).
Proof.
  intros Hrest w.
  assert (Hall : Forall (fun c => context c = context first) (first :: rest))
    by (constructor; [reflexivity|exact Hrest]).
  destruct (clause_conditions_same_graph worlds (context first) _ Hall) as [H1 H2].
  unfold conjunction_of, disjunction_of, world_operation.
  rewrite H1, H2. cbn [bind]. fold w.
  split.
  - rewrite init_wraps by reflexivity. eexists. eexists.
    split; [reflexivity|]. split; [apply condition_define_same|].
    split; [unfold is_conjunction; rewrite condition_define_same; reflexivity|].
    split; [apply fresh_not_below|].
    intros h0 Hh0. rewrite condition_define_other; [reflexivity|].
    apply below_generated. exact Hh0.
  - rewrite init_wraps by reflexivity. eexists. eexists.
    split; [reflexivity|]. split; [apply condition_define_same|].
    split; [unfold is_disjunction; rewrite condition_define_same; reflexivity|].
    split; [apply fresh_not_below|].
    intros h0 Hh0. rewrite condition_define_other; [reflexivity|].
    apply below_generated. exact Hh0.
Qed.

Lemma n_ary_constructors_on_one_graph_witness :
  exists w' h,
    conjunction_of (fun _ => empty_world) [switch_x1] = Ok (w', h) /\
    _condition w' h = Operation BitwiseAnd [_variable switch_x1].
Proof.
  destruct (n_ary_constructors_on_one_graph (fun _ => empty_world) switch_x1 []
              (Forall_nil _)) as [(w' & h & H1 & H2 & _) _].
  exists w', h. split; [exact H1 | exact H2].
Defined.

(** ** Lowering symbols to their real conditions *)

(** X11: [_replace_symbols_by_real_conditions] works on a copy.  On a
    formula that is the conjunction of two distinct symbols, the handle it
    returns is on a new variable, whose formula is the conjunction of the
    comparisons the registry has for the two symbols, in the order of the
    symbols; the formula of [self] and of every other handle of the graph is
    what it was before the call. *)
Theorem replace_symbols_by_real_conditions_on_copy
        (w : World) (self : CustomLogicCondition) (handler : ConditionHandler)
        (a b : WorldObject) :
  world_ok w = true -> keys_ok w = true ->
  get_definition w (_variable self) = Some (bitwise_and [a; b]) ->
  _is_symbol w a = true -> _is_symbol w b = true -> a <> b ->
  let '(w1, real_condition, _) :=
    _replace_symbols_by_real_conditions w self handler in
  handle_ok w real_condition = false /\
  _condition w1 real_condition
  = bitwise_and
      [get_z3_condition_of handler (mkCondition a (context self));
       get_z3_condition_of handler (mkCondition b (context self))] /\
  _condition w1 self = bitwise_and [a; b] /\
  (forall h, handle_ok w h = true -> _condition w1 h = _condition w h).
Proof.
  intros Hw Hk Hself Ha Hb Hab.
  rewrite (lowering w self handler a b) by assumption.
  assert (Hframe : forall h t, handle_ok w h = true ->
            _condition (copy_world w (fresh w false (size_of (bitwise_and [a; b]))) t) h
            = _condition w h).
  { intros h t Hh. unfold _condition.
    rewrite copy_world_get_other; [reflexivity|].
    apply below_not_fresh. exact Hh. }
  repeat split.
  - apply fresh_not_below.
  - unfold _condition. cbn [_variable]. rewrite copy_world_get_same. reflexivity.
  - rewrite Hframe.
    + unfold _condition. rewrite Hself. reflexivity.
    + unfold handle_ok. destruct (below (counter w) (_variable self)) eqn:E;
        [reflexivity|].
      unfold get_definition in Hself.
      rewrite (lookup_fresh (counter w) (_variable self) (definitions w) Hw E)
        in Hself. discriminate.
  - intros h Hh. apply Hframe. exact Hh.
Qed.

Lemma replace_symbols_by_real_conditions_on_copy_witness :
  let '(w1, real_condition, _) :=
    _replace_symbols_by_real_conditions switch_world switch_formula
                                        switch_registry in
  _condition w1 real_condition
  = bitwise_and [encoding switch_less; encoding switch_equal] /\
  _condition w1 switch_formula = _condition switch_world switch_formula.
Proof.
  pose proof (replace_symbols_by_real_conditions_on_copy
                switch_world switch_formula switch_registry
                (variable "x1" 1) (variable "x2" 1)
                eq_refl eq_refl eq_refl eq_refl eq_refl) as H.
  destruct (_replace_symbols_by_real_conditions switch_world switch_formula
                                                switch_registry)
    as [[w1 real_condition] ce].
  destruct H as (_ & H1 & H2 & _); [discriminate|].
  split; [exact H1 | exact H2].
Defined.
